(** * Reed-Solomon erasure coding, WASM boundary adapter

    A shallow embedding of [src/index.ts]: the class [ReedSolomonErasure]
    that marshals shard buffers in and out of the linear memory of a
    WebAssembly coding engine.  The browser build has the same [encode],
    [reconstruct], [getResultMessage] and [getUint8Memory], statement for
    statement, and a [getInstance] that differs in the loader it starts.

    The engine itself (the compiled module behind [IWasm]) is not part of the
    sources; the adapter is verified for every implementation of the four
    exports, and a small test double is used to run it on concrete inputs. *)

From Stdlib Require Import ZArith QArith Qround Lia.
From Stdlib.Strings Require Import Byte Ascii.
From stdpp Require Import base numbers list strings gmap pretty.

#[local] Open Scope Z_scope.

#[global] Instance byte_eq_dec : EqDecision byte := Byte.byte_eq_dec.

(** ** The fragment of ECMAScript the adapter relies on *)

Module JS.

(** A Number value: a binary64 value, given by the rational it stands for.
    The integers of the adapter (lengths, pointers, counts and what is
    computed from them) lie below 2^53 in magnitude, where every integer is a
    binary64 value and is kept as it is; any other result of the arithmetic
    is rounded to binary64.  The sign of a zero is not kept: no zero the
    adapter computes is used as a divisor, and the conversions to an index
    take both zeros to 0. *)
Inductive number : Type :=
  | Finite (q : Q)
  | PosInfinity
  | NegInfinity
  | NaN.

Definition of_Z (z : Z) : number := Finite (inject_Z z).

Definition sign (q : Q) : comparison := (Qnum q ?= 0)%Z.

(** Whether a rational is an integer. *)
Definition integral (q : Q) : bool := Qnum q mod Z.pos (Qden q) =? 0.

Definition pow2 (e : Z) : Q :=
  if 0 <=? e then inject_Z (2 ^ e) else Qinv (inject_Z (2 ^ (- e))).

(** The exponent [e] of a positive rational [q]: [2^e ≤ q < 2^(e+1)]. *)
Definition exponent (q : Q) : Z :=
  let e := Z.log2 (Qnum q) - Z.log2 (Z.pos (Qden q)) in
  if Qle_bool (pow2 e) q then e else e - 1.

(** The integer nearest to a rational that is not negative, the even one of
    two that are equally near. *)
Definition nearest_even (q : Q) : Z :=
  let below := Qfloor q in
  match (q - inject_Z below ?= 1 # 2)%Q with
  | Lt => below
  | Gt => below + 1
  | Eq => if Z.even below then below else below + 1
  end.

(** The binary64 value of a positive rational (roundTiesToEven): 53
    significant bits at an exponent not below -1022; [None] from 2^1024
    on. *)
Definition round_positive (q : Q) : option Q :=
  let ulp := pow2 (Z.max (exponent q) (-1022) - 52) in
  let rounded := (inject_Z (nearest_even (q / ulp)) * ulp)%Q in
  if Qle_bool (pow2 1024) rounded then None else Some rounded.

(** The Number value for a rational. *)
Definition binary64 (q : Q) : number :=
  if integral q then Finite q
  else match sign q with
       | Gt => from_option Finite PosInfinity (round_positive q)
       | Lt => from_option (λ r, Finite (- r)) NegInfinity
                 (round_positive (- q))
       | Eq => Finite q
       end.

Definition negate (n : number) : number :=
  match n with
  | Finite q => Finite (- q)
  | PosInfinity => NegInfinity
  | NegInfinity => PosInfinity
  | NaN => NaN
  end.

(** Number::add *)
Definition add (a b : number) : number :=
  match a, b with
  | NaN, _ | _, NaN => NaN
  | PosInfinity, NegInfinity | NegInfinity, PosInfinity => NaN
  | PosInfinity, _ | _, PosInfinity => PosInfinity
  | NegInfinity, _ | _, NegInfinity => NegInfinity
  | Finite x, Finite y => binary64 (x + y)
  end.

Definition scale_infinity (inf : number) (q : Q) : number :=
  match sign q with
  | Eq => NaN
  | Gt => inf
  | Lt => negate inf
  end.

(** Number::multiply *)
Definition mul (a b : number) : number :=
  match a, b with
  | NaN, _ | _, NaN => NaN
  | Finite x, Finite y => binary64 (x * y)
  | Finite x, inf => scale_infinity inf x
  | inf, Finite y => scale_infinity inf y
  | PosInfinity, PosInfinity | NegInfinity, NegInfinity => PosInfinity
  | _, _ => NegInfinity
  end.

(** Number::divide; a zero divisor is [+0]. *)
Definition div (a b : number) : number :=
  match a, b with
  | NaN, _ | _, NaN => NaN
  | Finite x, Finite y =>
      match sign y with
      | Eq => match sign x with
              | Eq => NaN
              | Gt => PosInfinity
              | Lt => NegInfinity
              end
      | _ => binary64 (x / y)
      end
  | Finite _, _ => Finite 0
  | inf, Finite y => match sign y with Lt => negate inf | _ => inf end
  | _, _ => NaN
  end.

Inductive integer_or_infinity : Type :=
  | NegInf
  | Int (z : Z)
  | PosInf.

(** truncation towards zero *)
Definition truncate (q : Q) : Z := Z.quot (Qnum q) (Z.pos (Qden q)).

(** ToIntegerOrInfinity ( argument ) *)
Definition ToIntegerOrInfinity (n : number) : integer_or_infinity :=
  match n with
  | NaN => Int 0
  | PosInfinity => PosInf
  | NegInfinity => NegInf
  | Finite q => Int (truncate q)
  end.

(** The value of an omitted argument, after ToNumber. *)
Definition undefined : number := NaN.

Inductive exception : Type :=
  | RangeError
  | TypeError
  | RuntimeError
  | CompileError
  | SystemError (path : string)
  | Error (message : string).

(** ToUint8 ( argument ) on an integral Number *)
Definition ToUint8 (z : Z) : byte :=
  default x00 (Byte.of_N (Z.to_N (z mod 256))).

(** The element index that a relative [start] or [end] of
    %TypedArray%.prototype.subarray denotes in an array of [srcLength]
    elements. *)
Definition relative_index (srcLength : Z) (rel : integer_or_infinity) : Z :=
  match rel with
  | NegInf => 0
  | Int r => if r <? 0 then Z.max (srcLength + r) 0 else Z.min r srcLength
  | PosInf => srcLength
  end.

(** %TypedArray%.prototype.subarray ( start, end ): the elements the new view
    ranges over. *)
Definition subarray (a : list byte) (start end_ : number) : list byte :=
  let srcLength := Z.of_nat (length a) in
  let startIndex := relative_index srcLength (ToIntegerOrInfinity start) in
  let endIndex := relative_index srcLength (ToIntegerOrInfinity end_) in
  let newLength := Z.max (endIndex - startIndex) 0 in
  take (Z.to_nat newLength) (drop (Z.to_nat startIndex) a).

(** %TypedArray%.prototype.set ( source, offset ): the new contents of the
    target, or the RangeError raised before anything is written. *)
Definition set (target source : list byte) (offset : number)
  : exception + list byte :=
  match ToIntegerOrInfinity offset with
  | NegInf | PosInf => inl RangeError
  | Int targetOffset =>
      if targetOffset <? 0 then inl RangeError
      else if Z.of_nat (length target) <? Z.of_nat (length source) + targetOffset
      then inl RangeError
      else inr (list_inserts (Z.to_nat targetOffset) source target)
  end.

(** Number::toString of a safe integer, one of magnitude below 2^53 (radix
    10): its decimal expansion.  What is stated of [getResultMessage] is
    stated under that bound. *)
Definition NumberToString (z : Z) : string := pretty z.

End JS.

(** ** The engine boundary *)

Module Wasm.

(** The buffer of a WebAssembly.Memory: its bytes, and its identity as a
    JavaScript object.  Growing the memory detaches the buffer and makes
    [memory.buffer] a new object. *)
Record ArrayBuffer : Type := {
  buffer_id : nat;
  buffer_bytes : list byte;
}.

(** What an instantiated module owns: its linear memory and whatever else it
    keeps (allocator tables, ...), of a type [St] of its own. *)
Record Instance (St : Type) : Type := {
  memory : ArrayBuffer;
  internal : St;
}.
Arguments memory {St} _.
Arguments internal {St} _.

(** [interface IWasm]: the four exported functions; [memory] is the
    instance's.  Each function takes the Numbers the adapter passes (all of
    them integers; turning them into i32 is the export's business), runs on
    the instance and either returns or traps ([None]). *)
Record IWasm (St : Type) : Type := {
  encode : Z → Z → Z → Z → Instance St → option (Z * Instance St);
  reconstruct : Z → Z → Z → Z → Z → Z → Instance St → option (Z * Instance St);
  __wbindgen_malloc : Z → Instance St → option (Z * Instance St);
  __wbindgen_free : Z → Z → Instance St → option (Instance St);
}.
Arguments encode {St} _.
Arguments reconstruct {St} _.
Arguments __wbindgen_malloc {St} _.
Arguments __wbindgen_free {St} _.

(** Writing bytes into the memory keeps the buffer object. *)
Definition store {St} (i : Instance St) (bytes : list byte) : Instance St :=
  {| memory := {| buffer_id := buffer_id (memory i); buffer_bytes := bytes |};
     internal := internal i |}.

(** The [length] bytes of the memory from [pointer] on. *)
Definition region {St} (i : Instance St) (pointer length : Z) : list byte :=
  take (Z.to_nat length) (drop (Z.to_nat pointer) (buffer_bytes (memory i))).

(** A call through the boundary, as a spy on the exports would record it. *)
Inductive Export : Type :=
  | malloc_call (length : Z)
  | free_call (pointer length : Z)
  | encode_call (shardsPointer shardsLength dataShards parityShards : Z)
  | reconstruct_call (shardsPointer shardsLength dataShards parityShards
                      shardsAvailablePointer shardsAvailableLength : Z).

Inductive Outcome : Type :=
  | Returned (value : Z)
  | ReturnedVoid
  | Trapped.

Definition Call : Type := Export * Outcome.

(** The regions a sequence of calls obtained, and those it gave back. *)
Definition acquired (log : list Call) : list (Z * Z) :=
  omap (λ c, match c with
             | (malloc_call length, Returned pointer) => Some (pointer, length)
             | _ => None
             end) log.

Definition released (log : list Call) : list (Z * Z) :=
  omap (λ c, match c with
             | (free_call pointer length, ReturnedVoid) => Some (pointer, length)
             | _ => None
             end) log.

End Wasm.

(** ** Computations that may throw *)

Inductive Completion (W A : Type) : Type :=
  | Normal (a : A) (w : W)
  | Throw (e : JS.exception) (w : W).
Arguments Normal {W A} _ _.
Arguments Throw {W A} _ _.

Definition Op (W A : Type) : Type := W → Completion W A.

#[global] Instance Op_ret {W} : MRet (Op W) := λ A a w, Normal a w.

#[global] Instance Op_bind {W} : MBind (Op W) := λ A B k c w,
  match c w with
  | Normal a w' => k a w'
  | Throw e w' => Throw e w'
  end.

Definition throw {W A} (e : JS.exception) : Op W A := λ w, Throw e w.

Definition gets {W A} (f : W → A) : Op W A := λ w, Normal (f w) w.

(** The state a computation ends in, whichever way it ends. *)
Definition final {W A} (c : Completion W A) : W :=
  match c with
  | Normal _ w => w
  | Throw _ w => w
  end.

(** ** class ReedSolomonErasure *)

Module ReedSolomonErasure.
Import JS Wasm.

Definition RESULT_OK : Z := 0.
Definition RESULT_ERROR_TOO_FEW_SHARDS : Z := 1.
Definition RESULT_ERROR_TOO_MANY_SHARDS : Z := 2.
Definition RESULT_ERROR_TOO_FEW_DATA_SHARDS : Z := 3.
Definition RESULT_ERROR_TOO_MANY_DATA_SHARDS : Z := 4.
Definition RESULT_ERROR_TOO_FEW_PARITY_SHARDS : Z := 5.
Definition RESULT_ERROR_TOO_MANY_PARITY_SHARDS : Z := 6.
Definition RESULT_ERROR_TOO_FEW_BUFFER_SHARDS : Z := 7.
Definition RESULT_ERROR_TOO_MANY_BUFFER_SHARDS : Z := 8.
Definition RESULT_ERROR_INCORRECT_SHARD_SIZE : Z := 9.
Definition RESULT_ERROR_TOO_FEW_SHARDS_PRESENT : Z := 10.
Definition RESULT_ERROR_EMPTY_SHARD : Z := 11.
Definition RESULT_ERROR_INVALID_SHARD_FLAGS : Z := 12.
Definition RESULT_ERROR_INVALID_INDEX : Z := 13.

(** A [Uint8Array] over the engine memory: an object of its own, over the
    buffer it was made from. *)
Record Uint8Array : Type := {
  view_id : nat;
  view_buffer : nat;
}.

(** The objects a call of [encode] or [reconstruct] works on: the handle
    ([this.exports] with the instance behind it, [this.memoryCache]), the
    caller's [shards] and [shardsAvailable], the number of views made so far
    and the calls that went through the boundary. *)
Record State (St : Type) : Type := {
  instance : Instance St;
  memoryCache : option Uint8Array;
  views : nat;
  calls : list Call;
  shards : list byte;
  shardsAvailable : list bool;
}.
Arguments instance {St} _.
Arguments memoryCache {St} _.
Arguments views {St} _.
Arguments calls {St} _.
Arguments shards {St} _.
Arguments shardsAvailable {St} _.

Section Methods.
Context {St : Type} (exports : IWasm St).

Definition set_instance (i : Instance St) (w : State St) : State St :=
  {| instance := i; memoryCache := memoryCache w; views := views w;
     calls := calls w; shards := shards w;
     shardsAvailable := shardsAvailable w |}.

(** [this.memoryCache = view] for a view just made: one more view exists. *)
Definition cache_new_view (v : Uint8Array) (w : State St) : State St :=
  {| instance := instance w; memoryCache := Some v; views := S (views w);
     calls := calls w; shards := shards w;
     shardsAvailable := shardsAvailable w |}.

Definition record (c : Call) (w : State St) : State St :=
  {| instance := instance w; memoryCache := memoryCache w; views := views w;
     calls := calls w ++ [c]; shards := shards w;
     shardsAvailable := shardsAvailable w |}.

Definition set_shards (bytes : list byte) (w : State St) : State St :=
  {| instance := instance w; memoryCache := memoryCache w; views := views w;
     calls := calls w; shards := bytes;
     shardsAvailable := shardsAvailable w |}.

(** A call of an export: it runs on the instance and is recorded; a trap
    surfaces as an exception. *)
Definition invoke (e : Export) (run : Instance St → option (Z * Instance St))
  : Op (State St) Z := λ w,
  match run (instance w) with
  | Some (value, i) => Normal value (record (e, Returned value) (set_instance i w))
  | None => Throw RuntimeError (record (e, Trapped) w)
  end.

Definition invoke_void (e : Export) (run : Instance St → option (Instance St))
  : Op (State St) unit := λ w,
  match run (instance w) with
  | Some i => Normal tt (record (e, ReturnedVoid) (set_instance i w))
  | None => Throw RuntimeError (record (e, Trapped) w)
  end.

(** [private getUint8Memory(): Uint8Array] *)
Definition getUint8Memory : Op (State St) Uint8Array := λ w,
  let buffer := buffer_id (memory (instance w)) in
  let fresh := {| view_id := views w; view_buffer := buffer |} in
  match memoryCache w with
  | None => Normal fresh (cache_new_view fresh w)
  | Some cachegetUint8Memory =>
      if decide (view_buffer cachegetUint8Memory ≠ buffer)
      then Normal fresh (cache_new_view fresh w)
      else Normal cachegetUint8Memory w
  end.

(** [view.set(source, offset)] on a view of the engine memory.  A view whose
    buffer is no longer the memory's is detached. *)
Definition view_set (view : Uint8Array) (source : list byte) (offset : number)
  : Op (State St) unit := λ w,
  let buffer := memory (instance w) in
  if decide (view_buffer view = buffer_id buffer) then
    match JS.set (buffer_bytes buffer) source offset with
    | inl e => Throw e w
    | inr bytes => Normal tt (set_instance (store (instance w) bytes) w)
    end
  else Throw TypeError w.

(** One more [Uint8Array] exists. *)
Definition count_view (w : State St) : State St :=
  {| instance := instance w; memoryCache := memoryCache w;
     views := S (views w); calls := calls w; shards := shards w;
     shardsAvailable := shardsAvailable w |}.

(** [view.subarray(start, end)]: a new [Uint8Array] over the buffer of
    [view], given by the elements it ranges over. *)
Definition view_subarray (view : Uint8Array) (start end_ : number)
  : Op (State St) (list byte) := λ w,
  let buffer := memory (instance w) in
  if decide (view_buffer view = buffer_id buffer)
  then Normal (subarray (buffer_bytes buffer) start end_) (count_view w)
  else Throw TypeError w.

(** [shards.set(source, offset)] on the caller's buffer *)
Definition shards_set (source : list byte) (offset : number)
  : Op (State St) unit := λ w,
  match JS.set (shards w) source offset with
  | inl e => Throw e w
  | inr bytes => Normal tt (set_shards bytes w)
  end.

(** [public encode(shards: Uint8Array, dataShards: number,
    parityShards: number): number], for counts that are integers.  The
    caller's [shards] is the component of that name of the state. *)
Definition encode (dataShards parityShards : Z) : Op (State St) Z :=
  shards_ ← gets shards;
  let shardsLength := Z.of_nat (length shards_) in
  shardsPointer ← invoke (malloc_call shardsLength)
                    (__wbindgen_malloc exports shardsLength);
  view ← getUint8Memory;
  view_set view shards_ (of_Z shardsPointer);;
  let shardSize :=
    div (of_Z shardsLength) (add (of_Z dataShards) (of_Z parityShards)) in
  result ← invoke
             (encode_call shardsPointer shardsLength dataShards parityShards)
             (Wasm.encode exports shardsPointer shardsLength
                dataShards parityShards);
  (if decide (result = RESULT_OK) then
     view ← getUint8Memory;
     parity ← view_subarray view
                (add (of_Z shardsPointer) (mul shardSize (of_Z dataShards)))
                (add (of_Z shardsPointer) (of_Z shardsLength));
     shards_set parity (mul shardSize (of_Z dataShards))
   else mret tt);;
  invoke_void (free_call shardsPointer shardsLength)
    (__wbindgen_free exports shardsPointer shardsLength);;
  mret result.

(** [public reconstruct(shards: Uint8Array, dataShards: number,
    parityShards: number, shardsAvailable: boolean[]): number], for counts
    that are integers.  [shardsAvailable.map(...)] makes an array of its
    own, whose elements [set] turns into bytes. *)
Definition reconstruct (dataShards parityShards : Z) : Op (State St) Z :=
  shards_ ← gets shards;
  let shardsLength := Z.of_nat (length shards_) in
  shardsPointer ← invoke (malloc_call shardsLength)
                    (__wbindgen_malloc exports shardsLength);
  view ← getUint8Memory;
  view_set view shards_ (of_Z shardsPointer);;
  shardsAvailable_ ← gets shardsAvailable;
  let shardsAvailableLength := Z.of_nat (length shardsAvailable_) in
  shardsAvailablePointer ← invoke (malloc_call shardsAvailableLength)
                             (__wbindgen_malloc exports shardsAvailableLength);
  view ← getUint8Memory;
  view_set view
    (ToUint8 <$> ((λ value : bool, if value then 1 else 0) <$> shardsAvailable_))
    (of_Z shardsAvailablePointer);;
  let shardSize :=
    div (of_Z shardsLength) (add (of_Z dataShards) (of_Z parityShards)) in
  result ← invoke
             (reconstruct_call shardsPointer shardsLength dataShards
                parityShards shardsAvailablePointer shardsAvailableLength)
             (Wasm.reconstruct exports shardsPointer shardsLength dataShards
                parityShards shardsAvailablePointer shardsAvailableLength);
  (if decide (result = RESULT_OK) then
     view ← getUint8Memory;
     data ← view_subarray view
              (of_Z shardsPointer)
              (add (of_Z shardsPointer) (mul shardSize (of_Z dataShards)));
     shards_set data undefined
   else mret tt);;
  invoke_void (free_call shardsPointer shardsLength)
    (__wbindgen_free exports shardsPointer shardsLength);;
  invoke_void (free_call shardsAvailablePointer shardsAvailableLength)
    (__wbindgen_free exports shardsAvailablePointer shardsAvailableLength);;
  mret result.

End Methods.

(** [public static getResultMessage(code: number): string] *)
Definition messages : gmap Z string :=
  list_to_map
    [ (0, "OK");
      (1, "Too few shards");
      (2, "Too many shards");
      (3, "Too few data shards");
      (4, "Too many data shards");
      (5, "Too few parity shards");
      (6, "Too many parity shards");
      (7, "Too few buffer shards");
      (8, "Too many buffer shards");
      (9, "Incorrect shard size");
      (10, "Too few shards present for reconstruction");
      (11, "Empty shard");
      (12, "Invalid shard flags");
      (13, "Invalid index") ]%string.

(** [a || b] on a string that may be undefined: the empty string is falsy. *)
Definition or_else (a : option string) (b : string) : string :=
  match a with
  | Some s => if decide (s = EmptyString) then b else s
  | None => b
  end.

Definition getResultMessage (code : Z) : string :=
  or_else (messages !! code) ("Unknown error code: " +:+ NumberToString code).

End ReedSolomonErasure.

(** ** The coding engine, as far as the spec describes it *)

Module SpecEngine.
Import Wasm.

(** A shard buffer of [shardsLength] bytes splits into [dataShards +
    parityShards] shards of equal, integral size. *)
Definition well_shaped (shardsLength dataShards parityShards : Z) : bool :=
  (0 <=? dataShards) && (0 <=? parityShards) && (0 <? dataShards + parityShards)
  && (shardsLength mod (dataShards + parityShards) =? 0).

Section Encode.
Context {St : Type}.

(** The erasure code proper: from the bytes of the data shards, the shard
    size and the two counts to a fatal fault ([None]) or a result code and
    the parity bytes. *)
Variable codec : list byte → Z → Z → Z → option (Z * list byte).

(** What the engine answers to a buffer that is not well shaped: a fatal
    fault or a failure code. *)
Variable reject : Z → Z → Z → option positive.

(** Modelled from the spec: the engine's [encode] export, whose code (the
    compiled coding engine) is not among the sources.  The spec gives it as
    a pure function of the data-shard region and the two counts, which
    rejects a buffer whose length is not evenly divisible by
    [dataShards + parityShards], returns a failure code without an effect the
    adapter reads, and on [OK] has written the parity shards into
    [pointer + shardSize·dataShards, pointer + length). *)
Definition encode (shardsPointer shardsLength dataShards parityShards : Z)
    (i : Instance St) : option (Z * Instance St) :=
  if well_shaped shardsLength dataShards parityShards then
    let shardSize := shardsLength / (dataShards + parityShards) in
    match codec (region i shardsPointer (shardSize * dataShards))
            shardSize dataShards parityShards with
    | None => None
    | Some (result, parity) =>
        if decide (result = 0) then
          Some (0, store i
                     (list_inserts
                        (Z.to_nat (shardsPointer + shardSize * dataShards))
                        (resize (Z.to_nat (shardSize * parityShards)) x00 parity)
                        (buffer_bytes (memory i))))
        else Some (result, i)
    end
  else (λ c, (Z.pos c, i)) <$> reject shardsLength dataShards parityShards.

End Encode.
End SpecEngine.

(** ** A test double of the engine

    An allocator that places a region after the live ones, over a memory
    that grows on demand (each growth makes a new buffer object), and a
    single-parity code: every parity shard is the exclusive or of the data
    shards, so one lost data shard can be rebuilt. *)

Module TestDouble.
Import Wasm.

Definition xor_byte (a b : byte) : byte :=
  default x00 (Byte.of_N (N.lxor (Byte.to_N a) (Byte.to_N b))).

Fixpoint chunks (size count : nat) (l : list byte) : list (list byte) :=
  match count with
  | O => []
  | S count' => take size l :: chunks size count' (drop size l)
  end.

Definition xor_all (size : nat) (rows : list (list byte)) : list byte :=
  foldr (zip_with xor_byte) (replicate size x00) rows.

Definition codec (data : list byte) (shardSize dataShards parityShards : Z)
  : option (Z * list byte) :=
  let row := xor_all (Z.to_nat shardSize)
               (chunks (Z.to_nat shardSize) (Z.to_nat dataShards) data) in
  Some (0, mjoin (replicate (Z.to_nat parityShards) row)).

Definition reject (shardsLength dataShards parityShards : Z) : option positive :=
  if 256 <? dataShards + parityShards then None
  else if dataShards <? 1 then Some 3%positive
  else if parityShards <? 1 then Some 5%positive
  else Some 9%positive.

(** The internal state is the allocator's table of live regions, each a
    pointer and a length. *)
Definition Live : Type := list (Z * Z).

Definition break (live : Live) : Z :=
  foldr (λ r top, Z.max (r.1 + r.2) top) 0 live.

Definition grow (i : Instance Live) (size : Z) : Instance Live :=
  let bytes := buffer_bytes (memory i) in
  if size <=? Z.of_nat (length bytes) then i
  else {| memory := {| buffer_id := S (buffer_id (memory i));
                       buffer_bytes := resize (Z.to_nat size) x00 bytes |};
          internal := internal i |}.

Definition malloc (length : Z) (i : Instance Live)
  : option (Z * Instance Live) :=
  if length <? 0 then None
  else
    let pointer := break (internal i) in
    Some (pointer, {| memory := memory (grow i (pointer + length));
                      internal := (pointer, length) :: internal i |}).

(** Giving back a region that is not live is a fault. *)
Definition free (pointer length : Z) (i : Instance Live)
  : option (Instance Live) :=
  (λ found, {| memory := memory i; internal := delete found.1 (internal i) |})
    <$> list_find (λ r, r = (pointer, length)) (internal i).

Definition encode := SpecEngine.encode (St := Live) codec reject.

Definition lost (flags : list byte) : list nat :=
  omap (λ '(j, f), if decide (f = x00) then Some j else None)
       (imap pair flags).

Definition reconstruct (shardsPointer shardsLength dataShards parityShards
    shardsAvailablePointer shardsAvailableLength : Z) (i : Instance Live)
  : option (Z * Instance Live) :=
  if negb (SpecEngine.well_shaped shardsLength dataShards parityShards
           && (1 <=? dataShards) && (1 <=? parityShards)
           && (dataShards + parityShards <=? 256))
  then (λ c, (Z.pos c, i)) <$> reject shardsLength dataShards parityShards
  else if negb (shardsAvailableLength =? dataShards + parityShards)
  then Some (12, i)
  else
    let size := Z.to_nat (shardsLength / (dataShards + parityShards)) in
    let d := Z.to_nat dataShards in
    let gone := lost (region i shardsAvailablePointer shardsAvailableLength) in
    match filter (λ j, (j < d)%nat) gone, filter (λ j, (d ≤ j)%nat) gone with
    | [], _ => Some (0, i)
    | [j], lostParity =>
        if decide (length lostParity < Z.to_nat parityShards)%nat then
          let all := chunks size (S d) (region i shardsPointer shardsLength) in
          let q := list_find (λ q, (d ≤ q)%nat ∧ q ∉ gone)
                     (seq 0 (Z.to_nat (dataShards + parityShards))) in
          let parity := region i (shardsPointer + Z.of_nat (size * default d (snd <$> q)))
                               (Z.of_nat size) in
          let others := delete j (take d all) in
          Some (0, store i
                     (list_inserts (Z.to_nat shardsPointer + size * j)
                        (xor_all size (parity :: others))
                        (buffer_bytes (memory i))))
        else Some (10, i)
    | _, _ => Some (10, i)
    end.

Definition exports : IWasm Live :=
  {| Wasm.encode := encode;
     Wasm.reconstruct := reconstruct;
     __wbindgen_malloc := malloc;
     __wbindgen_free := free |}.

(** An engine whose allocator never grows its memory: a request larger than
    what is left gets an offset whose region ends past the memory. *)
Definition malloc_fixed (length : Z) (i : Instance Live)
  : option (Z * Instance Live) :=
  let pointer := break (internal i) in
  Some (pointer, {| memory := memory i;
                    internal := (pointer, length) :: internal i |}).

Definition exports_fixed : IWasm Live :=
  {| Wasm.encode := encode;
     Wasm.reconstruct := reconstruct;
     __wbindgen_malloc := malloc_fixed;
     __wbindgen_free := free |}.

(** The exports as WebAssembly has them: every argument is an i32, and a
    Number is taken modulo 2^32 on its way in. *)
Definition int32 (z : Z) : Z := (z + 2 ^ 31) mod 2 ^ 32 - 2 ^ 31.

Definition exports_i32 : IWasm Live :=
  {| Wasm.encode pointer length dataShards parityShards :=
       encode (int32 pointer) (int32 length)
         (int32 dataShards) (int32 parityShards);
     Wasm.reconstruct pointer length dataShards parityShards
         available availableLength :=
       reconstruct (int32 pointer) (int32 length)
         (int32 dataShards) (int32 parityShards)
         (int32 available) (int32 availableLength);
     __wbindgen_malloc length := malloc (int32 length);
     __wbindgen_free pointer length := free (int32 pointer) (int32 length) |}.

(** An engine that answers [OK] to every buffer and writes nothing. *)
Definition exports_idle : IWasm Live :=
  {| Wasm.encode _ _ _ _ i := Some (0, i);
     Wasm.reconstruct _ _ _ _ _ _ i := Some (0, i);
     __wbindgen_malloc := malloc;
     __wbindgen_free := free |}.

(** A fresh instance with [size] zero bytes of memory. *)
Definition instantiate (size : nat) : Instance Live :=
  {| memory := {| buffer_id := 0; buffer_bytes := replicate size x00 |};
     internal := [] |}.

Definition start (i : Instance Live) (shards : list byte)
    (shardsAvailable : list bool) : ReedSolomonErasure.State Live :=
  {| ReedSolomonErasure.instance := i;
     ReedSolomonErasure.memoryCache := None;
     ReedSolomonErasure.views := 0;
     ReedSolomonErasure.calls := [];
     ReedSolomonErasure.shards := shards;
     ReedSolomonErasure.shardsAvailable := shardsAvailable |}.

End TestDouble.

(** ** The synchronous factory *)

Module Factory.
Import JS.

Section Host.
(** [instance.exports] of an instantiated module *)
Variable Exports : Type.

(** What the module sees of its host when it is loaded. *)
Record Host : Type := {
  window_defined : bool;          (* typeof window !== 'undefined' *)
  self_defined : bool;            (* typeof self !== 'undefined' *)
  __dirname : string;
  (* fs.readFileSync(path); None: the read throws *)
  readFileSync : string → option (list byte);
  (* new WebAssembly.Instance(new WebAssembly.Module(bytes)).exports;
     None: the binary is rejected *)
  instantiate : list byte → option Exports;
}.

(** An object of class [ReedSolomonErasure]. *)
Record Handle : Type := {
  handle_id : nat;
  exports : Exports;
  memoryCache : option ReedSolomonErasure.Uint8Array;
}.

(** The handles constructed so far and the files read so far. *)
Record Realm : Type := {
  constructed : list Handle;
  reads : list string;
}.

Variable host : Host.

(** [const isBrowser = typeof window !== 'undefined' ||
    typeof self !== 'undefined'] *)
Definition isBrowser : bool := window_defined host || self_defined host.

(** [function loadWasmBytesSyncNode(wasmPath: string): Uint8Array] *)
Definition loadWasmBytesSyncNode (wasmPath : string)
  : Op Realm (list byte) := λ r,
  let r' := {| constructed := constructed r; reads := reads r ++ [wasmPath] |} in
  match readFileSync host wasmPath with
  | Some bytes => Normal bytes r'
  | None => Throw (SystemError wasmPath) r'
  end.

(** [public static fromBytes(bytes): ReedSolomonErasure] *)
Definition fromBytes (bytes : list byte) : Op Realm Handle := λ r,
  match instantiate host bytes with
  | Some e =>
      let h := {| handle_id := length (constructed r); exports := e;
                  memoryCache := None |} in
      Normal h {| constructed := constructed r ++ [h]; reads := reads r |}
  | None => Throw CompileError r
  end.

(** [public static fromCurrentDirectorySync(): ReedSolomonErasure] *)
Definition fromCurrentDirectorySync : Op Realm Handle :=
  if isBrowser then
    throw (Error ("fromCurrentDirectorySync() is not available in browser. "
                  +:+ "Use fromCurrentDirectory() or fromResponse() instead."))
  else
    wasmBytes ← loadWasmBytesSyncNode
                  (__dirname host +:+ "/reed_solomon_erasure_bg.wasm");
    fromBytes wasmBytes.

End Host.

Arguments window_defined {Exports} _.
Arguments self_defined {Exports} _.
Arguments __dirname {Exports} _.
Arguments readFileSync {Exports} _ _.
Arguments instantiate {Exports} _ _.
Arguments handle_id {Exports} _.
Arguments exports {Exports} _.
Arguments memoryCache {Exports} _.
Arguments constructed {Exports} _.
Arguments reads {Exports} _.
Arguments isBrowser {Exports} _.
Arguments loadWasmBytesSyncNode {Exports} _ _.
Arguments fromBytes {Exports} _ _.
Arguments fromCurrentDirectorySync {Exports} _.

End Factory.

(** ** The singleton *)

Module Singleton.
Import JS.

(** Handles and the promises of instantiations are told apart by identity. *)
Abbreviation Handle := nat.
Abbreviation Promise := nat.

Inductive Settlement : Type :=
  | Pending
  | Fulfilled (value : Handle)
  | Rejected (reason : exception).

(** The loader an instantiation was started with. *)
Inductive Source : Type :=
  | fromResponse_fetch (wasmUrl : string)
  | loadWasmBytesNode_fromBytes (wasmUrl : string)
  | fromCurrentDirectory.

(** The module variables [cachedInstance] and [loadingPromise], the
    instantiations started so far (a promise is its position here) and the
    activations of [getInstance] suspended at [await loadingPromise], each
    with the promise it waits for. *)
Record Realm : Type := {
  cachedInstance : option Handle;
  loadingPromise : option Promise;
  instantiations : list (Source * Settlement);
  suspended : list Promise;
}.

Definition empty : Realm :=
  {| cachedInstance := None; loadingPromise := None;
     instantiations := []; suspended := [] |}.

(** How the promise that a call of [getInstance] returns gets its result. *)
Inductive Result : Type :=
  | resolved (instance : Handle)     (* return cachedInstance *)
  | follows (promise : Promise)      (* return loadingPromise *)
  | awaits (promise : Promise).      (* suspended at the await *)

(** A string argument is truthy unless absent or empty. *)
Definition truthy (wasmUrl : option string) : option string :=
  match wasmUrl with
  | Some url => if decide (url = EmptyString) then None else Some url
  | None => None
  end.

Definition source (isBrowser : bool) (wasmUrl : option string) : Source :=
  match truthy wasmUrl with
  | Some url => if isBrowser then fromResponse_fetch url
                else loadWasmBytesNode_fromBytes url
  | None => fromCurrentDirectory
  end.

(** [public static async getInstance(wasmUrl?: string)], up to its first
    return or suspension. *)
Definition getInstance (isBrowser : bool) (wasmUrl : option string)
    (r : Realm) : Result * Realm :=
  match cachedInstance r with
  | Some instance => (resolved instance, r)
  | None =>
      match loadingPromise r with
      | Some promise => (follows promise, r)
      | None =>
          let promise := length (instantiations r) in
          (awaits promise,
           {| cachedInstance := None;
              loadingPromise := Some promise;
              instantiations :=
                instantiations r ++ [(source isBrowser wasmUrl, Pending)];
              suspended := suspended r ++ [promise] |})
      end
  end.

(** The rest of an activation, once the awaited promise settled:
    [cachedInstance = await loadingPromise; loadingPromise = null;
     return cachedInstance] when it fulfilled; the await throws when it
    rejected, and the two assignments are not reached. *)
Definition resume (outcome : Settlement) (r : Realm) : Realm :=
  match outcome with
  | Fulfilled value =>
      {| cachedInstance := Some value; loadingPromise := None;
         instantiations := instantiations r; suspended := suspended r |}
  | _ => r
  end.

(** The instantiation behind [promise] settles, and the activations waiting
    for it run to their end. *)
Definition settle (promise : Promise) (outcome : Settlement) (r : Realm)
  : Realm :=
  let waiting := filter (λ p, p = promise) (suspended r) in
  foldr (λ _, resume outcome)
    {| cachedInstance := cachedInstance r;
       loadingPromise := loadingPromise r;
       instantiations :=
         alter (λ s, (s.1, outcome)) promise (instantiations r);
       suspended := filter (λ p, p ≠ promise) (suspended r) |}
    waiting.

(** [public static clearInstance(): void] *)
Definition clearInstance (r : Realm) : Realm :=
  {| cachedInstance := None; loadingPromise := None;
     instantiations := instantiations r; suspended := suspended r |}.

(** The instantiations that have not settled. *)
Definition in_flight (r : Realm) : list Promise :=
  omap (λ '(p, s), match s.2 with Pending => Some p | _ => None end)
       (imap pair (instantiations r)).

(** The instantiation behind [promise] has not settled. *)
Definition pending (r : Realm) (promise : Promise) : Prop :=
  ∃ s, instantiations r !! promise = Some (s, Pending).

(** What happens to the module, one event at a time: a call of
    [getInstance], or the settling of an instantiation that was pending. *)
Inductive Event : Type :=
  | called (wasmUrl : option string)
  | settled (promise : Promise) (outcome : Settlement).

Definition step (isBrowser : bool) (r : Realm) (ev : Event) : Realm :=
  match ev with
  | called wasmUrl => (getInstance isBrowser wasmUrl r).2
  | settled promise outcome =>
      match outcome, instantiations r !! promise with
      | Pending, _ => r
      | _, Some (_, Pending) => settle promise outcome r
      | _, _ => r
      end
  end.

Definition run (isBrowser : bool) (events : list Event) : Realm :=
  foldl (step isBrowser) empty events.

(** Between events: an instantiation that has not settled is the one
    [loadingPromise] holds, nothing is cached yet, and the one activation
    that started it is the only one suspended. *)
Record consistent (r : Realm) : Prop := {
  consistent_pending :
    ∀ p, pending r p →
         loadingPromise r = Some p ∧ cachedInstance r = None
         ∧ suspended r = [p];
  consistent_idle : (∀ p, ¬ pending r p) → suspended r = [];
}.

(** What the caller that got [res] finally sees. *)
Definition outcome_of (r : Realm) (res : Result) : Settlement :=
  match res with
  | resolved instance => Fulfilled instance
  | follows promise | awaits promise =>
      default Pending (snd <$> instantiations r !! promise)
  end.

End Singleton.

(** ** Sample inputs *)

Module Sample.
Import Wasm.

(** Two data shards and one parity shard of four bytes each; the parity
    shard holds leftovers. *)
Definition buffer : list byte :=
  [x01; x02; x03; x04; x10; x20; x30; x40; xff; xff; xee; xee].

(** The same data shards with other leftovers in the parity shard. *)
Definition buffer' : list byte :=
  [x01; x02; x03; x04; x10; x20; x30; x40; x00; x07; x00; x07].

(** The buffer once encoded, with its first shard lost. *)
Definition damaged : list byte :=
  [x00; x00; x00; x00; x10; x20; x30; x40; x11; x22; x33; x44].

(** A handle on a new instance of the test double with four bytes of
    memory, about to work on [shards] and [shardsAvailable]. *)
Definition state (shards : list byte) (shardsAvailable : list bool)
  : ReedSolomonErasure.State TestDouble.Live :=
  TestDouble.start (TestDouble.instantiate 4) shards shardsAvailable.

(** A binary that starts with the magic number and version 1. *)
Definition binary : list byte :=
  [x00; x61; x73; x6d; x01; x00; x00; x00].

Definition installed : string :=
  "/srv/app/node_modules/pkg/dist/reed_solomon_erasure_bg.wasm".

(** A Node.js host with the package installed under /srv/app; every valid
    binary instantiates to the test double. *)
Definition node : Factory.Host (IWasm TestDouble.Live) :=
  {| Factory.window_defined := false;
     Factory.self_defined := false;
     Factory.__dirname := "/srv/app/node_modules/pkg/dist";
     Factory.readFileSync path :=
       if decide (path = installed) then Some binary else None;
     Factory.instantiate bytes :=
       if decide (take 8 bytes = binary) then Some TestDouble.exports
       else None |}.

(** A browser worker: no [window], but [self]. *)
Definition worker : Factory.Host (IWasm TestDouble.Live) :=
  {| Factory.window_defined := false;
     Factory.self_defined := true;
     Factory.__dirname := EmptyString;
     Factory.readFileSync _ := None;
     Factory.instantiate bytes :=
       if decide (take 8 bytes = binary) then Some TestDouble.exports
       else None |}.

Definition realm : Factory.Realm (IWasm TestDouble.Live) :=
  {| Factory.constructed := []; Factory.reads := [] |}.

(** 164 bytes, each holding its index: not a whole number of shards for
    15 + 5 of them. *)
Definition long : list byte := (λ i, JS.ToUint8 (Z.of_nat i)) <$> seq 0 164.

(** An instance of the test double with the first 16 bytes of its memory
    in use. *)
Definition busy : Instance TestDouble.Live :=
  {| memory := {| buffer_id := 0; buffer_bytes := replicate 16 x00 |};
     internal := [(0, 16)] |}.

End Sample.

(** ** Vocabulary of the properties *)

(** The bytes copied in for [shardsAvailable]. *)
Definition flags (shardsAvailable : list bool) : list byte :=
  JS.ToUint8 <$> ((λ value : bool, if value then 1 else 0) <$> shardsAvailable).

(** The number that a string of decimal digits denotes. *)
Fixpoint digits_value (value : N) (s : string) : option N :=
  match s with
  | EmptyString => Some value
  | String c rest =>
      d ← Ascii.is_nat c; digits_value (10 * value + N.of_nat d) rest
  end.

(** The integer that a decimal numeral denotes: digits, after [-] for a
    negative one. *)
Definition decimal (s : string) : option Z :=
  match s with
  | EmptyString => None
  | String c rest =>
      if decide (c = "-"%char) then
        if decide (rest = EmptyString) then None
        else (λ n, - Z.of_N n) <$> digits_value 0 rest
      else Z.of_N <$> digits_value 0 s
  end.

(** The copy-out of [encode], on the caller's bytes and the engine memory. *)
Definition encode_copy_out (bytes memory : list byte)
    (shardsPointer dataShards parityShards : Z)
  : JS.exception + list byte :=
  let shardsLength := Z.of_nat (length bytes) in
  let shardSize :=
    JS.div (JS.of_Z shardsLength)
      (JS.add (JS.of_Z dataShards) (JS.of_Z parityShards)) in
  JS.set bytes
    (JS.subarray memory
       (JS.add (JS.of_Z shardsPointer) (JS.mul shardSize (JS.of_Z dataShards)))
       (JS.add (JS.of_Z shardsPointer) (JS.of_Z shardsLength)))
    (JS.mul shardSize (JS.of_Z dataShards)).

(** The copy-out of [reconstruct]. *)
Definition reconstruct_copy_out (bytes memory : list byte)
    (shardsPointer dataShards parityShards : Z)
  : JS.exception + list byte :=
  let shardsLength := Z.of_nat (length bytes) in
  let shardSize :=
    JS.div (JS.of_Z shardsLength)
      (JS.add (JS.of_Z dataShards) (JS.of_Z parityShards)) in
  JS.set bytes
    (JS.subarray memory (JS.of_Z shardsPointer)
       (JS.add (JS.of_Z shardsPointer) (JS.mul shardSize (JS.of_Z dataShards))))
    JS.undefined.

Section Vocabulary.
Import Wasm ReedSolomonErasure.
Context {St : Type}.
Implicit Types w : State St.

(** The instance once [source] has been copied into its memory at
    [pointer]. *)
Definition copied_in (i : Instance St) (pointer : Z) (source : list byte)
  : Instance St :=
  store i (list_inserts (Z.to_nat pointer) source (buffer_bytes (memory i))).

(** The region of [length] bytes at [pointer] lies in the memory. *)
Definition in_memory (i : Instance St) (pointer length : Z) : Prop :=
  0 ≤ pointer
  ∧ pointer + length ≤ Z.of_nat (List.length (buffer_bytes (memory i))).

(** How a call that ran on the engine is recorded. *)
Definition engine_outcome (o : option (Z * Instance St)) : Outcome :=
  match o with
  | Some (value, _) => Returned value
  | None => Trapped
  end.

(** [c] leaves the component [f] of the state alone, however it ends. *)
Definition preserves {A X} (f : State St → X) (c : Op (State St) A) : Prop :=
  ∀ w, f (final (c w)) = f w.

(** [c] only adds to the recorded calls, however it ends. *)
Definition extends {A} (c : Op (State St) A) : Prop :=
  ∀ w, ∃ rest, calls (final (c w)) = calls w ++ rest.

(** The state after a call of [getUint8Memory], sealed: the proofs use it
    through its equations only. *)
Definition refresh_def w : State St := final (getUint8Memory w).
Definition refresh_aux : seal (@refresh_def). Proof. by eexists. Qed.
Definition refresh : State St → State St := refresh_aux.(unseal).
Definition refresh_eq : @refresh = @refresh_def := refresh_aux.(seal_eq).

Variable exports : IWasm St.

(** What a call of [encode] that returns [result] in [w'] went through:
    the region at [pointer] was obtained in [i1], and the engine left [i2]. *)
Record encode_trace w (dataShards parityShards result : Z) w'
    (pointer : Z) (i1 i2 : Instance St) : Prop := {
  encode_malloc :
    __wbindgen_malloc exports (Z.of_nat (length (shards w))) (instance w)
    = Some (pointer, i1);
  encode_copy_in : in_memory i1 pointer (Z.of_nat (length (shards w)));
  encode_engine :
    Wasm.encode exports pointer (Z.of_nat (length (shards w)))
      dataShards parityShards (copied_in i1 pointer (shards w))
    = Some (result, i2);
  encode_out :
    if decide (result = RESULT_OK)
    then encode_copy_out (shards w) (buffer_bytes (memory i2))
           pointer dataShards parityShards = inr (shards w')
    else shards w' = shards w;
  encode_free :
    __wbindgen_free exports pointer (Z.of_nat (length (shards w))) i2
    = Some (instance w');
  encode_calls :
    calls w' = calls w ++
      [ (malloc_call (Z.of_nat (length (shards w))), Returned pointer);
        (encode_call pointer (Z.of_nat (length (shards w)))
           dataShards parityShards, Returned result);
        (free_call pointer (Z.of_nat (length (shards w))), ReturnedVoid) ];
  encode_shardsAvailable : shardsAvailable w' = shardsAvailable w;
}.

(** What a call of [reconstruct] that returns [result] in [w'] went through:
    the two regions were obtained in [i1] and [i2], the engine left [i3]. *)
Record reconstruct_trace w (dataShards parityShards result : Z) w'
    (pointer : Z) (i1 : Instance St) (available : Z) (i2 i3 : Instance St)
  : Prop := {
  reconstruct_malloc :
    __wbindgen_malloc exports (Z.of_nat (length (shards w))) (instance w)
    = Some (pointer, i1);
  reconstruct_copy_in : in_memory i1 pointer (Z.of_nat (length (shards w)));
  reconstruct_malloc_available :
    __wbindgen_malloc exports (Z.of_nat (length (shardsAvailable w)))
      (copied_in i1 pointer (shards w))
    = Some (available, i2);
  reconstruct_copy_in_available :
    in_memory i2 available (Z.of_nat (length (shardsAvailable w)));
  reconstruct_engine :
    Wasm.reconstruct exports pointer (Z.of_nat (length (shards w)))
      dataShards parityShards
      available (Z.of_nat (length (shardsAvailable w)))
      (copied_in i2 available (flags (shardsAvailable w)))
    = Some (result, i3);
  reconstruct_out :
    if decide (result = RESULT_OK)
    then reconstruct_copy_out (shards w) (buffer_bytes (memory i3))
           pointer dataShards parityShards = inr (shards w')
    else shards w' = shards w;
  reconstruct_free :
    ∃ i4,
      __wbindgen_free exports pointer (Z.of_nat (length (shards w))) i3
      = Some i4 ∧
      __wbindgen_free exports available
        (Z.of_nat (length (shardsAvailable w))) i4
      = Some (instance w');
  reconstruct_calls :
    calls w' = calls w ++
      [ (malloc_call (Z.of_nat (length (shards w))), Returned pointer);
        (malloc_call (Z.of_nat (length (shardsAvailable w))),
         Returned available);
        (reconstruct_call pointer (Z.of_nat (length (shards w)))
           dataShards parityShards
           available (Z.of_nat (length (shardsAvailable w))),
         Returned result);
        (free_call pointer (Z.of_nat (length (shards w))), ReturnedVoid);
        (free_call available (Z.of_nat (length (shardsAvailable w))),
         ReturnedVoid) ];
  reconstruct_shardsAvailable : shardsAvailable w' = shardsAvailable w;
}.

End Vocabulary.

(** ** Strings and arrays of strings

    Strings are sequences of characters below U+0100; [/] and the characters
    of base64 are among them. *)

Module Text.

(** String.prototype.split ( separator ), for a separator of one character *)
Fixpoint split (separator : ascii) (s : string) : list string :=
  match s with
  | EmptyString => [EmptyString]
  | String c rest =>
      if decide (c = separator) then EmptyString :: split separator rest
      else match split separator rest with
           | first :: others => String c first :: others
           | [] => [String c EmptyString]
           end
  end.

(** Array.prototype.slice ( 0, -1 ) *)
Definition slice_0_m1 {A} (l : list A) : list A := take (length l - 1)%nat l.

(** Array.prototype.join ( separator ) *)
Fixpoint join (separator : string) (l : list string) : string :=
  match l with
  | [] => EmptyString
  | [s] => s
  | s :: rest => s +:+ separator +:+ join separator rest
  end.

End Text.

(** ** Base64, as [atob] reads it *)

Module Base64.

Definition alphabet : list ascii :=
  String.list_ascii_of_string
    "ABCDEFGHIJKLMNOPQRSTUVWXYZabcdefghijklmnopqrstuvwxyz0123456789+/".

(** ASCII whitespace: TAB, LF, FF, CR and SPACE *)
Definition whitespace (c : ascii) : bool :=
  bool_decide (c ∈ [ascii_of_nat 9; ascii_of_nat 10; ascii_of_nat 12;
                    ascii_of_nat 13; ascii_of_nat 32]).

(** The six bits a character of the alphabet stands for. *)
Definition value (c : ascii) : option Z :=
  (λ found, Z.of_nat found.1) <$> list_find (λ a, a = c) alphabet.

(** One or two [=] at the end are removed. *)
Definition strip_padding (data : list ascii) : list ascii :=
  match reverse data with
  | "="%char :: "="%char :: rest => reverse rest
  | "="%char :: rest => reverse rest
  | _ => data
  end.

(** The bytes that the characters stand for, six bits each: three bytes for
    every four characters, and two bytes or one for three or two characters
    left at the end, whose last two or four bits are discarded. *)
Fixpoint bytes_of (sextets : list Z) : list Z :=
  match sextets with
  | a :: b :: c :: d :: rest =>
      let n := a * 262144 + b * 4096 + c * 64 + d in
      n / 65536 :: n / 256 mod 256 :: n mod 256 :: bytes_of rest
  | [a; b; c] =>
      let n := (a * 4096 + b * 64 + c) / 4 in [n / 256; n mod 256]
  | [a; b] => [(a * 64 + b) / 16]
  | _ => []
  end.

(** forgiving-base64 decode: ASCII whitespace is removed; if the length is
    then a multiple of four, so is the padding; a length that leaves a
    remainder of one, or a character outside the alphabet, is a failure. *)
Definition forgiving_decode (data : string) : option (list Z) :=
  let data := filter (λ c, ¬ whitespace c) (String.list_ascii_of_string data) in
  let data := if decide (length data mod 4 = 0)%nat then strip_padding data
              else data in
  if decide (length data mod 4 = 1)%nat then None
  else bytes_of <$> mapM value data.

(** [atob(data)]: the string whose code units are the decoded bytes, given
    as the list of its code units; an "InvalidCharacterError" DOMException
    on failure. *)
Definition atob (data : string) : JS.exception + list Z :=
  match forgiving_decode data with
  | Some binaryString => inr binaryString
  | None => inl (JS.Error "InvalidCharacterError")
  end.

End Base64.

(** ** The factories that load the binary *)

Module Loaders.
Import JS.

Section Platform.
Variable Exports : Type.

(** A [Response]: what reading its body to the end gives ([None]: the read
    fails), and what else a streaming compilation looks at. *)
Record Response : Type := {
  status : Z;
  contentType : string;
  body : option (list byte);
}.

(** What the module sees of its platform beyond the [Host] of the
    synchronous factory. *)
Record Platform : Type := {
  host : Factory.Host Exports;
  (* [src] of document.currentScript when the module is loaded, if there
     is such an element *)
  currentScript : option string;
  (* what the promise of fetch(url) settles to *)
  fetch : string → exception + Response;
  (* WebAssembly.instantiateStreaming where it is a function: on a response
     not yet read, the exports of the instance or a rejection *)
  instantiateStreaming : option (Response → exception + Exports);
}.

(** The realm of the factory, the URLs fetched so far, and whether the body
    of the response at hand has been read. *)
Record World : Type := {
  realm : Factory.Realm Exports;
  fetched : list string;
  bodyUsed : bool;
}.

Definition set_realm (r : Factory.Realm Exports) (w : World) : World :=
  {| realm := r; fetched := fetched w; bodyUsed := bodyUsed w |}.

Definition set_bodyUsed (b : bool) (w : World) : World :=
  {| realm := realm w; fetched := fetched w; bodyUsed := b |}.

(** A synchronous function of the factory, called from an asynchronous one. *)
Definition lift {A} (c : Op (Factory.Realm Exports) A) : Op World A := λ w,
  match c (realm w) with
  | Normal a r => Normal a (set_realm r w)
  | Throw e r => Throw e (set_realm r w)
  end.

(** [await promise], for what the promise settles to.  Between its awaits an
    asynchronous factory touches nothing that another activation could
    change, so it is given as what its own promise settles to. *)
Definition await {W A} (settlement : exception + A) : Op W A :=
  match settlement with
  | inl reason => throw reason
  | inr value => mret value
  end.

(** [try { body } catch { handler }] *)
Definition try_catch {W A} (body handler : Op W A) : Op W A := λ w,
  match body w with
  | Throw _ w' => handler w'
  | completion => completion
  end.

Variable platform : Platform.

(** [fetch(url)]: a promise of a response of its own, not yet read *)
Definition fetch_ (url : string) : Op World (exception + Response) := λ w,
  Normal (fetch platform url)
    {| realm := realm w; fetched := fetched w ++ [url]; bodyUsed := false |}.

(** [response.clone()]: a TypeError once the body has been read; the copy
    has a body of its own. *)
Definition clone (response : Response) : Op World Response := λ w,
  if bodyUsed w then Throw TypeError w else Normal response w.

(** [await response.arrayBuffer()] *)
Definition arrayBuffer (response : Response) : Op World (list byte) := λ w,
  if bodyUsed w then Throw TypeError w
  else match body response with
       | Some bytes => Normal bytes (set_bodyUsed true w)
       | None => Throw TypeError (set_bodyUsed true w)
       end.

(** [new ReedSolomonErasure(exports)] *)
Definition construct (e : Exports) : Op World (Factory.Handle Exports) := λ w,
  let r := realm w in
  let h := {| Factory.handle_id := length (Factory.constructed r);
              Factory.exports := e;
              Factory.memoryCache := None |} in
  Normal h (set_realm {| Factory.constructed := Factory.constructed r ++ [h];
                         Factory.reads := Factory.reads r |} w).

(** [async function loadWasmBytesNode(wasmPath: string)]: [await
    import('fs')] gives the module that [require('fs')] gives. *)
Definition loadWasmBytesNode (wasmPath : string) : Op World (list byte) := λ w,
  let r := realm w in
  let w' := set_realm {| Factory.constructed := Factory.constructed r;
                         Factory.reads := Factory.reads r ++ [wasmPath] |} w in
  match Factory.readFileSync (host platform) wasmPath with
  | Some bytes => Normal bytes w'
  | None => Throw (SystemError wasmPath) w'
  end.

(** [public static async fromResponse(source: Response | Promise<Response>)] *)
Definition fromResponse (source : exception + Response)
  : Op World (Factory.Handle Exports) :=
  response ← await source;
  streamed ← match instantiateStreaming platform with
              | Some streaming =>
                  try_catch
                    (copy ← clone response;
                     exports ← await (streaming copy);
                     handle ← construct exports;
                     mret (Some handle))
                    (mret None)
              | None => mret None
              end;
  match streamed with
  | Some handle => mret handle
  | None =>
      bytes ← arrayBuffer response;
      lift (Factory.fromBytes (host platform) bytes)
  end.

(** [public static async fromUrl(url: string)] of the browser build *)
Definition fromUrl (url : string) : Op World (Factory.Handle Exports) :=
  source ← fetch_ url;
  fromResponse source.

(** [public static async fromCurrentDirectory()] *)
Definition fromCurrentDirectory : Op World (Factory.Handle Exports) :=
  if Factory.isBrowser (host platform) then
    match currentScript platform with
    | Some src =>
        let pathToCurrentScript :=
          Text.join "/" (Text.slice_0_m1 (Text.split "/" src)) in
        source ← fetch_ (pathToCurrentScript +:+ "/reed_solomon_erasure_bg.wasm");
        fromResponse source
    | None =>
        source ← fetch_ "./reed_solomon_erasure_bg.wasm";
        fromResponse source
    end
  else
    wasmBytes ← loadWasmBytesNode
                  (Factory.__dirname (host platform)
                   +:+ "/reed_solomon_erasure_bg.wasm");
    lift (Factory.fromBytes (host platform) wasmBytes).

(** The instantiation that [getInstance] starts. *)
Definition load (source : Singleton.Source)
  : Op World (Factory.Handle Exports) :=
  match source with
  | Singleton.fromResponse_fetch wasmUrl =>
      source ← fetch_ wasmUrl;
      fromResponse source
  | Singleton.loadWasmBytesNode_fromBytes wasmUrl =>
      bytes ← loadWasmBytesNode wasmUrl;
      lift (Factory.fromBytes (host platform) bytes)
  | Singleton.fromCurrentDirectory => fromCurrentDirectory
  end.

(** The instantiation that [getInstance] of the browser build starts:
    [ReedSolomonErasure.fromUrl(wasmUrl || './reed_solomon_erasure_bg.wasm')] *)
Definition load_browser_build (wasmUrl : option string)
  : Op World (Factory.Handle Exports) :=
  fromUrl (ReedSolomonErasure.or_else wasmUrl "./reed_solomon_erasure_bg.wasm").

End Platform.

Arguments host {Exports} _.
Arguments currentScript {Exports} _.
Arguments fetch {Exports} _ _.
Arguments instantiateStreaming {Exports} _.
Arguments realm {Exports} _.
Arguments fetched {Exports} _.
Arguments bodyUsed {Exports} _.
Arguments set_realm {Exports} _ _.
Arguments set_bodyUsed {Exports} _ _.
Arguments lift {Exports A} _ _.
Arguments fetch_ {Exports} _ _ _.
Arguments clone {Exports} _ _.
Arguments arrayBuffer {Exports} _ _.
Arguments construct {Exports} _ _.
Arguments loadWasmBytesNode {Exports} _ _ _.
Arguments fromResponse {Exports} _ _ _.
Arguments fromUrl {Exports} _ _ _.
Arguments fromCurrentDirectory {Exports} _ _.
Arguments load {Exports} _ _ _.
Arguments load_browser_build {Exports} _ _ _.

(** [public static fromBase64(base64: string)]; [charCodeAt] past the end
    would give NaN, which a typed array stores as 0. *)
Definition fromBase64 {Exports} (host : Factory.Host Exports) (base64 : string)
  : Op (Factory.Realm Exports) (Factory.Handle Exports) :=
  binaryString ← await (Base64.atob base64);
  let bytes :=
    foldl (λ bytes i, <[i := ToUint8 (default 0 (binaryString !! i))]> bytes)
      (replicate (length binaryString) x00)
      (seq 0 (length binaryString)) in
  Factory.fromBytes host bytes.

End Loaders.

(** ** Sample platforms *)

Module SamplePlatform.
Import Wasm Loaders.

Definition wasmUrl : string :=
  "https://cdn.example/pkg/reed_solomon_erasure_bg.wasm".

(** The binary, served with the given MIME type. *)
Definition served (contentType : string) : Response :=
  {| status := 200; contentType := contentType; body := Some Sample.binary |}.

(** A browser window running a script of the package from a CDN that serves
    the binary beside it as an octet stream; streaming compilation insists
    on the WebAssembly MIME type. *)
Definition page : Platform (IWasm TestDouble.Live) :=
  {| host :=
       {| Factory.window_defined := true;
          Factory.self_defined := true;
          Factory.__dirname := EmptyString;
          Factory.readFileSync _ := None;
          Factory.instantiate := Factory.instantiate Sample.worker |};
     currentScript := Some "https://cdn.example/pkg/index.js";
     fetch url :=
       if decide (url = wasmUrl) then inr (served "application/octet-stream")
       else inl JS.TypeError;
     instantiateStreaming :=
       Some (λ response,
         if decide (contentType response = "application/wasm") then
           match body response ≫= Factory.instantiate Sample.worker with
           | Some exports => inr exports
           | None => inl JS.CompileError
           end
         else inl JS.TypeError) |}.

(** Node.js: no document, no [fetch] that reaches anything, no streaming. *)
Definition node : Platform (IWasm TestDouble.Live) :=
  {| host := Sample.node;
     currentScript := None;
     fetch _ := inl JS.TypeError;
     instantiateStreaming := None |}.

Definition world : World (IWasm TestDouble.Live) :=
  {| realm := Sample.realm; fetched := []; bodyUsed := false |}.

End SamplePlatform.

(** ** Vocabulary of the further properties *)

(** The base64 encoding of RFC 4648, with padding: what a bundler embeds for
    a binary. *)
Module Base64Encoding.

Definition digit (sextet : Z) : ascii :=
  default "="%char (Base64.alphabet !! Z.to_nat sextet).

Fixpoint sextets_of (bytes : list Z) : list Z :=
  match bytes with
  | a :: b :: c :: rest =>
      a / 4 :: a mod 4 * 16 + b / 16 :: b mod 16 * 4 + c / 64 :: c mod 64
      :: sextets_of rest
  | [a; b] => [a / 4; a mod 4 * 16 + b / 16; b mod 16 * 4]
  | [a] => [a / 4; a mod 4 * 16]
  | [] => []
  end.

Definition padding (bytes : nat) : list ascii :=
  match (bytes mod 3)%nat with
  | 1%nat => ["="; "="]%char
  | 2%nat => ["="]%char
  | _ => []
  end.

Definition code_unit (b : byte) : Z := Z.of_N (Byte.to_N b).

(** The characters that stand for the bytes, without padding. *)
Definition digits (bytes : list byte) : list ascii :=
  digit <$> sextets_of (code_unit <$> bytes).

Definition encode (bytes : list byte) : string :=
  String.string_of_list_ascii (digits bytes ++ padding (length bytes)).

End Base64Encoding.

Section CacheVocabulary.
Import Wasm ReedSolomonErasure.
Context {St : Type}.

(** [i'] is [i] but for the bytes of the region. *)
Definition written_within (i i' : Instance St) (pointer length : Z) : Prop :=
  internal i' = internal i
  ∧ buffer_id (memory i') = buffer_id (memory i)
  ∧ List.length (buffer_bytes (memory i'))
    = List.length (buffer_bytes (memory i))
  ∧ ∀ j : nat,
      Z.of_nat j < pointer ∨ pointer + length ≤ Z.of_nat j →
      buffer_bytes (memory i') !! j = buffer_bytes (memory i) !! j.

(** The engine never replaces the buffer of its memory: no export grows the
    memory. *)
Record keeps_buffer (exports : IWasm St) : Prop := {
  keeps_buffer_encode :
    ∀ pointer length dataShards parityShards i result i',
      Wasm.encode exports pointer length dataShards parityShards i
      = Some (result, i') →
      buffer_id (memory i') = buffer_id (memory i);
  keeps_buffer_reconstruct :
    ∀ pointer length dataShards parityShards available availableLength
      i result i',
      Wasm.reconstruct exports pointer length dataShards parityShards
        available availableLength i = Some (result, i') →
      buffer_id (memory i') = buffer_id (memory i);
  keeps_buffer_malloc :
    ∀ length i pointer i',
      __wbindgen_malloc exports length i = Some (pointer, i') →
      buffer_id (memory i') = buffer_id (memory i);
  keeps_buffer_free :
    ∀ pointer length i i',
      __wbindgen_free exports pointer length i = Some i' →
      buffer_id (memory i') = buffer_id (memory i);
}.

(** [view] is the cached view, and it is over the current buffer. *)
Definition current (view : Uint8Array) (w : State St) : Prop :=
  memoryCache w = Some view
  ∧ view_buffer view = buffer_id (memory (instance w)).

(** The view that [getUint8Memory] has yet to make: one, unless the cached
    view is current. *)
Definition owed (w : State St) : nat :=
  match memoryCache w with
  | Some view =>
      if decide (view_buffer view = buffer_id (memory (instance w)))
      then 0%nat else 1%nat
  | None => 1%nat
  end.

(** [c] keeps a cached view that is current. *)
Definition reuses {A} (c : Op (State St) A) : Prop :=
  ∀ view w, current view w → current view (final (c w)).

(** [c] makes at most [n] views beside the one that is owed. *)
Definition makes {A} (n : nat) (c : Op (State St) A) : Prop :=
  ∀ w, (views (final (c w)) + owed (final (c w)) ≤ views w + owed w + n)%nat.

End CacheVocabulary.

(** * Properties *)

Import JS Wasm ReedSolomonErasure.

Arguments JS.add : simpl never.
Arguments JS.mul : simpl never.
Arguments JS.div : simpl never.
Arguments JS.of_Z : simpl never.
Arguments JS.set : simpl never.
Arguments JS.subarray : simpl never.
Arguments flags : simpl never.

(** ** Lists as typed arrays *)

Section ListFacts.
Context {A : Type}.
Implicit Types l k : list A.

Lemma list_inserts_splice l k (i : nat) :
  (i + length k ≤ length l)%nat →
  list_inserts i k l = take i l ++ k ++ drop (i + length k) l.
Proof.
  intros Hlen.
  rewrite <- (take_drop i l) at 1.
  assert (Hi : length (take i l) = i) by (rewrite length_take; lia).
  rewrite <- Hi at 1.
  rewrite <- (Nat.add_0_r (length (take i l))), list_inserts_app_r.
  f_equal.
  rewrite <- (take_drop (length k) (drop i l)) at 1.
  rewrite list_inserts_0_r, drop_drop; [done|].
  rewrite length_take, length_drop. lia.
Qed.

Lemma take_drop_inserts l k (i : nat) :
  (i + length k ≤ length l)%nat →
  take (length k) (drop i (list_inserts i k l)) = k.
Proof.
  intros Hlen. rewrite list_inserts_splice by done.
  rewrite drop_app_length'; [|rewrite length_take; lia].
  by rewrite take_app_length.
Qed.

End ListFacts.

(** ** Number arithmetic on integral shard sizes *)

Lemma truncate_integer (q : Q) (n : Z) : (q == inject_Z n)%Q → truncate q = n.
Proof.
  unfold truncate, Qeq. simpl. intros H.
  rewrite Z.mul_1_r in H. rewrite H. apply Z.quot_mul. lia.
Qed.

Lemma ToIntegerOrInfinity_of_Z (z : Z) : ToIntegerOrInfinity (of_Z z) = Int z.
Proof. unfold of_Z. simpl. f_equal. by apply truncate_integer. Qed.

(** An integer is a Number as it is. *)
Lemma binary64_integer (q : Q) (n : Z) :
  (q == inject_Z n)%Q → binary64 q = Finite q.
Proof.
  unfold binary64, integral, Qeq. simpl. intros H.
  rewrite Z.mul_1_r in H. rewrite H, Z.mod_mul by lia. done.
Qed.

Lemma sign_integer (q : Q) (n : Z) : (q == inject_Z n)%Q → sign q = (n ?= 0).
Proof.
  unfold sign, Qeq. simpl. intros H. rewrite Z.mul_1_r in H. rewrite H.
  destruct (Z.compare_spec n 0); [subst; done|..].
  - apply Z.compare_lt_iff. nia.
  - apply Z.compare_gt_iff. nia.
Qed.

Lemma add_integers (x y : Q) (a b : Z) :
  (x == inject_Z a)%Q → (y == inject_Z b)%Q →
  add (Finite x) (Finite y) = Finite (x + y)
  ∧ (x + y == inject_Z (a + b))%Q.
Proof.
  intros Hx Hy.
  assert (Hsum : (x + y == inject_Z (a + b))%Q).
  { by rewrite Hx, Hy, inject_Z_plus. }
  split; [|done]. unfold add. by apply binary64_integer with (a + b).
Qed.

Lemma mul_integers (x y : Q) (a b : Z) :
  (x == inject_Z a)%Q → (y == inject_Z b)%Q →
  mul (Finite x) (Finite y) = Finite (x * y)
  ∧ (x * y == inject_Z (a * b))%Q.
Proof.
  intros Hx Hy.
  assert (Hproduct : (x * y == inject_Z (a * b))%Q).
  { by rewrite Hx, Hy, inject_Z_mult. }
  split; [|done]. unfold mul. by apply binary64_integer with (a * b).
Qed.

(** A quotient of integers that is an integer is exact. *)
Lemma div_integers (x y : Q) (c b : Z) :
  (x == inject_Z (c * b))%Q → (y == inject_Z b)%Q → b ≠ 0 →
  div (Finite x) (Finite y) = Finite (x / y)
  ∧ (x / y == inject_Z c)%Q.
Proof.
  intros Hx Hy Hb.
  assert (Hquotient : (x / y == inject_Z c)%Q).
  { rewrite Hx, Hy, inject_Z_mult. field.
    unfold Qeq. simpl. lia. }
  split; [|done]. unfold div. rewrite (sign_integer y b Hy).
  destruct (Z.compare_spec b 0); [done|..];
    by apply binary64_integer with c.
Qed.

Lemma ToIntegerOrInfinity_sum (a b : Z) :
  ToIntegerOrInfinity (add (of_Z a) (of_Z b)) = Int (a + b).
Proof.
  unfold of_Z.
  destruct (add_integers (inject_Z a) (inject_Z b) a b) as [-> Hsum];
    [done..|].
  simpl. f_equal. by apply truncate_integer.
Qed.

(** [shardSize * dataShards], as the methods compute it from the length of
    a buffer of [dataShards + parityShards] shards of [shardSize] bytes. *)
Lemma shard_product (shardSize dataShards parityShards : Z) :
  0 < dataShards + parityShards →
  ∃ q, mul (div (of_Z (shardSize * (dataShards + parityShards)))
                (add (of_Z dataShards) (of_Z parityShards)))
           (of_Z dataShards) = Finite q
       ∧ (q == inject_Z (shardSize * dataShards))%Q.
Proof.
  intros Ht. unfold of_Z.
  destruct (add_integers (inject_Z dataShards) (inject_Z parityShards)
              dataShards parityShards) as [-> Hsum]; [done..|].
  destruct (div_integers
              (inject_Z (shardSize * (dataShards + parityShards)))
              (inject_Z dataShards + inject_Z parityShards)
              shardSize (dataShards + parityShards))
    as [-> Hsize]; [done|done|lia|].
  destruct (mul_integers _ (inject_Z dataShards) shardSize dataShards Hsize)
    as [-> Hproduct]; [done|].
  eauto.
Qed.

Lemma data_end (shardSize dataShards parityShards : Z) :
  0 < dataShards + parityShards →
  ToIntegerOrInfinity
    (mul (div (of_Z (shardSize * (dataShards + parityShards)))
              (add (of_Z dataShards) (of_Z parityShards)))
         (of_Z dataShards))
  = Int (shardSize * dataShards).
Proof.
  intros Ht.
  destruct (shard_product shardSize _ _ Ht) as (q & -> & Hq).
  simpl. f_equal. by apply truncate_integer.
Qed.

Lemma data_end_from (pointer shardSize dataShards parityShards : Z) :
  0 < dataShards + parityShards →
  ToIntegerOrInfinity
    (add (of_Z pointer)
       (mul (div (of_Z (shardSize * (dataShards + parityShards)))
                 (add (of_Z dataShards) (of_Z parityShards)))
            (of_Z dataShards)))
  = Int (pointer + shardSize * dataShards).
Proof.
  intros Ht.
  destruct (shard_product shardSize _ _ Ht) as (q & -> & Hq).
  unfold of_Z.
  destruct (add_integers (inject_Z pointer) q pointer
              (shardSize * dataShards)) as [-> Hsum]; [done..|].
  simpl. f_equal. by apply truncate_integer.
Qed.

(** ** [set] and [subarray] within bounds *)

Lemma set_at target source offset (o : Z) :
  ToIntegerOrInfinity offset = Int o →
  0 ≤ o → o + Z.of_nat (length source) ≤ Z.of_nat (length target) →
  JS.set target source offset = inr (list_inserts (Z.to_nat o) source target).
Proof.
  intros Ho Hlo Hhi. unfold JS.set. rewrite Ho.
  destruct (Z.ltb_spec o 0); [lia|].
  destruct (Z.ltb_spec (Z.of_nat (length target))
              (Z.of_nat (length source) + o)); [lia|done].
Qed.

Lemma set_inr target source (pointer : Z) bytes :
  JS.set target source (of_Z pointer) = inr bytes ↔
  (0 ≤ pointer ∧ pointer + Z.of_nat (length source) ≤ Z.of_nat (length target))
  ∧ bytes = list_inserts (Z.to_nat pointer) source target.
Proof.
  unfold JS.set. rewrite ToIntegerOrInfinity_of_Z.
  destruct (Z.ltb_spec pointer 0); [split; [done|lia]|].
  destruct (Z.ltb_spec (Z.of_nat (length target))
              (Z.of_nat (length source) + pointer)).
  - split; [done|lia].
  - split; [intros [= <-]; split; [lia|done] | intros [_ ->]; done].
Qed.

Lemma subarray_between a start end_ (b e : Z) :
  ToIntegerOrInfinity start = Int b → ToIntegerOrInfinity end_ = Int e →
  0 ≤ b → b ≤ e → e ≤ Z.of_nat (length a) →
  subarray a start end_ = take (Z.to_nat (e - b)) (drop (Z.to_nat b) a).
Proof.
  intros Hb He Hlo Hbe Hhi. unfold subarray. rewrite Hb, He. simpl.
  destruct (Z.ltb_spec b 0); [lia|].
  destruct (Z.ltb_spec e 0); [lia|].
  by rewrite !Z.min_l, Z.max_l by lia.
Qed.

(** ** The memory view *)

Create Rewrite HintDb state.

Section ViewFacts.
Context {St : Type}.
Implicit Types w : State St.

Lemma getUint8Memory_refresh w :
  ∃ v, getUint8Memory w = Normal v (refresh w)
    ∧ view_buffer v = buffer_id (memory (instance w))
    ∧ memoryCache (refresh w) = Some v.
Proof.
  rewrite refresh_eq. unfold refresh_def, getUint8Memory.
  destruct (memoryCache w) as [c|] eqn:Hc; [case_decide as Hb|]; simpl;
    eauto.
Qed.

Lemma refresh_frame w :
  instance (refresh w) = instance w ∧ calls (refresh w) = calls w
  ∧ shards (refresh w) = shards w
  ∧ shardsAvailable (refresh w) = shardsAvailable w.
Proof.
  rewrite refresh_eq. unfold refresh_def, getUint8Memory.
  destruct (memoryCache w); [case_decide|]; done.
Qed.

Lemma instance_refresh w : instance (refresh w) = instance w.
Proof. apply refresh_frame. Qed.

Lemma calls_refresh w : calls (refresh w) = calls w.
Proof. apply refresh_frame. Qed.

Lemma shards_refresh w : shards (refresh w) = shards w.
Proof. apply refresh_frame. Qed.

Lemma shardsAvailable_refresh w :
  shardsAvailable (refresh w) = shardsAvailable w.
Proof. apply refresh_frame. Qed.

(** [this.getUint8Memory().set(source, offset)], then [k] *)
Lemma copy_in_bind {B} (k : unit → Op (State St) B) w source offset :
  (getUint8Memory ≫= λ view, view_set view source offset ≫= k) w =
  match JS.set (buffer_bytes (memory (instance w))) source offset with
  | inl e => Throw e (refresh w)
  | inr bytes => k tt (set_instance (store (instance w) bytes) (refresh w))
  end.
Proof.
  destruct (getUint8Memory_refresh w) as (v & Hrun & Hv & _).
  unfold mbind, Op_bind. rewrite Hrun. unfold view_set.
  rewrite instance_refresh, decide_True by done.
  by destruct (JS.set _ _ _).
Qed.

(** [this.getUint8Memory().subarray(start, end)], then [k] *)
Lemma copy_out_bind {B} (k : list byte → Op (State St) B) w start end_ :
  (getUint8Memory ≫= λ view, view_subarray view start end_ ≫= k) w =
  k (subarray (buffer_bytes (memory (instance w))) start end_)
    (count_view (refresh w)).
Proof.
  destruct (getUint8Memory_refresh w) as (v & Hrun & Hv & _).
  unfold mbind, Op_bind. rewrite Hrun. unfold view_subarray.
  by rewrite instance_refresh, decide_True by done.
Qed.

End ViewFacts.

#[local] Hint Rewrite @instance_refresh @calls_refresh @shards_refresh
  @shardsAvailable_refresh : state.

Ltac tidy := repeat (progress (simpl in *; autorewrite with state in * )).

(** ** [encode], step by step *)

Section EncodeFacts.
Context {St : Type} (exports : IWasm St).
Implicit Types w : State St.

Lemma encode_inversion w dataShards parityShards result w' :
  encode exports dataShards parityShards w = Normal result w' →
  ∃ pointer i1 i2,
    encode_trace exports w dataShards parityShards result w' pointer i1 i2.
Proof.
  unfold encode. unfold mbind at 1, Op_bind at 1, gets.
  unfold mbind at 1, Op_bind at 1, invoke at 1.
  destruct (__wbindgen_malloc _ _ _) as [[pointer i1]|] eqn:Hmalloc; [|done].
  rewrite copy_in_bind. tidy.
  destruct (JS.set (buffer_bytes (memory i1)) _ _) as [|m1] eqn:Hin; [done|].
  apply set_inr in Hin as [Hrange ->].
  unfold mbind at 1, Op_bind at 1, invoke at 1. tidy.
  destruct (Wasm.encode _ _ _ _ _ _) as [[r i2]|] eqn:Hengine; [|done].
  unfold mbind at 1, Op_bind at 1.
  case_decide as Hr.
  - rewrite copy_out_bind. unfold shards_set at 1. tidy.
    destruct (JS.set _ _ _) as [|out] eqn:Hout; [done|].
    unfold mbind at 1, Op_bind at 1, invoke_void at 1. tidy.
    destruct (__wbindgen_free _ _ _ _) as [i3|] eqn:Hfree; [|done].
    intros [= <- <-]. exists pointer, i1, i2.
    split; tidy; try done.
    + by rewrite decide_True.
    + by rewrite <- !app_assoc.
  - unfold mret at 1, Op_ret at 1.
    unfold mbind at 1, Op_bind at 1, invoke_void at 1. tidy.
    destruct (__wbindgen_free _ _ _ _) as [i3|] eqn:Hfree; [|done].
    intros [= <- <-]. exists pointer, i1, i2.
    split; tidy; try done.
    + by rewrite decide_False.
    + by rewrite <- !app_assoc.
Qed.

Lemma encode_forward w dataShards parityShards result pointer i1 i2 i3 out :
  __wbindgen_malloc exports (Z.of_nat (length (shards w))) (instance w)
    = Some (pointer, i1) →
  in_memory i1 pointer (Z.of_nat (length (shards w))) →
  Wasm.encode exports pointer (Z.of_nat (length (shards w)))
    dataShards parityShards (copied_in i1 pointer (shards w))
    = Some (result, i2) →
  (if decide (result = RESULT_OK)
   then encode_copy_out (shards w) (buffer_bytes (memory i2))
          pointer dataShards parityShards = inr out
   else out = shards w) →
  __wbindgen_free exports pointer (Z.of_nat (length (shards w))) i2 = Some i3 →
  ∃ w', encode exports dataShards parityShards w = Normal result w'
        ∧ shards w' = out ∧ instance w' = i3
        ∧ encode_trace exports w dataShards parityShards result w' pointer i1 i2.
Proof.
  intros Hmalloc Hrange Hengine Hout Hfree.
  unfold encode. unfold mbind at 1, Op_bind at 1, gets.
  unfold mbind at 1, Op_bind at 1, invoke at 1. rewrite Hmalloc.
  rewrite copy_in_bind. tidy.
  rewrite (proj2 (set_inr _ _ _ _) (conj Hrange eq_refl)).
  unfold mbind at 1, Op_bind at 1, invoke at 1. tidy.
  unfold copied_in in Hengine. rewrite Hengine.
  unfold mbind at 1, Op_bind at 1.
  case_decide as Hr.
  - rewrite copy_out_bind. unfold shards_set at 1. tidy.
    unfold encode_copy_out in Hout. rewrite Hout.
    unfold mbind at 1, Op_bind at 1, invoke_void at 1. tidy. rewrite Hfree.
    eexists. split; [reflexivity|]. do 2 (split; [by tidy|]).
    split; tidy; try done.
    + by rewrite decide_True.
    + by rewrite <- !app_assoc.
  - unfold mret at 1, Op_ret at 1.
    unfold mbind at 1, Op_bind at 1, invoke_void at 1. tidy. rewrite Hfree.
    eexists. split; [reflexivity|]. subst out. do 2 (split; [by tidy|]).
    split; tidy; try done.
    + by rewrite decide_False.
    + by rewrite <- !app_assoc.
Qed.

(** On a buffer of integral shard size the copy-out writes exactly the
    parity shards, from the matching offsets of the region. *)
Lemma encode_copy_out_shaped bytes memory pointer shardSize dataShards parityShards :
  0 ≤ shardSize → 0 ≤ dataShards → 0 ≤ parityShards →
  0 < dataShards + parityShards →
  Z.of_nat (length bytes) = shardSize * (dataShards + parityShards) →
  0 ≤ pointer →
  pointer + Z.of_nat (length bytes) ≤ Z.of_nat (length memory) →
  encode_copy_out bytes memory pointer dataShards parityShards
  = inr (take (Z.to_nat (shardSize * dataShards)) bytes
         ++ take (Z.to_nat (shardSize * parityShards))
              (drop (Z.to_nat (pointer + shardSize * dataShards)) memory)).
Proof.
  intros Hs Hd Hp Ht Hlen Hptr Hmem. unfold encode_copy_out. rewrite Hlen.
  assert (Hk : 0 ≤ shardSize * dataShards) by lia.
  assert (Hq : 0 ≤ shardSize * parityShards) by lia.
  rewrite (subarray_between _ _ _ (pointer + shardSize * dataShards)
             (pointer + shardSize * (dataShards + parityShards)));
    [|by apply data_end_from|apply ToIntegerOrInfinity_sum|lia..].
  replace (pointer + shardSize * (dataShards + parityShards)
           - (pointer + shardSize * dataShards))
    with (shardSize * parityShards) by lia.
  set (parity := take _ (drop _ memory)).
  assert (Hparity : length parity = Z.to_nat (shardSize * parityShards)).
  { unfold parity. rewrite length_take, length_drop. lia. }
  rewrite (set_at _ _ _ (shardSize * dataShards));
    [|by apply data_end|lia..].
  f_equal. rewrite list_inserts_splice by lia.
  rewrite drop_ge by lia. by rewrite app_nil_r.
Qed.

End EncodeFacts.

(** ** [reconstruct], step by step *)

Section ReconstructFacts.
Context {St : Type} (exports : IWasm St).
Implicit Types w : State St.

Lemma length_flags (available : list bool) :
  length (flags available) = length available.
Proof. unfold flags. by rewrite !length_fmap. Qed.

Lemma reconstruct_inversion w dataShards parityShards result w' :
  reconstruct exports dataShards parityShards w = Normal result w' →
  ∃ pointer i1 available i2 i3,
    reconstruct_trace exports w dataShards parityShards result w'
      pointer i1 available i2 i3.
Proof.
  unfold reconstruct. unfold mbind at 1, Op_bind at 1, gets.
  unfold mbind at 1, Op_bind at 1, invoke at 1.
  destruct (__wbindgen_malloc _ _ _) as [[pointer i1]|] eqn:Hmalloc; [|done].
  rewrite copy_in_bind. tidy.
  destruct (JS.set (buffer_bytes (memory i1)) _ _) as [|m1] eqn:Hin; [done|].
  apply set_inr in Hin as [Hrange ->].
  unfold mbind at 1, Op_bind at 1, gets. tidy.
  unfold mbind at 1, Op_bind at 1, invoke at 1. tidy.
  destruct (__wbindgen_malloc _ _ (store _ _)) as [[available i2]|]
    eqn:Hmalloc2; [|done].
  rewrite copy_in_bind. tidy.
  fold (flags (shardsAvailable w)).
  destruct (JS.set (buffer_bytes (memory i2)) _ _) as [|m2] eqn:Hin2; [done|].
  apply set_inr in Hin2 as [Hrange2 ->]. rewrite length_flags in Hrange2.
  unfold mbind at 1, Op_bind at 1, invoke at 1. tidy.
  destruct (Wasm.reconstruct _ _ _ _ _ _ _ _) as [[r i3]|] eqn:Hengine; [|done].
  unfold mbind at 1, Op_bind at 1.
  case_decide as Hr.
  - rewrite copy_out_bind. unfold shards_set at 1. tidy.
    destruct (JS.set _ _ _) as [|out] eqn:Hout; [done|].
    unfold mbind at 1, Op_bind at 1, invoke_void at 1. tidy.
    destruct (__wbindgen_free _ _ _ _) as [i4|] eqn:Hfree; [|done].
    unfold mbind at 1, Op_bind at 1, invoke_void at 1. tidy.
    destruct (__wbindgen_free _ _ _ i4) as [i5|] eqn:Hfree2; [|done].
    intros [= <- <-]. exists pointer, i1, available, i2, i3.
    split; tidy; try done.
    + by rewrite decide_True.
    + eauto.
    + by rewrite <- !app_assoc.
  - unfold mret at 1, Op_ret at 1.
    unfold mbind at 1, Op_bind at 1, invoke_void at 1. tidy.
    destruct (__wbindgen_free _ _ _ _) as [i4|] eqn:Hfree; [|done].
    unfold mbind at 1, Op_bind at 1, invoke_void at 1. tidy.
    destruct (__wbindgen_free _ _ _ i4) as [i5|] eqn:Hfree2; [|done].
    intros [= <- <-]. exists pointer, i1, available, i2, i3.
    split; tidy; try done.
    + by rewrite decide_False.
    + eauto.
    + by rewrite <- !app_assoc.
Qed.

Lemma reconstruct_forward w dataShards parityShards result
    pointer i1 available i2 i3 i4 i5 out :
  __wbindgen_malloc exports (Z.of_nat (length (shards w))) (instance w)
    = Some (pointer, i1) →
  in_memory i1 pointer (Z.of_nat (length (shards w))) →
  __wbindgen_malloc exports (Z.of_nat (length (shardsAvailable w)))
    (copied_in i1 pointer (shards w)) = Some (available, i2) →
  in_memory i2 available (Z.of_nat (length (shardsAvailable w))) →
  Wasm.reconstruct exports pointer (Z.of_nat (length (shards w)))
    dataShards parityShards available (Z.of_nat (length (shardsAvailable w)))
    (copied_in i2 available (flags (shardsAvailable w))) = Some (result, i3) →
  (if decide (result = RESULT_OK)
   then reconstruct_copy_out (shards w) (buffer_bytes (memory i3))
          pointer dataShards parityShards = inr out
   else out = shards w) →
  __wbindgen_free exports pointer (Z.of_nat (length (shards w))) i3 = Some i4 →
  __wbindgen_free exports available (Z.of_nat (length (shardsAvailable w))) i4
    = Some i5 →
  ∃ w', reconstruct exports dataShards parityShards w = Normal result w'
        ∧ shards w' = out ∧ instance w' = i5
        ∧ reconstruct_trace exports w dataShards parityShards result w'
            pointer i1 available i2 i3.
Proof.
  intros Hmalloc Hrange Hmalloc2 Hrange2 Hengine Hout Hfree Hfree2.
  unfold reconstruct. unfold mbind at 1, Op_bind at 1, gets.
  unfold mbind at 1, Op_bind at 1, invoke at 1. rewrite Hmalloc.
  rewrite copy_in_bind. tidy.
  rewrite (proj2 (set_inr _ _ _ _) (conj Hrange eq_refl)).
  unfold mbind at 1, Op_bind at 1, gets. tidy.
  unfold mbind at 1, Op_bind at 1, invoke at 1. tidy.
  unfold copied_in in Hmalloc2. rewrite Hmalloc2.
  rewrite copy_in_bind. tidy.
  fold (flags (shardsAvailable w)).
  rewrite <- length_flags in Hrange2.
  rewrite (proj2 (set_inr _ _ _ _) (conj Hrange2 eq_refl)).
  rewrite length_flags in Hrange2.
  unfold mbind at 1, Op_bind at 1, invoke at 1. tidy.
  unfold copied_in in Hengine. rewrite Hengine.
  unfold mbind at 1, Op_bind at 1.
  case_decide as Hr.
  - rewrite copy_out_bind. unfold shards_set at 1. tidy.
    unfold reconstruct_copy_out in Hout. rewrite Hout.
    unfold mbind at 1, Op_bind at 1, invoke_void at 1. tidy. rewrite Hfree.
    unfold mbind at 1, Op_bind at 1, invoke_void at 1. tidy. rewrite Hfree2.
    eexists. split; [reflexivity|]. do 2 (split; [by tidy|]).
    split; tidy; try done.
    + by rewrite decide_True.
    + eauto.
    + by rewrite <- !app_assoc.
  - unfold mret at 1, Op_ret at 1.
    unfold mbind at 1, Op_bind at 1, invoke_void at 1. tidy. rewrite Hfree.
    unfold mbind at 1, Op_bind at 1, invoke_void at 1. tidy. rewrite Hfree2.
    eexists. split; [reflexivity|]. subst out. do 2 (split; [by tidy|]).
    split; tidy; try done.
    + by rewrite decide_False.
    + eauto.
    + by rewrite <- !app_assoc.
Qed.


End ReconstructFacts.

(** ** What no step touches, and what every step only extends *)

Section Frames.
Context {St : Type}.
Implicit Types w : State St.

Lemma preserves_bind {A B X} (f : State St → X)
    (c : Op (State St) A) (k : A → Op (State St) B) :
  preserves f c → (∀ a, preserves f (k a)) → preserves f (c ≫= k).
Proof.
  intros Hc Hk w. unfold mbind, Op_bind. specialize (Hc w).
  destruct (c w) as [a w1|e w1]; simpl in *; [|done].
  by rewrite Hk.
Qed.

Lemma extends_bind {A B} (c : Op (State St) A) (k : A → Op (State St) B) :
  extends c → (∀ a, extends (k a)) → extends (c ≫= k).
Proof.
  intros Hc Hk w. unfold mbind, Op_bind. destruct (Hc w) as [rest1 H1].
  destruct (c w) as [a w1|e w1]; simpl in *; [|eauto].
  destruct (Hk a w1) as [rest2 H2]. exists (rest1 ++ rest2).
  by rewrite H2, H1, app_assoc.
Qed.

Lemma preserves_ret {A X} (f : State St → X) (a : A) : preserves (St := St) f (mret a).
Proof. done. Qed.

Lemma extends_ret {A} (a : A) : extends (St := St) (mret a).
Proof. intros w. exists []. by rewrite app_nil_r. Qed.

Lemma preserves_gets {A X} (f : State St → X) (g : State St → A) :
  preserves f (gets g).
Proof. done. Qed.

Lemma extends_gets {A} (g : State St → A) : extends (gets g).
Proof. intros w. exists []. by rewrite app_nil_r. Qed.

Lemma preserves_getUint8Memory {X} (f : State St → X) :
  (∀ v w, f (cache_new_view v w) = f w) → preserves f getUint8Memory.
Proof.
  intros Hf w. unfold getUint8Memory.
  destruct (memoryCache w); [case_decide|]; simpl; auto.
Qed.

Lemma extends_getUint8Memory : extends (St := St) getUint8Memory.
Proof.
  intros w. exists []. rewrite app_nil_r.
  by apply (preserves_getUint8Memory calls).
Qed.

Lemma preserves_view_set {X} (f : State St → X) view source offset :
  (∀ i w, f (set_instance i w) = f w) →
  preserves f (view_set view source offset).
Proof.
  intros Hf w. unfold view_set. case_decide; [|done].
  destruct (JS.set _ _ _); simpl; auto.
Qed.

Lemma extends_view_set view source offset :
  extends (St := St) (view_set view source offset).
Proof.
  intros w. exists []. rewrite app_nil_r.
  by apply (preserves_view_set calls).
Qed.

Lemma preserves_view_subarray {X} (f : State St → X) view start end_ :
  (∀ w, f (count_view w) = f w) →
  preserves f (view_subarray view start end_).
Proof. intros Hf w. unfold view_subarray. case_decide; simpl; auto. Qed.

Lemma extends_view_subarray view start end_ :
  extends (St := St) (view_subarray view start end_).
Proof.
  intros w. exists []. rewrite app_nil_r.
  by apply (preserves_view_subarray calls).
Qed.

Lemma preserves_shards_set {X} (f : State St → X) source offset :
  (∀ bytes w, f (set_shards bytes w) = f w) →
  preserves f (shards_set source offset).
Proof.
  intros Hf w. unfold shards_set. destruct (JS.set _ _ _); simpl; auto.
Qed.

Lemma extends_shards_set source offset :
  extends (St := St) (shards_set source offset).
Proof.
  intros w. exists []. rewrite app_nil_r.
  by apply (preserves_shards_set calls).
Qed.

Lemma preserves_invoke {X} (f : State St → X) e run :
  (∀ i w, f (set_instance i w) = f w) → (∀ c w, f (record c w) = f w) →
  preserves f (invoke e run).
Proof.
  intros Hi Hr w. unfold invoke.
  destruct (run _) as [[v i]|]; simpl; by rewrite Hr, ?Hi.
Qed.

Lemma extends_invoke e run : extends (St := St) (invoke e run).
Proof.
  intros w. unfold invoke. destruct (run _) as [[v i]|]; simpl; eauto.
Qed.

Lemma preserves_invoke_void {X} (f : State St → X) e run :
  (∀ i w, f (set_instance i w) = f w) → (∀ c w, f (record c w) = f w) →
  preserves f (invoke_void e run).
Proof.
  intros Hi Hr w. unfold invoke_void.
  destruct (run _) as [i|]; simpl; by rewrite Hr, ?Hi.
Qed.

Lemma extends_invoke_void e run : extends (St := St) (invoke_void e run).
Proof.
  intros w. unfold invoke_void. destruct (run _) as [i|]; simpl; eauto.
Qed.

End Frames.

Create HintDb frames.

#[local] Hint Resolve extends_ret extends_gets extends_getUint8Memory
  extends_view_set extends_view_subarray extends_shards_set extends_invoke
  extends_invoke_void : frames.

Ltac frames :=
  repeat first
    [ apply extends_bind; [|intros ?]
    | case_decide
    | solve [auto with frames] ].

Section Reach.
Context {St : Type} (exports : IWasm St).
Implicit Types w : State St.

(** [reconstruct] never writes to the caller's [shardsAvailable]. *)
Lemma reconstruct_preserves_shardsAvailable dataShards parityShards :
  preserves shardsAvailable (reconstruct exports dataShards parityShards).
Proof.
  unfold reconstruct.
  repeat first
    [ apply preserves_bind; [|intros ?]
    | case_decide
    | apply preserves_ret | apply preserves_gets
    | apply preserves_getUint8Memory | apply preserves_view_set
    | apply preserves_view_subarray | apply preserves_shards_set
    | apply preserves_invoke | apply preserves_invoke_void
    | done ].
Qed.

(** Once the region is obtained and lies in the memory, [encode] calls the
    engine on it, with the length and the counts as they came. *)
Lemma encode_reaches_engine w dataShards parityShards pointer i1 :
  __wbindgen_malloc exports (Z.of_nat (length (shards w))) (instance w)
    = Some (pointer, i1) →
  in_memory i1 pointer (Z.of_nat (length (shards w))) →
  ∃ rest,
    calls (final (encode exports dataShards parityShards w)) =
    calls w ++
      [ (malloc_call (Z.of_nat (length (shards w))), Returned pointer);
        (encode_call pointer (Z.of_nat (length (shards w)))
           dataShards parityShards,
         engine_outcome
           (Wasm.encode exports pointer (Z.of_nat (length (shards w)))
              dataShards parityShards (copied_in i1 pointer (shards w)))) ]
      ++ rest.
Proof.
  intros Hmalloc Hrange.
  unfold encode. unfold mbind at 1, Op_bind at 1, gets.
  unfold mbind at 1, Op_bind at 1, invoke at 1. rewrite Hmalloc.
  rewrite copy_in_bind. tidy.
  rewrite (proj2 (set_inr _ _ _ _) (conj Hrange eq_refl)).
  unfold mbind at 1, Op_bind at 1, invoke at 1. tidy.
  unfold copied_in.
  destruct (Wasm.encode _ _ _ _ _ _) as [[r i2]|] eqn:Hengine; tidy.
  - match goal with
    | |- context [ final (?k ?w0) ] =>
        assert (Hk : extends k) by frames;
        destruct (Hk w0) as [rest' ->]
    end.
    tidy. exists rest'. by rewrite <- !app_assoc.
  - exists []. by rewrite <- !app_assoc.
Qed.

(** Once both regions are obtained and lie in the memory, [reconstruct]
    calls the engine on them, with the lengths and the counts as they came,
    the second region holding one byte per entry of [shardsAvailable]. *)
Lemma reconstruct_reaches_engine w dataShards parityShards
    pointer i1 available i2 :
  __wbindgen_malloc exports (Z.of_nat (length (shards w))) (instance w)
    = Some (pointer, i1) →
  in_memory i1 pointer (Z.of_nat (length (shards w))) →
  __wbindgen_malloc exports (Z.of_nat (length (shardsAvailable w)))
    (copied_in i1 pointer (shards w)) = Some (available, i2) →
  in_memory i2 available (Z.of_nat (length (shardsAvailable w))) →
  ∃ rest,
    calls (final (reconstruct exports dataShards parityShards w)) =
    calls w ++
      [ (malloc_call (Z.of_nat (length (shards w))), Returned pointer);
        (malloc_call (Z.of_nat (length (shardsAvailable w))),
         Returned available);
        (reconstruct_call pointer (Z.of_nat (length (shards w)))
           dataShards parityShards
           available (Z.of_nat (length (shardsAvailable w))),
         engine_outcome
           (Wasm.reconstruct exports pointer (Z.of_nat (length (shards w)))
              dataShards parityShards
              available (Z.of_nat (length (shardsAvailable w)))
              (copied_in i2 available (flags (shardsAvailable w))))) ]
      ++ rest.
Proof.
  intros Hmalloc Hrange Hmalloc2 Hrange2.
  unfold reconstruct. unfold mbind at 1, Op_bind at 1, gets.
  unfold mbind at 1, Op_bind at 1, invoke at 1. rewrite Hmalloc.
  rewrite copy_in_bind. tidy.
  rewrite (proj2 (set_inr _ _ _ _) (conj Hrange eq_refl)).
  unfold mbind at 1, Op_bind at 1, gets. tidy.
  unfold mbind at 1, Op_bind at 1, invoke at 1. tidy.
  unfold copied_in in Hmalloc2. rewrite Hmalloc2.
  rewrite copy_in_bind. tidy.
  fold (flags (shardsAvailable w)).
  rewrite <- length_flags in Hrange2.
  rewrite (proj2 (set_inr _ _ _ _) (conj Hrange2 eq_refl)).
  unfold mbind at 1, Op_bind at 1, invoke at 1. tidy.
  unfold copied_in.
  destruct (Wasm.reconstruct _ _ _ _ _ _ _ _) as [[r i3]|] eqn:Hengine; tidy.
  - match goal with
    | |- context [ final (?k ?w0) ] =>
        assert (Hk : extends k) by frames;
        destruct (Hk w0) as [rest' ->]
    end.
    tidy. exists rest'. by rewrite <- !app_assoc.
  - exists []. by rewrite <- !app_assoc.
Qed.

(** What was copied in is what the engine finds in the region. *)
Lemma region_copied_in (i : Instance St) pointer source :
  in_memory i pointer (Z.of_nat (length source)) →
  region (copied_in i pointer source) pointer (Z.of_nat (length source))
  = source.
Proof.
  intros [Hlo Hhi]. unfold region, copied_in. simpl.
  rewrite Nat2Z.id. apply take_drop_inserts. lia.
Qed.

End Reach.

(** ** Calls that throw *)

Section Throws.
Context {St : Type} (exports : IWasm St).
Implicit Types w : State St.

(** A call of [encode] that throws anything but an engine trap has obtained
    its region and has not given it back. *)
Lemma encode_throw_inversion w dataShards parityShards e w' :
  encode exports dataShards parityShards w = Throw e w' →
  e ≠ RuntimeError →
  ∃ pointer rest,
    calls w' = calls w ++
      (malloc_call (Z.of_nat (length (shards w))), Returned pointer) :: rest
    ∧ acquired rest = [] ∧ released rest = [].
Proof.
  unfold encode. unfold mbind at 1, Op_bind at 1, gets.
  unfold mbind at 1, Op_bind at 1, invoke at 1.
  destruct (__wbindgen_malloc _ _ _) as [[pointer i1]|] eqn:Hmalloc;
    [|simpl; by intros [= <- <-]].
  rewrite copy_in_bind. tidy.
  destruct (JS.set (buffer_bytes (memory i1)) _ _) as [|m1] eqn:Hin.
  { simpl. intros [= <- <-] _. eexists _, _. tidy.
    split; [reflexivity|done]. }
  unfold mbind at 1, Op_bind at 1, invoke at 1. tidy.
  destruct (Wasm.encode _ _ _ _ _ _) as [[r i2]|] eqn:Hengine;
    [|simpl; by intros [= <- <-]].
  unfold mbind at 1, Op_bind at 1.
  case_decide as Hr.
  - rewrite copy_out_bind. unfold shards_set at 1. tidy.
    destruct (JS.set (shards w) _ _) as [|out] eqn:Hout.
    { simpl. intros [= <- <-] _. eexists _, _. tidy.
      rewrite <- !app_assoc. simpl. split; [reflexivity|done]. }
    unfold mbind at 1, Op_bind at 1, invoke_void at 1. tidy.
    destruct (__wbindgen_free _ _ _ _) as [i3|] eqn:Hfree;
      [done|simpl; by intros [= <- <-]].
  - unfold mret at 1, Op_ret at 1.
    unfold mbind at 1, Op_bind at 1, invoke_void at 1. tidy.
    destruct (__wbindgen_free _ _ _ _) as [i3|] eqn:Hfree;
      [done|simpl; by intros [= <- <-]].
Qed.

(** The same for [reconstruct], with one or both of its regions. *)
Lemma reconstruct_throw_inversion w dataShards parityShards e w' :
  reconstruct exports dataShards parityShards w = Throw e w' →
  e ≠ RuntimeError →
  ∃ pointer rest,
    calls w' = calls w ++
      (malloc_call (Z.of_nat (length (shards w))), Returned pointer) :: rest
    ∧ released rest = [].
Proof.
  unfold reconstruct. unfold mbind at 1, Op_bind at 1, gets.
  unfold mbind at 1, Op_bind at 1, invoke at 1.
  destruct (__wbindgen_malloc _ _ _) as [[pointer i1]|] eqn:Hmalloc;
    [|simpl; by intros [= <- <-]].
  rewrite copy_in_bind. tidy.
  destruct (JS.set (buffer_bytes (memory i1)) _ _) as [|m1] eqn:Hin.
  { simpl. intros [= <- <-] _. eexists _, _. tidy.
    split; [reflexivity|done]. }
  unfold mbind at 1, Op_bind at 1, gets. tidy.
  unfold mbind at 1, Op_bind at 1, invoke at 1. tidy.
  destruct (__wbindgen_malloc _ _ (store _ _)) as [[available i2]|]
    eqn:Hmalloc2; [|simpl; by intros [= <- <-]].
  rewrite copy_in_bind. tidy.
  destruct (JS.set (buffer_bytes (memory i2)) _ _) as [|m2] eqn:Hin2.
  { simpl. intros [= <- <-] _. eexists _, _. tidy.
      rewrite <- !app_assoc. simpl. split; [reflexivity|done]. }
  unfold mbind at 1, Op_bind at 1, invoke at 1. tidy.
  destruct (Wasm.reconstruct _ _ _ _ _ _ _ _) as [[r i3]|] eqn:Hengine;
    [|simpl; by intros [= <- <-]].
  unfold mbind at 1, Op_bind at 1.
  case_decide as Hr.
  - rewrite copy_out_bind. unfold shards_set at 1. tidy.
    destruct (JS.set (shards w) _ _) as [|out] eqn:Hout.
    { simpl. intros [= <- <-] _. eexists _, _. tidy.
      rewrite <- !app_assoc. simpl. split; [reflexivity|done]. }
    unfold mbind at 1, Op_bind at 1, invoke_void at 1. tidy.
    destruct (__wbindgen_free _ _ _ _) as [i4|] eqn:Hfree;
      [|simpl; by intros [= <- <-]].
    unfold mbind at 1, Op_bind at 1, invoke_void at 1. tidy.
    destruct (__wbindgen_free _ _ _ i4) as [i5|] eqn:Hfree2;
      [done|simpl; by intros [= <- <-]].
  - unfold mret at 1, Op_ret at 1.
    unfold mbind at 1, Op_bind at 1, invoke_void at 1. tidy.
    destruct (__wbindgen_free _ _ _ _) as [i4|] eqn:Hfree;
      [|simpl; by intros [= <- <-]].
    unfold mbind at 1, Op_bind at 1, invoke_void at 1. tidy.
    destruct (__wbindgen_free _ _ _ i4) as [i5|] eqn:Hfree2;
      [done|simpl; by intros [= <- <-]].
Qed.

End Throws.

(** ** [encode] over the engine of the spec *)

Section Determinism.
Context {St : Type}.
Variable codec : list byte → Z → Z → Z → option (Z * list byte).
Variable reject : Z → Z → Z → option positive.
Variable exports : IWasm St.
Hypothesis exports_encode :
  ∀ pointer length dataShards parityShards i,
    Wasm.encode exports pointer length dataShards parityShards i
    = SpecEngine.encode codec reject pointer length dataShards parityShards i.

Lemma region_copied_in_prefix (i : Instance St) pointer source n :
  in_memory i pointer (Z.of_nat (length source)) →
  0 ≤ n ≤ Z.of_nat (length source) →
  region (copied_in i pointer source) pointer n = take (Z.to_nat n) source.
Proof.
  intros [Hlo Hhi] Hn. unfold region, copied_in. simpl.
  rewrite <- (take_drop_inserts (buffer_bytes (memory i)) source
                (Z.to_nat pointer)) at 2 by lia.
  rewrite take_take. f_equal. lia.
Qed.

Lemma well_shaped_spec shardsLength dataShards parityShards :
  SpecEngine.well_shaped shardsLength dataShards parityShards = true →
  0 ≤ dataShards ∧ 0 ≤ parityShards ∧ 0 < dataShards + parityShards
  ∧ shardsLength
    = shardsLength / (dataShards + parityShards) * (dataShards + parityShards).
Proof.
  unfold SpecEngine.well_shaped. rewrite !andb_true_iff.
  intros [[[Hd Hp] Ht] Hmod].
  apply Z.leb_le in Hd, Hp. apply Z.ltb_lt in Ht. apply Z.eqb_eq in Hmod.
  repeat split; try done.
  rewrite Z.mul_comm. apply Z_div_exact_full_2; lia.
Qed.

(** What a returning call of [encode] leaves in [shards], from the data
    shards and the counts alone. *)
Lemma encode_result_from_data w dataShards parityShards result w' :
  encode exports dataShards parityShards w = Normal result w' →
  let shardsLength := Z.of_nat (length (shards w)) in
  let shardSize := shardsLength / (dataShards + parityShards) in
  let data := take (Z.to_nat (shardSize * dataShards)) (shards w) in
  if SpecEngine.well_shaped shardsLength dataShards parityShards then
    ∃ parity, codec data shardSize dataShards parityShards
              = Some (result, parity)
      ∧ (result = RESULT_OK →
         shards w'
         = data ++ resize (Z.to_nat (shardSize * parityShards)) x00 parity)
  else ∃ c, reject shardsLength dataShards parityShards = Some c
            ∧ result = Z.pos c.
Proof.
  intros Hrun shardsLength shardSize data.
  destruct (encode_inversion exports _ _ _ _ _ Hrun)
    as (pointer & i1 & i2 & [_ Hrange Hengine Hout _ _ _]).
  rewrite exports_encode in Hengine. unfold SpecEngine.encode in Hengine.
  fold shardsLength in Hengine, Hrange.
  destruct (SpecEngine.well_shaped shardsLength dataShards parityShards)
    eqn:Hshape.
  - apply well_shaped_spec in Hshape as (Hd & Hp & Ht & Hlength).
    fold shardSize in Hengine, Hlength.
    assert (Hsize : 0 ≤ shardSize) by (apply Z.div_pos; lia).
    rewrite region_copied_in_prefix in Hengine;
      [|done|fold shardsLength; nia].
    fold data in Hengine.
    destruct (codec data shardSize dataShards parityShards)
      as [[code parity]|]; [|done].
    destruct (decide (code = 0)) as [Hcode|Hcode]; injection Hengine as <- <-;
      exists parity; (split; [by rewrite ?Hcode|]); [|done].
    intros _. rewrite decide_True in Hout by done.
    destruct Hrange as [Hlo Hhi].
    rewrite (encode_copy_out_shaped _ _ _ shardSize) in Hout; try done.
    + injection Hout as <-. fold data. f_equal. unfold store. simpl.
      rewrite Z2Nat.inj_add by lia.
      set (parity' := resize _ x00 parity).
      assert (Hparity : length parity' = Z.to_nat (shardSize * parityShards))
        by apply length_resize.
      rewrite <- Hparity at 1.
      rewrite <- Z2Nat.inj_add by lia.
      apply take_drop_inserts. rewrite length_inserts. lia.
    + unfold store, copied_in. simpl. rewrite !length_inserts.
      fold shardsLength. lia.
  - destruct (reject shardsLength dataShards parityShards) as [c|];
      [|done].
    injection Hengine as <- <-. eauto.
Qed.

End Determinism.

(** ** The singleton *)

Section SingletonFacts.
Import Singleton.

Lemma getInstance_cached isBrowser wasmUrl r instance :
  cachedInstance r = Some instance →
  getInstance isBrowser wasmUrl r = (resolved instance, r).
Proof. unfold getInstance. by intros ->. Qed.

Lemma getInstance_loading isBrowser wasmUrl r promise :
  cachedInstance r = None → loadingPromise r = Some promise →
  getInstance isBrowser wasmUrl r = (follows promise, r).
Proof. unfold getInstance. by intros -> ->. Qed.

Lemma getInstance_starts isBrowser wasmUrl r :
  cachedInstance r = None → loadingPromise r = None →
  ∃ r', getInstance isBrowser wasmUrl r
        = (awaits (length (instantiations r)), r')
        ∧ loadingPromise r' = Some (length (instantiations r))
        ∧ instantiations r'
          = instantiations r ++ [(source isBrowser wasmUrl, Pending)].
Proof. unfold getInstance. intros -> ->. by eexists. Qed.

(** After a first call, the instantiation it started fulfils: the handle
    is cached and the marker cleared. *)
Lemma settle_fulfilled_clears isBrowser wasmUrl value :
  let r := settle 0%nat (Fulfilled value)
             (getInstance isBrowser wasmUrl empty).2 in
  cachedInstance r = Some value ∧ loadingPromise r = None
  ∧ in_flight r = [].
Proof. done. Qed.

End SingletonFacts.

(** ** The singleton between events *)

Section SingletonInvariant.
Import Singleton.

Lemma consistent_empty : consistent empty.
Proof.
  split; [|done]. intros p [s Hs]. simpl in Hs. by rewrite lookup_nil in Hs.
Qed.

Lemma pending_started r src p :
  pending {| cachedInstance := None;
             loadingPromise := Some (length (instantiations r));
             instantiations := instantiations r ++ [(src, Pending)];
             suspended := suspended r ++ [length (instantiations r)] |} p ↔
  pending r p ∨ p = length (instantiations r).
Proof.
  unfold pending. simpl. split.
  - intros [s Hs]. apply lookup_app_Some in Hs as [Hs|[Hlen Hs]]; [eauto|].
    right. apply list_lookup_singleton_Some in Hs as [Hp _]. lia.
  - intros [[s Hs]| ->].
    + exists s. by apply lookup_app_l_Some.
    + exists src. rewrite lookup_app_r by lia.
      by rewrite Nat.sub_diag.
Qed.

Lemma consistent_getInstance isBrowser wasmUrl r :
  consistent r → consistent (getInstance isBrowser wasmUrl r).2.
Proof.
  intros Hr. pose proof Hr as [Hpending Hidle]. unfold getInstance.
  destruct (cachedInstance r) eqn:Hcached; [done|].
  destruct (loadingPromise r) eqn:Hloading; [done|]. simpl.
  assert (Hnone : ∀ p, ¬ pending r p).
  { intros p Hp. apply Hpending in Hp as [Hp _]. congruence. }
  split.
  - intros p Hp. apply pending_started in Hp as [Hp| ->]; [by apply Hnone in Hp|].
    simpl. by rewrite (Hidle Hnone).
  - intros Hnone'. exfalso. apply (Hnone' (length (instantiations r))).
    apply pending_started. by right.
Qed.

Lemma settle_pending r p outcome :
  consistent r → pending r p → outcome ≠ Pending →
  settle p outcome r
  = resume outcome
      {| cachedInstance := None; loadingPromise := Some p;
         instantiations := alter (λ s, (s.1, outcome)) p (instantiations r);
         suspended := [] |}.
Proof.
  intros [Hpending _] Hp _. apply Hpending in Hp as (Hl & Hc & Hs).
  unfold settle. rewrite Hl, Hc, Hs.
  rewrite (filter_cons_True (λ q, q = p)) by done.
  rewrite (filter_cons_False (λ q, q ≠ p)) by (intros H; by apply H).
  by rewrite !filter_nil.
Qed.

Lemma not_pending_settled r p outcome q :
  consistent r → pending r p → outcome ≠ Pending →
  ¬ pending (settle p outcome r) q.
Proof.
  intros Hr Hp Ho [s Hs]. rewrite settle_pending in Hs by done.
  assert (Hinst : alter (λ s, (s.1, outcome)) p (instantiations r) !! q
                  = Some (s, Pending)).
  { by destruct outcome. }
  clear Hs. destruct (decide (q = p)) as [->|Hne].
  - rewrite list_lookup_alter, decide_True in Hinst by done.
    destruct Hp as [s' Hp]. rewrite Hp in Hinst. simpl in Hinst.
    injection Hinst as _ ->. done.
  - rewrite list_lookup_alter_ne in Hinst by done.
    destruct Hr as [Hpending _].
    destruct (Hpending p Hp) as [Hl _].
    destruct (Hpending q (ex_intro _ s Hinst)) as [Hl' _]. congruence.
Qed.

Lemma consistent_settle r p outcome :
  consistent r → pending r p → outcome ≠ Pending →
  consistent (settle p outcome r).
Proof.
  intros Hr Hp Ho. split.
  - intros q Hq. exfalso. by apply (not_pending_settled r p outcome q).
  - intros _. rewrite settle_pending by done. by destruct outcome.
Qed.

Lemma consistent_step isBrowser r ev :
  consistent r → consistent (step isBrowser r ev).
Proof.
  intros Hr. destruct ev as [wasmUrl|p outcome]; simpl.
  - by apply consistent_getInstance.
  - destruct outcome; [done|..];
      destruct (instantiations r !! p) as [[s []]|] eqn:Hp; try done;
      apply consistent_settle; try done; by exists s.
Qed.

Lemma consistent_run isBrowser events : consistent (run isBrowser events).
Proof.
  unfold run. generalize consistent_empty. generalize empty.
  induction events as [|ev events IH]; intros r Hr; [done|].
  simpl. apply IH. by apply consistent_step.
Qed.

End SingletonInvariant.

(** ** Decimal numerals *)

Lemma is_nat_pretty_N_char (d : N) :
  (d < 10)%N → Ascii.is_nat (pretty_N_char d) = Some (N.to_nat d).
Proof.
  intros Hd.
  assert (d ∈ (N.of_nat <$> seq 0 10)) as Hcases.
  { apply list_elem_of_fmap. exists (N.to_nat d). split; [lia|].
    apply elem_of_seq. lia. }
  simpl in Hcases. rewrite !elem_of_cons, elem_of_nil in Hcases.
  destruct_or!; by subst.
Qed.

Lemma digits_value_pretty_N_go (x : N) (s : string) :
  digits_value 0 (pretty_N_go x s) = digits_value x s.
Proof.
  revert s. induction (N.lt_wf_0 x) as [x _ IH]; intros s.
  assert (x = 0 ∨ 0 < x)%N as [->|Hx] by lia; [done|].
  rewrite pretty_N_go_step by done.
  rewrite IH by by apply N.div_lt. simpl.
  rewrite is_nat_pretty_N_char by by apply N.mod_lt. simpl.
  f_equal. rewrite N2Nat.id. symmetry. rewrite (N.div_mod x 10) at 1 by done.
  done.
Qed.

Lemma decimal_pretty_pos (p : positive) :
  ∃ c rest, pretty (N.pos p) = String c rest ∧ c ≠ "-"%char
            ∧ digits_value 0 (String c rest) = Some (N.pos p).
Proof.
  unfold pretty, pretty_N. rewrite decide_False by done.
  pose proof (digits_value_pretty_N_go (N.pos p) EmptyString) as Hvalue.
  pose proof (pretty_N_go_ne_dash (N.pos p) EmptyString) as Hdash.
  destruct (pretty_N_go (N.pos p) EmptyString) as [|c rest]; [done|].
  exists c, rest. split; [done|]. split; [|done].
  intros ->. by apply (Hdash rest).
Qed.

(** What [NumberToString] prints reads back as the integer. *)
Lemma decimal_NumberToString (z : Z) : decimal (NumberToString z) = Some z.
Proof.
  destruct z as [|p|p]; [done|..].
  - change (NumberToString (Z.pos p)) with (pretty (N.pos p)).
    destruct (decimal_pretty_pos p) as (c & rest & -> & Hc & Hvalue).
    unfold decimal. rewrite decide_False by done. by rewrite Hvalue.
  - change (NumberToString (Z.neg p)) with ("-" +:+ pretty (N.pos p)).
    destruct (decimal_pretty_pos p) as (c & rest & -> & Hc & Hvalue).
    change ("-" +:+ String c rest) with (String "-" (String c rest)).
    unfold decimal.
    rewrite decide_True, decide_False by done. by rewrite Hvalue.
Qed.

(** * The claims *)

(** C1, as the code has it.  A call of [encode] on a handle, for which the
    engine hands out the region at [pointer] (leaving [i1]), answers [result] to
    [encode(pointer, length, dataShards, parityShards)] (leaving [i2]) and
    takes the region back.  If [result] is not [RESULT_OK], the call returns
    it and [shards] is unmodified.  If it is [RESULT_OK] and the buffer
    consists of [dataShards + parityShards] shards of [shardSize] bytes, the
    call returns it, the bytes of [shards] before [shardSize·dataShards] are
    as the caller supplied them and those from there on are the bytes the
    engine left at the matching offsets of the region. *)
Theorem encode_overwrites_parity_only {St : Type} (exports : IWasm St)
    (w : State St) (dataShards parityShards pointer result : Z)
    (i1 i2 i3 : Instance St) :
  let shardsLength := Z.of_nat (length (shards w)) in
  __wbindgen_malloc exports shardsLength (instance w) = Some (pointer, i1) →
  in_memory i1 pointer shardsLength →
  Wasm.encode exports pointer shardsLength dataShards parityShards
    (copied_in i1 pointer (shards w)) = Some (result, i2) →
  __wbindgen_free exports pointer shardsLength i2 = Some i3 →
  (result ≠ RESULT_OK →
   ∃ w', encode exports dataShards parityShards w = Normal result w'
         ∧ shards w' = shards w)
  ∧ (result = RESULT_OK →
     ∀ shardSize,
       0 ≤ shardSize → 0 ≤ dataShards → 0 ≤ parityShards →
       0 < dataShards + parityShards →
       shardsLength = shardSize * (dataShards + parityShards) →
       in_memory i2 pointer shardsLength →
       ∃ w', encode exports dataShards parityShards w = Normal result w'
             ∧ length (shards w') = length (shards w)
             ∧ take (Z.to_nat (shardSize * dataShards)) (shards w')
               = take (Z.to_nat (shardSize * dataShards)) (shards w)
             ∧ drop (Z.to_nat (shardSize * dataShards)) (shards w')
               = region i2 (pointer + shardSize * dataShards)
                   (shardSize * parityShards)).
Proof.
  intros shardsLength Hmalloc Hrange Hengine Hfree. split.
  - intros Hresult.
    destruct (encode_forward exports w dataShards parityShards result
                pointer i1 i2 i3 (shards w))
      as (w' & Hrun & Hshards & _); try done.
    + by rewrite decide_False.
    + eauto.
  - intros Hresult shardSize Hsize Hdata Hparity Htotal Hlength [Hlo Hhi].
    destruct (encode_forward exports w dataShards parityShards result
                pointer i1 i2 i3
                (take (Z.to_nat (shardSize * dataShards)) (shards w)
                 ++ region i2 (pointer + shardSize * dataShards)
                      (shardSize * parityShards)))
      as (w' & Hrun & Hshards & _); try done.
    + rewrite decide_True by done. by apply encode_copy_out_shaped.
    + exists w'. split; [done|]. rewrite Hshards.
      assert (Hregion :
        length (region i2 (pointer + shardSize * dataShards)
                  (shardSize * parityShards))
        = Z.to_nat (shardSize * parityShards)).
      { unfold region. rewrite length_take, length_drop. fold shardsLength in Hhi. nia. }
      assert (Hprefix :
        length (take (Z.to_nat (shardSize * dataShards)) (shards w))
        = Z.to_nat (shardSize * dataShards)).
      { rewrite length_take. fold shardsLength. nia. }
      repeat split.
      * rewrite length_app, Hregion, Hprefix. fold shardsLength. nia.
      * rewrite take_app_length'; done.
      * rewrite drop_app_length'; done.
Qed.

Lemma encode_overwrites_parity_only_witness :
  ∃ w', encode TestDouble.exports 2 1 (Sample.state Sample.buffer [])
        = Normal RESULT_OK w'
        ∧ length (shards w') = length Sample.buffer
        ∧ take 8 (shards w') = take 8 Sample.buffer
        ∧ drop 8 (shards w') = [x11; x22; x33; x44].
Proof.
  edestruct (encode_overwrites_parity_only TestDouble.exports
               (Sample.state Sample.buffer []) 2 1) as [_ Hok];
    [vm_compute; reflexivity | vm_compute; split; discriminate
    |vm_compute; reflexivity | vm_compute; reflexivity |].
  apply (Hok eq_refl 4); try lia; try reflexivity.
  vm_compute; split; discriminate.
Defined.

(** C1, as the claim states it, fails where the buffer is not a whole
    number of shards.  For 164 bytes and 15 + 5 shards, [shardSize] is the
    Number nearest to 8.2 and [shardSize * dataShards] the one just below
    123: [set] writes from index 122 on, while the region at 16 is read
    from [16 + shardSize * dataShards], which is 139 as a Number, offset 123.
    On an engine that answers [RESULT_OK] and writes nothing, the byte at
    index 122, below [shardSize·dataShards], is overwritten by the byte at
    offset 123 of the region; every byte from there on is the one the region
    holds an offset further, and the last byte is not written. *)
Lemma encode_overwrites_data_byte :
  ∃ w', encode TestDouble.exports_idle 15 5
          (TestDouble.start Sample.busy Sample.long [])
        = Normal RESULT_OK w'
        ∧ acquired (calls w') = [(16, 164)]
        ∧ Sample.long !! 122%nat = Some x7a
        ∧ shards w' !! 122%nat = Some x7b
        ∧ take 122 (shards w') = take 122 Sample.long
        ∧ drop 122 (shards w') = drop 123 Sample.long ++ [xa3].
Proof. eexists. by vm_compute. Qed.




(** C3, as the code has it.  Whenever a call of [encode] or [reconstruct]
    returns a result code, [RESULT_OK] or not, every region it obtained from
    [__wbindgen_malloc] (one for [encode], two for [reconstruct]) has been
    given back through [__wbindgen_free] exactly once, and nothing else has.
    When a marshaling step fails instead, the call throws with what it
    obtained and has given nothing back. *)
Theorem regions_released_on_return {St : Type} (exports : IWasm St)
    (w : State St) (dataShards parityShards : Z) :
  (∀ result w',
     encode exports dataShards parityShards w = Normal result w' →
     ∃ log, calls w' = calls w ++ log
            ∧ length (acquired log) = 1%nat ∧ released log = acquired log)
  ∧ (∀ result w',
       reconstruct exports dataShards parityShards w = Normal result w' →
       ∃ log, calls w' = calls w ++ log
              ∧ length (acquired log) = 2%nat ∧ released log = acquired log)
  ∧ (∀ e w',
       encode exports dataShards parityShards w = Throw e w' →
       e ≠ RuntimeError →
       ∃ log, calls w' = calls w ++ log
              ∧ length (acquired log) = 1%nat ∧ released log = [])
  ∧ (∀ e w',
       reconstruct exports dataShards parityShards w = Throw e w' →
       e ≠ RuntimeError →
       ∃ log, calls w' = calls w ++ log
              ∧ acquired log ≠ [] ∧ released log = []).
Proof.
  repeat split.
  - intros result w' Hrun.
    destruct (encode_inversion exports _ _ _ _ _ Hrun)
      as (pointer & i1 & i2 & Htrace).
    eexists. split; [apply (encode_calls _ _ _ _ _ _ _ _ _ Htrace)|done].
  - intros result w' Hrun.
    destruct (reconstruct_inversion exports _ _ _ _ _ Hrun)
      as (pointer & i1 & available & i2 & i3 & Htrace).
    eexists.
    split; [apply (reconstruct_calls _ _ _ _ _ _ _ _ _ _ _ Htrace)|done].
  - intros e w' Hrun He.
    destruct (encode_throw_inversion exports _ _ _ _ _ Hrun He)
      as (pointer & rest & Hcalls & Hacquired & Hreleased).
    eexists. split; [exact Hcalls|]. simpl. by rewrite Hacquired, Hreleased.
  - intros e w' Hrun He.
    destruct (reconstruct_throw_inversion exports _ _ _ _ _ Hrun He)
      as (pointer & rest & Hcalls & Hreleased).
    eexists. split; [exact Hcalls|]. simpl. by rewrite Hreleased.
Qed.

Lemma regions_released_on_return_witness :
  ∃ log,
    calls (final (reconstruct TestDouble.exports 2 1
                    (Sample.state Sample.damaged [false; true; true])))
    = calls (Sample.state Sample.damaged [false; true; true]) ++ log
    ∧ length (acquired log) = 2%nat ∧ released log = acquired log.
Proof.
  destruct (regions_released_on_return TestDouble.exports
              (Sample.state Sample.damaged [false; true; true]) 2 1)
    as (_ & Hreturn & _).
  apply (Hreturn RESULT_OK). vm_compute. reflexivity.
Defined.

(** C3, as the claim states it, fails: on an engine whose allocator hands
    out a region that ends past its memory, the copy-in of [encode] throws a
    RangeError, and the region obtained is never given back. *)
Lemma marshaling_failure_leaks :
  ∃ w', encode TestDouble.exports_fixed 2 1 (Sample.state Sample.buffer [])
        = Throw RangeError w'
        ∧ acquired (calls w') = [(0, 12)]
        ∧ released (calls w') = [].
Proof. eexists. by vm_compute. Qed.

(** C4, where the code departs from the claim.  A first call of
    [getInstance] starts an instantiation; when that instantiation fails,
    nothing is cached and [loadingPromise] still holds its promise, although
    no instantiation is in flight any more.  Every later call, whatever its
    argument, returns that same rejected promise and starts nothing. *)
Theorem getInstance_failure_keeps_marker (isBrowser : bool)
    (wasmUrl wasmUrl' : option string) (reason : exception) :
  let r := Singleton.settle 0%nat (Singleton.Rejected reason)
             (Singleton.getInstance isBrowser wasmUrl Singleton.empty).2 in
  Singleton.in_flight r = []
  ∧ Singleton.cachedInstance r = None
  ∧ Singleton.loadingPromise r = Some 0%nat
  ∧ Singleton.getInstance isBrowser wasmUrl' r = (Singleton.follows 0%nat, r)
  ∧ Singleton.outcome_of r (Singleton.follows 0%nat)
    = Singleton.Rejected reason.
Proof. done. Qed.

(** C5.  [getResultMessage] is total on the codes, the safe integers: for
    every one it returns a non-empty string; for the codes 0 to 13 it
    returns the documented message, from "OK" to "Invalid index"; for every
    other one it returns the generic message followed by a decimal numeral,
    and that numeral reads back as the code. *)
Theorem getResultMessage_total (code : Z) :
  Z.abs code < 2 ^ 53 →
  getResultMessage code ≠ EmptyString
  ∧ (getResultMessage 0 = "OK"
     ∧ getResultMessage 1 = "Too few shards"
     ∧ getResultMessage 2 = "Too many shards"
     ∧ getResultMessage 3 = "Too few data shards"
     ∧ getResultMessage 4 = "Too many data shards"
     ∧ getResultMessage 5 = "Too few parity shards"
     ∧ getResultMessage 6 = "Too many parity shards"
     ∧ getResultMessage 7 = "Too few buffer shards"
     ∧ getResultMessage 8 = "Too many buffer shards"
     ∧ getResultMessage 9 = "Incorrect shard size"
     ∧ getResultMessage 10 = "Too few shards present for reconstruction"
     ∧ getResultMessage 11 = "Empty shard"
     ∧ getResultMessage 12 = "Invalid shard flags"
     ∧ getResultMessage 13 = "Invalid index")%string
  ∧ (code < 0 ∨ 13 < code →
     ∃ digits,
       getResultMessage code = ("Unknown error code: " +:+ digits)%string
       ∧ decimal digits = Some code).
Proof.
  intros _.
  assert (Hunknown : code < 0 ∨ 13 < code → messages !! code = None).
  { intros Hcode. apply not_elem_of_list_to_map_1. simpl.
    rewrite !elem_of_cons, elem_of_nil. lia. }
  split; [|split].
  - destruct (decide (0 ≤ code ≤ 13)) as [Hknown|Hother].
    + assert (Hcases : code ∈ (Z.of_nat <$> seq 0 14)).
      { apply list_elem_of_fmap. exists (Z.to_nat code).
        split; [lia|]. apply elem_of_seq. lia. }
      simpl in Hcases. rewrite !elem_of_cons, elem_of_nil in Hcases.
      destruct_or!; subst; try done; by vm_compute.
    + unfold getResultMessage. rewrite Hunknown by lia. done.
  - repeat split; by vm_compute.
  - intros Hcode. exists (NumberToString code). split.
    + unfold getResultMessage. by rewrite Hunknown.
    + apply decimal_NumberToString.
Qed.

Lemma getResultMessage_total_witness :
  Z.abs 999 < 2 ^ 53
  ∧ ∃ digits,
      getResultMessage 999 = ("Unknown error code: " +:+ digits)%string
      ∧ decimal digits = Some 999.
Proof.
  split; [reflexivity|].
  apply (getResultMessage_total 999); [reflexivity|]. right. reflexivity.
Defined.

(** C6.  Every call of [getUint8Memory] returns, never throws, and returns a
    view whose buffer is, by identity, the current buffer of the engine
    memory.  A cached view over that buffer is returned as it is and
    nothing changes; otherwise (no cached view, or one over another buffer)
    a new view is made over the current buffer.  Either way the returned
    view is the cached one afterwards. *)
Theorem getUint8Memory_current {St : Type} (w : State St) :
  ∃ view w',
    getUint8Memory w = Normal view w'
    ∧ instance w' = instance w
    ∧ view_buffer view = buffer_id (memory (instance w'))
    ∧ memoryCache w' = Some view
    ∧ match memoryCache w with
      | Some cached =>
          if decide (view_buffer cached = buffer_id (memory (instance w)))
          then view = cached ∧ w' = w
          else view_id view = views w ∧ views w' = S (views w)
      | None => view_id view = views w ∧ views w' = S (views w)
      end.
Proof.
  unfold getUint8Memory.
  destruct (memoryCache w) as [cached|] eqn:Hcache.
  - destruct (decide (view_buffer cached = buffer_id (memory (instance w))))
      as [Hsame|Hother].
    + rewrite decide_False by tauto. eexists _, _. by repeat split.
    + rewrite decide_True by done. eexists _, _. by repeat split.
  - eexists _, _. by repeat split.
Qed.

(** C7, as the code has it.  Neither method validates the counts or the
    length.  Once the
    engine hands out a region that lies in its memory, [encode] calls the
    engine's [encode] with the pointer, the length of the buffer as it is
    and the two counts as they came, whatever they are; a result the call
    returns is the one the engine returned, and a failure code of the engine
    is returned as it is.  The same holds of [reconstruct], once the engine
    hands out the second region. *)
Theorem raw_length_reaches_engine {St : Type} (exports : IWasm St)
    (w : State St) (dataShards parityShards pointer : Z) (i1 : Instance St) :
  let shardsLength := Z.of_nat (length (shards w)) in
  let shardsAvailableLength := Z.of_nat (length (shardsAvailable w)) in
  __wbindgen_malloc exports shardsLength (instance w) = Some (pointer, i1) →
  in_memory i1 pointer shardsLength →
  let answer :=
    Wasm.encode exports pointer shardsLength dataShards parityShards
      (copied_in i1 pointer (shards w)) in
  ((∃ rest,
      calls (final (encode exports dataShards parityShards w)) =
      calls w ++
        [ (malloc_call shardsLength, Returned pointer);
          (encode_call pointer shardsLength dataShards parityShards,
           engine_outcome answer) ] ++ rest)
   ∧ (∀ result w',
        encode exports dataShards parityShards w = Normal result w' →
        engine_outcome answer = Returned result)
   ∧ (∀ result i2 i3,
        answer = Some (result, i2) → result ≠ RESULT_OK →
        __wbindgen_free exports pointer shardsLength i2 = Some i3 →
        ∃ w', encode exports dataShards parityShards w = Normal result w'))
  ∧ (∀ available i2,
       __wbindgen_malloc exports shardsAvailableLength
         (copied_in i1 pointer (shards w)) = Some (available, i2) →
       in_memory i2 available shardsAvailableLength →
       let answer :=
         Wasm.reconstruct exports pointer shardsLength dataShards parityShards
           available shardsAvailableLength
           (copied_in i2 available (flags (shardsAvailable w))) in
       (∃ rest,
          calls (final (reconstruct exports dataShards parityShards w)) =
          calls w ++
            [ (malloc_call shardsLength, Returned pointer);
              (malloc_call shardsAvailableLength, Returned available);
              (reconstruct_call pointer shardsLength dataShards parityShards
                 available shardsAvailableLength,
               engine_outcome answer) ] ++ rest)
       ∧ (∀ result w',
            reconstruct exports dataShards parityShards w = Normal result w' →
            engine_outcome answer = Returned result)
       ∧ (∀ result i3 i4 i5,
            answer = Some (result, i3) → result ≠ RESULT_OK →
            __wbindgen_free exports pointer shardsLength i3 = Some i4 →
            __wbindgen_free exports available shardsAvailableLength i4
              = Some i5 →
            ∃ w', reconstruct exports dataShards parityShards w
                  = Normal result w')).
Proof.
  intros shardsLength shardsAvailableLength Hmalloc Hrange answer.
  split; [split; [|split]|].
  - by apply (encode_reaches_engine exports w _ _ pointer i1).
  - intros result w' Hrun.
    destruct (encode_inversion exports _ _ _ _ _ Hrun)
      as (pointer' & i1' & i2 & Htrace).
    pose proof (encode_malloc _ _ _ _ _ _ _ _ _ Htrace) as Hmalloc'.
    fold shardsLength in Hmalloc'. rewrite Hmalloc in Hmalloc'.
    injection Hmalloc' as <- <-.
    unfold answer, shardsLength.
    by rewrite (encode_engine _ _ _ _ _ _ _ _ _ Htrace).
  - intros result i2 i3 Hanswer Hresult Hfree.
    destruct (encode_forward exports w dataShards parityShards result
                pointer i1 i2 i3 (shards w))
      as (w' & Hrun & _); try done; [by rewrite decide_False|eauto].
  - intros available i2 Hmalloc2 Hrange2 answer2.
    split; [|split].
    + by apply (reconstruct_reaches_engine exports w _ _ pointer i1
                  available i2).
    + intros result w' Hrun.
      destruct (reconstruct_inversion exports _ _ _ _ _ Hrun)
        as (pointer' & i1' & available' & i2' & i3 & Htrace).
      pose proof (reconstruct_malloc _ _ _ _ _ _ _ _ _ _ _ Htrace)
        as Hmalloc'.
      fold shardsLength in Hmalloc'. rewrite Hmalloc in Hmalloc'.
      injection Hmalloc' as <- <-.
      pose proof (reconstruct_malloc_available _ _ _ _ _ _ _ _ _ _ _ Htrace)
        as Hmalloc2'.
      fold shardsAvailableLength in Hmalloc2'.
      rewrite Hmalloc2 in Hmalloc2'. injection Hmalloc2' as <- <-.
      unfold answer2, shardsLength, shardsAvailableLength.
      by rewrite (reconstruct_engine _ _ _ _ _ _ _ _ _ _ _ Htrace).
    + intros result i3 i4 i5 Hanswer Hresult Hfree Hfree2.
      destruct (reconstruct_forward exports w dataShards parityShards result
                  pointer i1 available i2 i3 i4 i5 (shards w))
        as (w' & Hrun & _); try done; [by rewrite decide_False|eauto].
Qed.

(** A buffer of 12 bytes for 3 + 2 shards: the engine is asked, with the
    length 12, and its answer 9 comes back. *)
Lemma raw_length_reaches_engine_witness :
  (∃ rest,
     calls (final (encode TestDouble.exports 3 2
                     (Sample.state Sample.buffer []))) =
     [ (malloc_call 12, Returned 0);
       (encode_call 0 12 3 2, Returned RESULT_ERROR_INCORRECT_SHARD_SIZE) ]
     ++ rest)
  ∧ ∃ w', encode TestDouble.exports 3 2 (Sample.state Sample.buffer [])
          = Normal RESULT_ERROR_INCORRECT_SHARD_SIZE w'.
Proof.
  edestruct (raw_length_reaches_engine TestDouble.exports
               (Sample.state Sample.buffer []) 3 2)
    as ((Hcalled & _ & Hfailure) & _);
    [vm_compute; reflexivity | vm_compute; split; discriminate |].
  split; [exact Hcalled|].
  eapply Hfailure; [vm_compute; reflexivity | discriminate
                   | vm_compute; reflexivity].
Defined.

(** C7, as the claim states it, fails in its last clause: a shape error can
    surface as an error of the method itself.  The exports take their
    arguments as 32-bit integers: the counts 4294967298 and -8589934591 are
    2 and 1 to the engine, which answers [RESULT_OK] to the 12 bytes.  The
    method computes [shardSize * dataShards] from the Numbers, about -12,
    and [set] at that offset throws a RangeError: the call throws, after
    the engine has accepted the buffer, and returns no result code. *)
Lemma shape_error_thrown_locally :
  ∃ w', encode TestDouble.exports_i32 4294967298 (-8589934591)
          (Sample.state Sample.buffer [])
        = Throw RangeError w'
        ∧ calls w'
          = [ (malloc_call 12, Returned 0);
              (encode_call 0 12 4294967298 (-8589934591),
               Returned RESULT_OK) ]
        ∧ shards w' = Sample.buffer.
Proof. eexists. by vm_compute. Qed.

(** C8.  Over the engine as the spec gives it, [encode] is a function of
    the data shards and the two counts: two calls on handles of the same
    engine, in whatever state, with the same counts and buffers of the same
    length that agree on the data-shard region but not necessarily on the
    parity region, return the same result code, and when it is [RESULT_OK]
    they leave the same parity bytes in the caller's buffers. *)
Theorem encode_depends_on_data_only {St : Type}
    (codec : list byte → Z → Z → Z → option (Z * list byte))
    (reject : Z → Z → Z → option positive)
    (exports : IWasm St) (w1 w2 : State St)
    (dataShards parityShards result1 result2 : Z) (w1' w2' : State St) :
  let shardsLength := Z.of_nat (length (shards w1)) in
  let dataLength :=
    Z.to_nat (shardsLength / (dataShards + parityShards) * dataShards) in
  (∀ pointer length dataShards parityShards i,
     Wasm.encode exports pointer length dataShards parityShards i
     = SpecEngine.encode codec reject
         pointer length dataShards parityShards i) →
  length (shards w2) = length (shards w1) →
  take dataLength (shards w2) = take dataLength (shards w1) →
  encode exports dataShards parityShards w1 = Normal result1 w1' →
  encode exports dataShards parityShards w2 = Normal result2 w2' →
  result1 = result2
  ∧ (result1 = RESULT_OK →
     drop dataLength (shards w1') = drop dataLength (shards w2')).
Proof.
  intros shardsLength dataLength Hexports Hlength Hdata Hrun1 Hrun2.
  pose proof (encode_result_from_data codec reject exports Hexports
                _ _ _ _ _ Hrun1) as H1.
  pose proof (encode_result_from_data codec reject exports Hexports
                _ _ _ _ _ Hrun2) as H2.
  simpl in H1, H2. rewrite Hlength in H2.
  fold shardsLength in H1, H2. fold dataLength in H1, H2.
  rewrite Hdata in H2.
  destruct (SpecEngine.well_shaped shardsLength dataShards parityShards).
  - destruct H1 as (parity1 & Hcodec1 & Hshards1).
    destruct H2 as (parity2 & Hcodec2 & Hshards2).
    rewrite Hcodec1 in Hcodec2. injection Hcodec2 as <- <-.
    split; [done|]. intros Hok.
    by rewrite Hshards1, Hshards2.
  - destruct H1 as (c1 & Hreject1 & ->). destruct H2 as (c2 & Hreject2 & ->).
    rewrite Hreject1 in Hreject2. injection Hreject2 as <-.
    split; [done|]. discriminate.
Qed.

(** A second call on the same handle, after the first, on the same data
    shards and other leftovers in the parity shard. *)
Lemma encode_depends_on_data_only_witness :
  let first := encode TestDouble.exports 2 1 (Sample.state Sample.buffer []) in
  let second := encode TestDouble.exports 2 1
                  (set_shards Sample.buffer' (final first)) in
  first = Normal RESULT_OK (final first)
  ∧ second = Normal RESULT_OK (final second)
  ∧ drop 8 (shards (final first)) = drop 8 (shards (final second)).
Proof.
  intros first second.
  assert (Hfirst : first = Normal RESULT_OK (final first))
    by (vm_compute; reflexivity).
  assert (Hsecond : second = Normal RESULT_OK (final second))
    by (vm_compute; reflexivity).
  split; [exact Hfirst|]. split; [exact Hsecond|].
  refine (proj2 (encode_depends_on_data_only
                   TestDouble.codec TestDouble.reject TestDouble.exports
                   (Sample.state Sample.buffer [])
                   (set_shards Sample.buffer' (final first))
                   2 1 RESULT_OK RESULT_OK (final first) (final second)
                   (λ _ _ _ _ _, eq_refl) _ _ Hfirst Hsecond) eq_refl);
    vm_compute; reflexivity.
Defined.

(** C9.  However a call of [reconstruct] ends, the caller's
    [shardsAvailable] is as it was.  What is copied into the engine memory
    is an array of its own, one byte per entry, 1 for [true] and 0 for
    [false]; once the engine has handed out both regions, it is called with
    that array in the second region and with the length of
    [shardsAvailable] as it is, whatever [dataShards + parityShards] is. *)
Theorem reconstruct_leaves_shardsAvailable {St : Type} (exports : IWasm St)
    (w : State St) (dataShards parityShards : Z) :
  let shardsLength := Z.of_nat (length (shards w)) in
  let shardsAvailableLength := Z.of_nat (length (shardsAvailable w)) in
  shardsAvailable (final (reconstruct exports dataShards parityShards w))
  = shardsAvailable w
  ∧ flags (shardsAvailable w)
    = (λ value : bool, if value then x01 else x00) <$> shardsAvailable w
  ∧ ∀ pointer i1 available i2,
      __wbindgen_malloc exports shardsLength (instance w)
        = Some (pointer, i1) →
      in_memory i1 pointer shardsLength →
      __wbindgen_malloc exports shardsAvailableLength
        (copied_in i1 pointer (shards w)) = Some (available, i2) →
      in_memory i2 available shardsAvailableLength →
      let seen := copied_in i2 available (flags (shardsAvailable w)) in
      region seen available shardsAvailableLength = flags (shardsAvailable w)
      ∧ ∃ rest,
          calls (final (reconstruct exports dataShards parityShards w)) =
          calls w ++
            [ (malloc_call shardsLength, Returned pointer);
              (malloc_call shardsAvailableLength, Returned available);
              (reconstruct_call pointer shardsLength dataShards parityShards
                 available shardsAvailableLength,
               engine_outcome
                 (Wasm.reconstruct exports pointer shardsLength
                    dataShards parityShards
                    available shardsAvailableLength seen)) ] ++ rest.
Proof.
  intros shardsLength shardsAvailableLength. split; [|split].
  - apply reconstruct_preserves_shardsAvailable.
  - unfold flags. rewrite <- list_fmap_compose.
    apply list_fmap_ext. by intros _ [] _.
  - intros pointer i1 available i2 Hmalloc Hrange Hmalloc2 Hrange2 seen.
    split.
    + unfold seen, shardsAvailableLength.
      rewrite <- (length_flags (shardsAvailable w)).
      apply region_copied_in. by rewrite length_flags.
    + by apply (reconstruct_reaches_engine exports w _ _ pointer i1
                  available i2).
Qed.

(** Two flags for 2 + 1 shards: the engine is asked, with the length 2, and
    finds the bytes 0 and 1 in the region. *)
Lemma reconstruct_leaves_shardsAvailable_witness :
  region (copied_in
            (copied_in (TestDouble.instantiate 14) 0 Sample.damaged)
            12 [x00; x01]) 12 2
  = [x00; x01]
  ∧ ∃ rest,
      calls (final (reconstruct TestDouble.exports 2 1
                      (TestDouble.start (TestDouble.instantiate 14)
                         Sample.damaged [false; true]))) =
      [ (malloc_call 12, Returned 0); (malloc_call 2, Returned 12);
        (reconstruct_call 0 12 2 1 12 2,
         Returned RESULT_ERROR_INVALID_SHARD_FLAGS) ] ++ rest.
Proof.
  edestruct (reconstruct_leaves_shardsAvailable TestDouble.exports
               (TestDouble.start (TestDouble.instantiate 14)
                  Sample.damaged [false; true]) 2 1)
    as (_ & _ & Hcalled).
  edestruct Hcalled as [Hseen Hlog];
    [vm_compute; reflexivity | vm_compute; split; discriminate
    |vm_compute; reflexivity | vm_compute; split; discriminate |].
  split; [exact Hseen|exact Hlog].
Defined.

(** C10.  Where [window] or [self] is defined, [fromCurrentDirectorySync]
    throws an [Error] and leaves the realm as it was: no handle is
    constructed and no file is read.  Where neither is defined (Node.js), it
    reads [reed_solomon_erasure_bg.wasm] from the directory of the module,
    and, the file being there and a valid binary, returns a handle that did
    not exist before, on the exports of the new instance, with an empty
    memory cache. *)
Theorem fromCurrentDirectorySync_by_environment {Exports : Type}
    (host : Factory.Host Exports) (r : Factory.Realm Exports) :
  let wasmPath :=
    (Factory.__dirname host +:+ "/reed_solomon_erasure_bg.wasm")%string in
  (Factory.window_defined host = true ∨ Factory.self_defined host = true →
   ∃ message,
     Factory.fromCurrentDirectorySync host r = Throw (Error message) r)
  ∧ (Factory.window_defined host = false ∧ Factory.self_defined host = false →
     Factory.reads (final (Factory.fromCurrentDirectorySync host r))
     = Factory.reads r ++ [wasmPath]
     ∧ ∀ wasmBytes exports,
         Factory.readFileSync host wasmPath = Some wasmBytes →
         Factory.instantiate host wasmBytes = Some exports →
         ∃ handle,
           Factory.fromCurrentDirectorySync host r
           = Normal handle
               {| Factory.constructed := Factory.constructed r ++ [handle];
                  Factory.reads := Factory.reads r ++ [wasmPath] |}
           ∧ Factory.handle_id handle = length (Factory.constructed r)
           ∧ Factory.exports handle = exports
           ∧ Factory.memoryCache handle = None).
Proof.
  intros wasmPath. unfold Factory.fromCurrentDirectorySync, Factory.isBrowser.
  split.
  - intros Hbrowser.
    assert (Factory.window_defined host || Factory.self_defined host = true)
      as -> by (apply orb_true_iff; tauto).
    by eexists.
  - intros [-> ->]. simpl. fold wasmPath.
    unfold mbind, Op_bind, Factory.loadWasmBytesSyncNode, Factory.fromBytes.
    split.
    + destruct (Factory.readFileSync host wasmPath) as [wasmBytes|];
        [|done]. simpl.
      by destruct (Factory.instantiate host wasmBytes).
    + intros wasmBytes exports -> Hinstantiate. simpl.
      rewrite Hinstantiate. by eexists.
Qed.

Lemma fromCurrentDirectorySync_by_environment_witness :
  (∃ message,
     Factory.fromCurrentDirectorySync Sample.worker Sample.realm
     = Throw (Error message) Sample.realm)
  ∧ ∃ handle,
      Factory.fromCurrentDirectorySync Sample.node Sample.realm
      = Normal handle
          {| Factory.constructed := [handle];
             Factory.reads := [Sample.installed] |}
      ∧ Factory.handle_id handle = 0%nat
      ∧ Factory.exports handle = TestDouble.exports
      ∧ Factory.memoryCache handle = None.
Proof.
  split.
  - apply (fromCurrentDirectorySync_by_environment Sample.worker Sample.realm).
    right. reflexivity.
  - destruct (fromCurrentDirectorySync_by_environment Sample.node Sample.realm)
      as [_ Hnode].
    destruct Hnode as [_ Hhandle]; [split; reflexivity|].
    apply (Hhandle Sample.binary TestDouble.exports); reflexivity.
Defined.

(** * Further properties of the singleton *)

(** X1.  Along any sequence of calls of [getInstance] and settlements, an
    instantiation that is in flight is the only one, and every call made
    meanwhile starts nothing and returns the promise of that one. *)
Theorem one_instantiation_in_flight (isBrowser : bool)
    (events : list Singleton.Event) (promise : nat) :
  let r := Singleton.run isBrowser events in
  Singleton.pending r promise →
  (∀ other, Singleton.pending r other → other = promise)
  ∧ ∀ wasmUrl,
      Singleton.getInstance isBrowser wasmUrl r
      = (Singleton.follows promise, r).
Proof.
  intros r Hpending.
  destruct (consistent_run isBrowser events) as [Hconsistent _].
  fold r in Hconsistent.
  destruct (Hconsistent promise Hpending) as (Hloading & Hcached & _).
  split.
  - intros other Hother.
    destruct (Hconsistent other Hother) as (Hloading' & _). congruence.
  - intros wasmUrl. by apply getInstance_loading.
Qed.

Lemma one_instantiation_in_flight_witness :
  Singleton.getInstance true (Some "/rs.wasm"%string)
    (Singleton.run true [Singleton.called None; Singleton.called None])
  = (Singleton.follows 0%nat,
     Singleton.run true [Singleton.called None; Singleton.called None]).
Proof.
  apply (one_instantiation_in_flight true
           [Singleton.called None; Singleton.called None] 0%nat).
  by eexists.
Defined.

(** X2.  When the instantiation in flight fulfils, its handle is cached, the
    marker is cleared, nothing is in flight, and every later call returns
    the cached handle. *)
Theorem fulfilment_caches_handle (isBrowser : bool)
    (events : list Singleton.Event) (promise value : nat) :
  let r := Singleton.run isBrowser events in
  let r' := Singleton.settle promise (Singleton.Fulfilled value) r in
  Singleton.pending r promise →
  Singleton.cachedInstance r' = Some value
  ∧ Singleton.loadingPromise r' = None
  ∧ (∀ other, ¬ Singleton.pending r' other)
  ∧ ∀ wasmUrl,
      Singleton.getInstance isBrowser wasmUrl r'
      = (Singleton.resolved value, r').
Proof.
  intros r r' Hpending.
  pose proof (consistent_run isBrowser events) as Hconsistent.
  fold r in Hconsistent.
  assert (Hr' : r' = Singleton.resume (Singleton.Fulfilled value)
                       {| Singleton.cachedInstance := None;
                          Singleton.loadingPromise := Some promise;
                          Singleton.instantiations :=
                            alter (λ s, (s.1, Singleton.Fulfilled value))
                              promise (Singleton.instantiations r);
                          Singleton.suspended := [] |})
    by (by apply settle_pending).
  repeat split.
  - by rewrite Hr'.
  - by rewrite Hr'.
  - intros other. by apply not_pending_settled.
  - intros wasmUrl. apply getInstance_cached. by rewrite Hr'.
Qed.

Lemma fulfilment_caches_handle_witness :
  Singleton.getInstance false None
    (Singleton.settle 0%nat (Singleton.Fulfilled 7%nat)
       (Singleton.run false [Singleton.called None]))
  = (Singleton.resolved 7%nat,
     Singleton.settle 0%nat (Singleton.Fulfilled 7%nat)
       (Singleton.run false [Singleton.called None])).
Proof.
  apply (fulfilment_caches_handle false [Singleton.called None] 0%nat 7%nat).
  by eexists.
Defined.

(** X3.  [clearInstance] forgets the handle and the marker: the next call
    of [getInstance] starts a new instantiation, whatever was cached or
    loading before. *)
Theorem clearInstance_forces_reload (isBrowser : bool)
    (wasmUrl : option string) (r : Singleton.Realm) :
  let started := length (Singleton.instantiations r) in
  let r' := (Singleton.getInstance isBrowser wasmUrl
               (Singleton.clearInstance r)).2 in
  Singleton.getInstance isBrowser wasmUrl (Singleton.clearInstance r)
  = (Singleton.awaits started, r')
  ∧ Singleton.loadingPromise r' = Some started
  ∧ Singleton.pending r' started.
Proof.
  intros started r'. repeat split.
  exists (Singleton.source isBrowser wasmUrl). subst r' started. simpl.
  rewrite lookup_app_r by lia. by rewrite Nat.sub_diag.
Qed.

(** * Further properties of the adapter *)

(** ** Calls that throw, case by case *)

Lemma set_inl target source offset e :
  JS.set target source offset = inl e → e = RangeError.
Proof.
  unfold JS.set.
  destruct (ToIntegerOrInfinity offset) as [|o|]; [congruence| |congruence].
  repeat case_match; congruence.
Qed.

Section ThrowCases.
Context {St : Type} (exports : IWasm St).
Implicit Types w : State St.

(** A call of [encode] that throws: a copy did not fit, and [shards] is as
    it was; or an export trapped, and [shards] is as it was unless the
    engine had returned [RESULT_OK] before. *)
Lemma encode_throw_cases w dataShards parityShards e w' :
  encode exports dataShards parityShards w = Throw e w' →
  (e = RangeError ∧ shards w' = shards w)
  ∨ (e = RuntimeError
     ∧ ∃ call log,
         calls w' = log ++ [(call, Trapped)]
         ∧ (shards w' = shards w
            ∨ ∃ pointer,
                (encode_call pointer (Z.of_nat (length (shards w)))
                   dataShards parityShards, Returned RESULT_OK) ∈ log)).
Proof.
  unfold encode. unfold mbind at 1, Op_bind at 1, gets.
  unfold mbind at 1, Op_bind at 1, invoke at 1.
  destruct (__wbindgen_malloc _ _ _) as [[pointer i1]|] eqn:Hmalloc.
  2:{ simpl. intros [= <- <-]. right. split; [done|]. eexists _, _.
      split; [reflexivity|by left]. }
  rewrite copy_in_bind. tidy.
  destruct (JS.set (buffer_bytes (memory i1)) _ _) as [|m1] eqn:Hin.
  { simpl. intros [= <- <-]. left. apply set_inl in Hin. by tidy. }
  unfold mbind at 1, Op_bind at 1, invoke at 1. tidy.
  destruct (Wasm.encode _ _ _ _ _ _) as [[r i2]|] eqn:Hengine.
  2:{ simpl. intros [= <- <-]. right. split; [done|]. eexists _, _. tidy.
      split; [reflexivity|by left]. }
  unfold mbind at 1, Op_bind at 1.
  case_decide as Hr.
  - rewrite copy_out_bind. unfold shards_set at 1. tidy.
    destruct (JS.set (shards w) _ _) as [|out] eqn:Hout.
    { simpl. intros [= <- <-]. left. apply set_inl in Hout. by tidy. }
    unfold mbind at 1, Op_bind at 1, invoke_void at 1. tidy.
    destruct (__wbindgen_free _ _ _ _) as [i3|] eqn:Hfree; [done|].
    simpl. intros [= <- <-]. right. split; [done|]. eexists _, _. tidy.
    split; [reflexivity|]. right. exists pointer. subst r.
    apply elem_of_app. right. by constructor.
  - unfold mret at 1, Op_ret at 1.
    unfold mbind at 1, Op_bind at 1, invoke_void at 1. tidy.
    destruct (__wbindgen_free _ _ _ _) as [i3|] eqn:Hfree; [done|].
    simpl. intros [= <- <-]. right. split; [done|]. eexists _, _. tidy.
    split; [reflexivity|by left].
Qed.

(** The same for [reconstruct]. *)
Lemma reconstruct_throw_cases w dataShards parityShards e w' :
  reconstruct exports dataShards parityShards w = Throw e w' →
  (e = RangeError ∧ shards w' = shards w)
  ∨ (e = RuntimeError
     ∧ ∃ call log,
         calls w' = log ++ [(call, Trapped)]
         ∧ (shards w' = shards w
            ∨ ∃ pointer available,
                (reconstruct_call pointer (Z.of_nat (length (shards w)))
                   dataShards parityShards
                   available (Z.of_nat (length (shardsAvailable w))),
                 Returned RESULT_OK) ∈ log)).
Proof.
  unfold reconstruct. unfold mbind at 1, Op_bind at 1, gets.
  unfold mbind at 1, Op_bind at 1, invoke at 1.
  destruct (__wbindgen_malloc _ _ _) as [[pointer i1]|] eqn:Hmalloc.
  2:{ simpl. intros [= <- <-]. right. split; [done|]. eexists _, _.
      split; [reflexivity|by left]. }
  rewrite copy_in_bind. tidy.
  destruct (JS.set (buffer_bytes (memory i1)) _ _) as [|m1] eqn:Hin.
  { simpl. intros [= <- <-]. left. apply set_inl in Hin. by tidy. }
  unfold mbind at 1, Op_bind at 1, gets. tidy.
  unfold mbind at 1, Op_bind at 1, invoke at 1. tidy.
  destruct (__wbindgen_malloc _ _ (store _ _)) as [[available i2]|]
    eqn:Hmalloc2.
  2:{ simpl. intros [= <- <-]. right. split; [done|]. eexists _, _. tidy.
      split; [reflexivity|by left]. }
  rewrite copy_in_bind. tidy.
  destruct (JS.set (buffer_bytes (memory i2)) _ _) as [|m2] eqn:Hin2.
  { simpl. intros [= <- <-]. left. apply set_inl in Hin2. by tidy. }
  unfold mbind at 1, Op_bind at 1, invoke at 1. tidy.
  destruct (Wasm.reconstruct _ _ _ _ _ _ _ _) as [[r i3]|] eqn:Hengine.
  2:{ simpl. intros [= <- <-]. right. split; [done|]. eexists _, _. tidy.
      split; [reflexivity|by left]. }
  unfold mbind at 1, Op_bind at 1.
  case_decide as Hr.
  - rewrite copy_out_bind. unfold shards_set at 1. tidy.
    destruct (JS.set (shards w) _ _) as [|out] eqn:Hout.
    { simpl. intros [= <- <-]. left. apply set_inl in Hout. by tidy. }
    unfold mbind at 1, Op_bind at 1, invoke_void at 1. tidy.
    destruct (__wbindgen_free _ _ _ _) as [i4|] eqn:Hfree.
    2:{ simpl. intros [= <- <-]. right. split; [done|]. eexists _, _. tidy.
        split; [reflexivity|]. right. exists pointer, available. subst r.
        apply elem_of_app. right. by constructor. }
    unfold mbind at 1, Op_bind at 1, invoke_void at 1. tidy.
    destruct (__wbindgen_free _ _ _ i4) as [i5|] eqn:Hfree2; [done|].
    simpl. intros [= <- <-]. right. split; [done|]. eexists _, _. tidy.
    split; [reflexivity|]. right. exists pointer, available. subst r.
    apply elem_of_app. left. apply elem_of_app. right. by constructor.
  - unfold mret at 1, Op_ret at 1.
    unfold mbind at 1, Op_bind at 1, invoke_void at 1. tidy.
    destruct (__wbindgen_free _ _ _ _) as [i4|] eqn:Hfree.
    2:{ simpl. intros [= <- <-]. right. split; [done|]. eexists _, _. tidy.
        split; [reflexivity|by left]. }
    unfold mbind at 1, Op_bind at 1, invoke_void at 1. tidy.
    destruct (__wbindgen_free _ _ _ i4) as [i5|] eqn:Hfree2; [done|].
    simpl. intros [= <- <-]. right. split; [done|]. eexists _, _. tidy.
    split; [reflexivity|by left].
Qed.

End ThrowCases.

(** X4.  A call of [encode] or [reconstruct] that throws, throws one of two
    things: the RangeError of a copy that does not fit, raised before the
    copy writes anything, so that [shards] is as the caller supplied it; or
    the RuntimeError of an export that trapped, which is then the last call
    recorded.  It never throws the TypeError of a detached view, whatever
    the engine does to its memory. *)
Theorem marshaling_throws_range_or_trap {St : Type} (exports : IWasm St)
    (w : State St) (dataShards parityShards : Z)
    (e : exception) (w' : State St) :
  encode exports dataShards parityShards w = Throw e w'
  ∨ reconstruct exports dataShards parityShards w = Throw e w' →
  (e = RangeError ∧ shards w' = shards w)
  ∨ (e = RuntimeError ∧ ∃ call log, calls w' = log ++ [(call, Trapped)]).
Proof.
  intros [Hrun|Hrun].
  - destruct (encode_throw_cases exports _ _ _ _ _ Hrun)
      as [?|(-> & call & log & Hcalls & _)]; [by left|right; eauto].
  - destruct (reconstruct_throw_cases exports _ _ _ _ _ Hrun)
      as [?|(-> & call & log & Hcalls & _)]; [by left|right; eauto].
Qed.

Lemma marshaling_throws_range_or_trap_witness :
  ∃ call log,
    calls (final (encode TestDouble.exports 1 256
                    (Sample.state Sample.buffer [])))
    = log ++ [(call, Trapped)].
Proof.
  destruct (marshaling_throws_range_or_trap TestDouble.exports
              (Sample.state Sample.buffer []) 1 256 RuntimeError
              (final (encode TestDouble.exports 1 256
                        (Sample.state Sample.buffer []))))
    as [[Hrange _]|[_ Htrap]];
    [left; vm_compute; reflexivity|discriminate Hrange|exact Htrap].
Defined.

(** X5.  However a call of [encode] or [reconstruct] ends, by a return or by
    an exception, it has written to the caller's [shards] only if the
    engine's [encode], or [reconstruct], returned [RESULT_OK] in it. *)
Theorem shards_written_only_on_success {St : Type} (exports : IWasm St)
    (w : State St) (dataShards parityShards : Z) :
  (shards (final (encode exports dataShards parityShards w)) ≠ shards w →
   ∃ pointer,
     (encode_call pointer (Z.of_nat (length (shards w)))
        dataShards parityShards, Returned RESULT_OK)
     ∈ calls (final (encode exports dataShards parityShards w)))
  ∧ (shards (final (reconstruct exports dataShards parityShards w))
     ≠ shards w →
     ∃ pointer available,
       (reconstruct_call pointer (Z.of_nat (length (shards w)))
          dataShards parityShards
          available (Z.of_nat (length (shardsAvailable w))),
        Returned RESULT_OK)
       ∈ calls (final (reconstruct exports dataShards parityShards w))).
Proof.
  split.
  - destruct (encode exports dataShards parityShards w) as [r w'|e w'] eqn:Hrun;
      simpl; intros Hwritten.
    + destruct (encode_inversion exports _ _ _ _ _ Hrun)
        as (pointer & i1 & i2 & Htrace).
      pose proof (encode_out _ _ _ _ _ _ _ _ _ Htrace) as Hout.
      case_decide as Hr; [subst r|done].
      exists pointer. rewrite (encode_calls _ _ _ _ _ _ _ _ _ Htrace).
      apply elem_of_app. right. by do 2 constructor.
    + destruct (encode_throw_cases exports _ _ _ _ _ Hrun)
        as [[_ ?]|(_ & call & log & -> & [?|[pointer Hin]])]; try done.
      exists pointer. apply elem_of_app. by left.
  - destruct (reconstruct exports dataShards parityShards w)
      as [r w'|e w'] eqn:Hrun; simpl; intros Hwritten.
    + destruct (reconstruct_inversion exports _ _ _ _ _ Hrun)
        as (pointer & i1 & available & i2 & i3 & Htrace).
      pose proof (reconstruct_out _ _ _ _ _ _ _ _ _ _ _ Htrace) as Hout.
      case_decide as Hr; [subst r|done].
      exists pointer, available.
      rewrite (reconstruct_calls _ _ _ _ _ _ _ _ _ _ _ Htrace).
      apply elem_of_app. right. by do 3 constructor.
    + destruct (reconstruct_throw_cases exports _ _ _ _ _ Hrun)
        as [[_ ?]|(_ & call & log & -> & [?|(pointer & available & Hin)])];
        try done.
      exists pointer, available. apply elem_of_app. by left.
Qed.

Lemma shards_written_only_on_success_witness :
  ∃ pointer,
    (encode_call pointer 12 2 1, Returned RESULT_OK)
    ∈ calls (final (encode TestDouble.exports 2 1
                      (Sample.state Sample.buffer []))).
Proof.
  apply (shards_written_only_on_success TestDouble.exports
           (Sample.state Sample.buffer []) 2 1).
  vm_compute. discriminate.
Defined.

(** ** What the adapter writes to the engine memory *)

Lemma copied_in_within {St} (i : Instance St) pointer source :
  in_memory i pointer (Z.of_nat (length source)) →
  written_within i (copied_in i pointer source)
    pointer (Z.of_nat (length source))
  ∧ region (copied_in i pointer source) pointer (Z.of_nat (length source))
    = source.
Proof.
  intros Hin. split; [|by apply region_copied_in].
  destruct Hin as [Hlo Hhi]. unfold written_within, copied_in. simpl.
  repeat split.
  - apply length_inserts.
  - intros j [Hj|Hj].
    + apply list_lookup_inserts_lt. lia.
    + apply list_lookup_inserts_ge. lia.
Qed.

(** One byte for each flag: 1 for an available shard, 0 for a missing one. *)
Lemma flags_bytes (available : list bool) :
  flags available = (λ value : bool, if value then x01 else x00) <$> available.
Proof.
  unfold flags. rewrite <- list_fmap_compose.
  apply list_fmap_ext. by intros _ [] _.
Qed.

(** X6.  In a call of [encode] that returns, the engine's [encode] runs on
    the instance that [__wbindgen_malloc] left, changed in one way only: the
    region handed out holds the bytes of [shards].  No byte outside the
    region is written, the buffer object and its length are the same, and
    what the engine leaves goes to [__wbindgen_free] as it is. *)
Theorem encode_writes_within_region {St : Type} (exports : IWasm St)
    (w : State St) (dataShards parityShards result : Z) (w' : State St) :
  encode exports dataShards parityShards w = Normal result w' →
  let shardsLength := Z.of_nat (length (shards w)) in
  ∃ pointer i1 entered i2,
    __wbindgen_malloc exports shardsLength (instance w) = Some (pointer, i1)
    ∧ written_within i1 entered pointer shardsLength
    ∧ region entered pointer shardsLength = shards w
    ∧ Wasm.encode exports pointer shardsLength dataShards parityShards entered
      = Some (result, i2)
    ∧ __wbindgen_free exports pointer shardsLength i2 = Some (instance w').
Proof.
  intros Hrun shardsLength.
  destruct (encode_inversion exports _ _ _ _ _ Hrun)
    as (pointer & i1 & i2 & Htrace).
  destruct Htrace as [Hmalloc Hin Hengine _ Hfree _ _].
  destruct (copied_in_within _ _ _ Hin) as [Hwithin Hregion].
  by exists pointer, i1, (copied_in i1 pointer (shards w)), i2.
Qed.

Lemma encode_writes_within_region_witness :
  ∃ pointer i1 entered i2,
    TestDouble.malloc 12 (TestDouble.instantiate 4) = Some (pointer, i1)
    ∧ written_within i1 entered pointer 12
    ∧ region entered pointer 12 = Sample.buffer
    ∧ TestDouble.encode pointer 12 2 1 entered = Some (0, i2).
Proof.
  destruct (encode_writes_within_region TestDouble.exports
              (Sample.state Sample.buffer []) 2 1 0
              (final (encode TestDouble.exports 2 1
                        (Sample.state Sample.buffer []))))
    as (pointer & i1 & entered & i2 & H1 & H2 & H3 & H4 & _);
    [vm_compute; reflexivity|].
  by exists pointer, i1, entered, i2.
Defined.

(** X7.  In a call of [reconstruct] that returns, the adapter writes to the
    engine memory twice and only inside the two regions handed out: the
    bytes of [shards] into the first, then one byte per entry of
    [shardsAvailable] into the second, 1 for [true] and 0 for [false].  Each export runs on what the export
    before it left, changed by these two copies only. *)
Theorem reconstruct_writes_within_regions {St : Type} (exports : IWasm St)
    (w : State St) (dataShards parityShards result : Z) (w' : State St) :
  reconstruct exports dataShards parityShards w = Normal result w' →
  let shardsLength := Z.of_nat (length (shards w)) in
  let shardsAvailableLength := Z.of_nat (length (shardsAvailable w)) in
  ∃ pointer i1 filled available i2 entered i3 i4,
    __wbindgen_malloc exports shardsLength (instance w) = Some (pointer, i1)
    ∧ written_within i1 filled pointer shardsLength
    ∧ region filled pointer shardsLength = shards w
    ∧ __wbindgen_malloc exports shardsAvailableLength filled
      = Some (available, i2)
    ∧ written_within i2 entered available shardsAvailableLength
    ∧ region entered available shardsAvailableLength
      = (λ value : bool, if value then x01 else x00) <$> shardsAvailable w
    ∧ Wasm.reconstruct exports pointer shardsLength dataShards parityShards
        available shardsAvailableLength entered
      = Some (result, i3)
    ∧ __wbindgen_free exports pointer shardsLength i3 = Some i4
    ∧ __wbindgen_free exports available shardsAvailableLength i4
      = Some (instance w').
Proof.
  intros Hrun shardsLength shardsAvailableLength.
  destruct (reconstruct_inversion exports _ _ _ _ _ Hrun)
    as (pointer & i1 & available & i2 & i3 & Htrace).
  destruct Htrace
    as [Hmalloc Hin Hmalloc2 Hin2 Hengine _ (i4 & Hfree & Hfree2) _ _].
  destruct (copied_in_within _ _ _ Hin) as [Hwithin Hregion].
  rewrite <- length_flags in Hin2.
  destruct (copied_in_within _ _ _ Hin2) as [Hwithin2 Hregion2].
  rewrite length_flags in Hwithin2, Hregion2.
  rewrite (flags_bytes (shardsAvailable w)) in Hregion2 at 2.
  by exists pointer, i1, (copied_in i1 pointer (shards w)), available, i2,
    (copied_in i2 available (flags (shardsAvailable w))), i3, i4.
Qed.

Lemma reconstruct_writes_within_regions_witness :
  ∃ available (i2 entered : Instance TestDouble.Live),
    written_within i2 entered available 3
    ∧ region entered available 3 = [x00; x01; x01].
Proof.
  destruct (reconstruct_writes_within_regions TestDouble.exports
              (Sample.state Sample.damaged [false; true; true]) 2 1 0
              (final (reconstruct TestDouble.exports 2 1
                        (Sample.state Sample.damaged [false; true; true]))))
    as (pointer & i1 & filled & available & i2 & entered & i3 & i4
        & _ & _ & _ & _ & H5 & H6 & _);
    [vm_compute; reflexivity|].
  by exists available, i2, entered.
Defined.

(** ** The cached view *)

Section CacheFacts.
Context {St : Type}.
Implicit Types w : State St.

Lemma owed_current view w : current view w → owed w = 0%nat.
Proof. intros [Hcache Hbuffer]. unfold owed. by rewrite Hcache, decide_True. Qed.

Lemma owed_le w : (owed w ≤ 1)%nat.
Proof. unfold owed. repeat case_match; lia. Qed.

Lemma reuses_bind {A B} (c : Op (State St) A) (k : A → Op (State St) B) :
  reuses c → (∀ a, reuses (k a)) → reuses (c ≫= k).
Proof.
  intros Hc Hk view w Hw. unfold mbind, Op_bind.
  specialize (Hc view w Hw).
  destruct (c w) as [a w1|e w1]; simpl in *; [|done].
  by apply Hk.
Qed.

Lemma makes_bind {A B} n m
    (c : Op (State St) A) (k : A → Op (State St) B) :
  makes n c → (∀ a, makes m (k a)) → makes (n + m) (c ≫= k).
Proof.
  intros Hc Hk w. unfold mbind, Op_bind. specialize (Hc w).
  destruct (c w) as [a w1|e w1]; simpl in *; [|lia].
  specialize (Hk a w1). lia.
Qed.

Lemma makes_more {A} n m (c : Op (State St) A) :
  makes n c → (n ≤ m)%nat → makes m c.
Proof. intros Hc Hle w. specialize (Hc w). lia. Qed.

Lemma reuses_ret {A} (a : A) : reuses (St := St) (mret a).
Proof. by intros view w. Qed.

Lemma makes_ret {A} (a : A) : makes (St := St) 0 (mret a).
Proof. intros w. simpl. lia. Qed.

Lemma reuses_gets {A} (g : State St → A) : reuses (gets g).
Proof. by intros view w. Qed.

Lemma makes_gets {A} (g : State St → A) : makes 0 (gets g).
Proof. intros w. simpl. lia. Qed.

Lemma reuses_getUint8Memory : reuses (St := St) getUint8Memory.
Proof.
  intros view w [Hcache Hbuffer]. unfold getUint8Memory. rewrite Hcache.
  by rewrite decide_False by (intros H; by apply H).
Qed.

(** [getUint8Memory] makes the view that is owed, and no other. *)
Lemma makes_getUint8Memory : makes (St := St) 0 getUint8Memory.
Proof.
  intros w. unfold getUint8Memory.
  destruct (memoryCache w) as [cached|] eqn:Hcache.
  - destruct (decide (view_buffer cached = buffer_id (memory (instance w))))
      as [Hsame|Hother].
    + rewrite decide_False by tauto. simpl. lia.
    + rewrite decide_True by done. unfold owed. simpl.
      rewrite Hcache, decide_True, decide_False by done. lia.
  - unfold owed. simpl. rewrite Hcache, decide_True by done. lia.
Qed.

Lemma reuses_view_set view source offset :
  reuses (St := St) (view_set view source offset).
Proof.
  intros v w Hw. unfold view_set. case_decide; [|done].
  by destruct (JS.set _ _ _).
Qed.

Lemma makes_view_set view source offset :
  makes (St := St) 0 (view_set view source offset).
Proof.
  intros w. unfold view_set. case_decide; [|simpl; lia].
  destruct (JS.set _ _ _); simpl; unfold owed; simpl; lia.
Qed.

Lemma reuses_view_subarray view start end_ :
  reuses (St := St) (view_subarray view start end_).
Proof. intros v w Hw. unfold view_subarray. by case_decide. Qed.

(** [subarray] makes a view of its own. *)
Lemma makes_view_subarray view start end_ :
  makes (St := St) 1 (view_subarray view start end_).
Proof.
  intros w. unfold view_subarray. case_decide; simpl; unfold owed; simpl; lia.
Qed.

Lemma reuses_shards_set source offset :
  reuses (St := St) (shards_set source offset).
Proof. intros v w Hw. unfold shards_set. by destruct (JS.set _ _ _). Qed.

Lemma makes_shards_set source offset :
  makes (St := St) 0 (shards_set source offset).
Proof.
  intros w. unfold shards_set.
  destruct (JS.set _ _ _); simpl; unfold owed; simpl; lia.
Qed.

Lemma reuses_invoke e run :
  (∀ i value i', run i = Some (value, i') →
     buffer_id (memory i') = buffer_id (memory i)) →
  reuses (St := St) (invoke e run).
Proof.
  intros Hrun v w [Hcache Hbuffer]. unfold invoke.
  destruct (run _) as [[value i]|] eqn:Hi; simpl; [|done].
  apply Hrun in Hi. unfold current. simpl. split; congruence.
Qed.

Lemma makes_invoke e run :
  (∀ i value i', run i = Some (value, i') →
     buffer_id (memory i') = buffer_id (memory i)) →
  makes (St := St) 0 (invoke e run).
Proof.
  intros Hrun w. unfold invoke.
  destruct (run _) as [[value i]|] eqn:Hi; simpl; unfold owed; simpl;
    [|lia].
  apply Hrun in Hi. rewrite Hi. lia.
Qed.

Lemma reuses_invoke_void e run :
  (∀ i i', run i = Some i' →
     buffer_id (memory i') = buffer_id (memory i)) →
  reuses (St := St) (invoke_void e run).
Proof.
  intros Hrun v w [Hcache Hbuffer]. unfold invoke_void.
  destruct (run _) as [i|] eqn:Hi; simpl; [|done].
  apply Hrun in Hi. unfold current. simpl. split; congruence.
Qed.

Lemma makes_invoke_void e run :
  (∀ i i', run i = Some i' →
     buffer_id (memory i') = buffer_id (memory i)) →
  makes (St := St) 0 (invoke_void e run).
Proof.
  intros Hrun w. unfold invoke_void.
  destruct (run _) as [i|] eqn:Hi; simpl; unfold owed; simpl; [|lia].
  apply Hrun in Hi. rewrite Hi. lia.
Qed.

End CacheFacts.

Ltac reuse exports Hkeeps :=
  repeat first
    [ apply reuses_bind; [|intros ?]
    | case_decide
    | apply reuses_ret | apply reuses_gets | apply reuses_getUint8Memory
    | apply reuses_view_set | apply reuses_view_subarray
    | apply reuses_shards_set
    | apply reuses_invoke_void; intros ? ?;
        apply (keeps_buffer_free exports Hkeeps)
    | apply reuses_invoke; intros ? ? ?;
        first [ apply (keeps_buffer_malloc exports Hkeeps)
              | apply (keeps_buffer_encode exports Hkeeps)
              | apply (keeps_buffer_reconstruct exports Hkeeps) ] ].

(** A step that makes no view of its own. *)
Ltac step exports Hkeeps :=
  first
    [ apply makes_ret | apply makes_gets | apply makes_getUint8Memory
    | apply makes_view_set | apply makes_shards_set
    | apply makes_invoke_void; intros ? ?;
        apply (keeps_buffer_free exports Hkeeps)
    | apply makes_invoke; intros ? ? ?;
        first [ apply (keeps_buffer_malloc exports Hkeeps)
              | apply (keeps_buffer_encode exports Hkeeps)
              | apply (keeps_buffer_reconstruct exports Hkeeps) ] ].

(** The copy-out, or nothing: one view, of [subarray]. *)
Ltac copy_out exports Hkeeps :=
  case_decide;
    [ apply (makes_bind 0 1); [step exports Hkeeps|intros ?];
      apply (makes_bind 1 0); [apply makes_view_subarray|intros ?];
      step exports Hkeeps
    | apply (makes_more 0); [apply makes_ret|lia] ].

Ltac count exports Hkeeps :=
  repeat first
    [ apply (makes_bind 0 1); [step exports Hkeeps|intros ?]
    | apply (makes_bind 1 0); [copy_out exports Hkeeps|intros ?]
    | apply (makes_bind 0 0); [step exports Hkeeps|intros ?]
    | step exports Hkeeps ].

Section CacheUse.
Context {St : Type} (exports : IWasm St).

Lemma encode_reuses dataShards parityShards :
  keeps_buffer exports → reuses (encode exports dataShards parityShards).
Proof. intros Hkeeps. unfold encode. reuse exports Hkeeps. Qed.

Lemma reconstruct_reuses dataShards parityShards :
  keeps_buffer exports → reuses (reconstruct exports dataShards parityShards).
Proof. intros Hkeeps. unfold reconstruct. reuse exports Hkeeps. Qed.

Lemma encode_makes dataShards parityShards :
  keeps_buffer exports → makes 1 (encode exports dataShards parityShards).
Proof. intros Hkeeps. unfold encode. count exports Hkeeps. Qed.

Lemma reconstruct_makes dataShards parityShards :
  keeps_buffer exports → makes 1 (reconstruct exports dataShards parityShards).
Proof. intros Hkeeps. unfold reconstruct. count exports Hkeeps. Qed.

End CacheUse.

(** The test double whose allocator never grows its memory keeps its
    buffer. *)
Lemma exports_fixed_keeps_buffer : keeps_buffer TestDouble.exports_fixed.
Proof.
  split; simpl.
  - intros pointer length dataShards parityShards i result i'.
    unfold TestDouble.encode, SpecEngine.encode.
    repeat case_match; intros; simplify_eq/=; try done.
    all: by destruct (TestDouble.reject _ _ _); simplify_eq/=.
  - intros pointer length dataShards parityShards available availableLength
      i result i'.
    unfold TestDouble.reconstruct.
    repeat case_match; intros; simplify_eq/=; try done.
    all: by destruct (TestDouble.reject _ _ _); simplify_eq/=.
  - intros length i pointer i'. unfold TestDouble.malloc_fixed.
    by intros [= <- <-].
  - intros pointer length i i'. unfold TestDouble.free.
    destruct (list_find _ _); intros; by simplify_eq/=.
Qed.

(** X8.  On an engine that never replaces the buffer of its memory, a call
    of [encode] or [reconstruct] on a handle whose cached view is current
    keeps that view cached and makes at most one [Uint8Array], the one that
    [subarray] makes at the copy-out; on any handle it makes at most two,
    that one and the view it caches.  This holds however the call ends. *)
Theorem one_view_per_buffer {St : Type} (exports : IWasm St)
    (w : State St) (dataShards parityShards : Z) (w' : State St) :
  keeps_buffer exports →
  w' = final (encode exports dataShards parityShards w)
  ∨ w' = final (reconstruct exports dataShards parityShards w) →
  (views w' ≤ views w + 2)%nat
  ∧ ∀ view, current view w →
      current view w' ∧ (views w' ≤ views w + 1)%nat.
Proof.
  intros Hkeeps Hw'.
  assert (Hmakes : (views w' + owed w' ≤ views w + owed w + 1)%nat).
  { destruct Hw' as [-> | ->];
      [by apply encode_makes|by apply reconstruct_makes]. }
  assert (Hreuses : ∀ view, current view w → current view w').
  { intros view.
    destruct Hw' as [-> | ->];
      [by apply encode_reuses|by apply reconstruct_reuses]. }
  split.
  - pose proof (owed_le w). lia.
  - intros view Hview. split; [by apply Hreuses|].
    rewrite (owed_current view w Hview) in Hmakes. lia.
Qed.

Lemma one_view_per_buffer_witness :
  (views (final (encode TestDouble.exports_fixed 2 1
                   (TestDouble.start (TestDouble.instantiate 16)
                      Sample.buffer []))) ≤ 2)%nat.
Proof.
  destruct (one_view_per_buffer TestDouble.exports_fixed
              (TestDouble.start (TestDouble.instantiate 16) Sample.buffer [])
              2 1 _ exports_fixed_keeps_buffer (or_introl eq_refl))
    as [Hviews _].
  exact Hviews.
Defined.

(** ** Result messages *)

Lemma getResultMessage_known code :
  0 ≤ code ≤ 13 → code ∈ (Z.of_nat <$> seq 0 14).
Proof.
  intros Hcode. apply list_elem_of_fmap. exists (Z.to_nat code).
  split; [lia|]. apply elem_of_seq. lia.
Qed.

Lemma getResultMessage_unknown code :
  ¬ 0 ≤ code ≤ 13 →
  getResultMessage code = "Unknown error code: " +:+ NumberToString code.
Proof.
  intros Hcode.
  assert (Hnone : messages !! code = None).
  { apply not_elem_of_list_to_map_1. simpl.
    rewrite !elem_of_cons, elem_of_nil. lia. }
  unfold getResultMessage. by rewrite Hnone.
Qed.

(** X9.  [getResultMessage] gives different messages for different codes,
    for integer codes that a Number holds exactly: the fourteen documented
    messages differ from one another, none of them starts like the generic
    message, and the generic message ends in the decimal code.  The code can
    be told from the message. *)
Theorem getResultMessage_injective (code code' : Z) :
  Z.abs code < 2 ^ 53 → Z.abs code' < 2 ^ 53 →
  getResultMessage code = getResultMessage code' → code = code'.
Proof.
  intros _ _.
  assert (Hknown :
    Forall (λ a, Forall (λ b, getResultMessage a = getResultMessage b → a = b)
                   (Z.of_nat <$> seq 0 14)
                 ∧ String.prefix "Unknown error code: " (getResultMessage a)
                   = false)
      (Z.of_nat <$> seq 0 14)).
  { apply (proj1 (bool_decide_eq_true _)). vm_compute. reflexivity. }
  rewrite Forall_forall in Hknown.
  assert (Hprefix : ∀ s, String.prefix "Unknown error code: "
                           ("Unknown error code: " +:+ s) = true).
  { intros s. by destruct s. }
  destruct (decide (0 ≤ code ≤ 13)) as [Hc|Hc];
    destruct (decide (0 ≤ code' ≤ 13)) as [Hc'|Hc'].
  - destruct (Hknown code (getResultMessage_known _ Hc)) as [Hall _].
    rewrite Forall_forall in Hall. by apply Hall, getResultMessage_known.
  - destruct (Hknown code (getResultMessage_known _ Hc)) as [_ Hno].
    intros Heq. rewrite Heq, getResultMessage_unknown, Hprefix in Hno by done.
    discriminate.
  - destruct (Hknown code' (getResultMessage_known _ Hc')) as [_ Hno].
    intros Heq.
    rewrite <- Heq, getResultMessage_unknown, Hprefix in Hno by done.
    discriminate.
  - rewrite !getResultMessage_unknown by done.
    intros Heq. apply (inj _) in Heq. by apply (inj pretty) in Heq.
Qed.

Lemma getResultMessage_injective_witness :
  getResultMessage (-1) = getResultMessage (2 - 3) ∧ -1 = 2 - 3.
Proof.
  split; [reflexivity|].
  apply (getResultMessage_injective (-1) (2 - 3)); reflexivity.
Defined.

(** * Further properties of the factories *)

(** ** Paths *)

Section TextFacts.
Import Text.

Lemma split_cons separator s :
  ∃ first others, split separator s = first :: others.
Proof.
  destruct s as [|c rest]; simpl; [eauto|].
  case_decide; [eauto|]. destruct (split separator rest); eauto.
Qed.

Lemma split_without separator s :
  separator ∉ String.list_ascii_of_string s → split separator s = [s].
Proof.
  induction s as [|c rest IH]; simpl; [done|].
  rewrite not_elem_of_cons. intros [Hc Hrest].
  rewrite decide_False by done. by rewrite IH.
Qed.

Lemma split_app separator dir file :
  separator ∉ String.list_ascii_of_string file →
  split separator (dir +:+ String separator file)
  = split separator dir ++ [file].
Proof.
  intros Hfile. induction dir as [|c rest IH]; simpl.
  - rewrite decide_True by done. by rewrite split_without.
  - case_decide; [by rewrite IH|].
    rewrite IH. by destruct (split_cons separator rest) as (f & o & ->).
Qed.

Lemma join_cons separator s t rest :
  join separator (s :: t :: rest)
  = s +:+ separator +:+ join separator (t :: rest).
Proof. done. Qed.

Lemma join_split separator s :
  join (String separator EmptyString) (split separator s) = s.
Proof.
  induction s as [|c rest IH]; [done|].
  destruct (split_cons separator rest) as (f & o & Hrest).
  cbn [split]. rewrite Hrest in *. case_decide as Hc.
  - subst c. by rewrite join_cons, IH.
  - destruct o as [|t o]; [cbn in *; by rewrite IH|].
    rewrite join_cons in *. by rewrite <- IH.
Qed.

Lemma slice_0_m1_app {A} (l : list A) x : slice_0_m1 (l ++ [x]) = l.
Proof.
  unfold slice_0_m1. rewrite length_app. simpl.
  replace (length l + 1 - 1)%nat with (length l) by lia.
  by rewrite take_app_length.
Qed.

(** The directory of a path: what precedes its last separator. *)
Lemma directory_of_path dir file :
  "/"%char ∉ String.list_ascii_of_string file →
  join "/" (slice_0_m1 (split "/" (dir +:+ "/" +:+ file))) = dir.
Proof.
  intros Hfile. change ("/" +:+ file) with (String "/" file).
  by rewrite split_app, slice_0_m1_app, join_split.
Qed.

Lemma directory_of_name file :
  "/"%char ∉ String.list_ascii_of_string file →
  join "/" (slice_0_m1 (split "/" file)) = EmptyString.
Proof. intros Hfile. by rewrite split_without. Qed.

End TextFacts.

(** ** From a response *)

Ltac run_loader :=
  unfold mbind, Op_bind, Loaders.await, Loaders.try_catch, Loaders.clone,
    Loaders.construct, Loaders.fetch_, mret, Op_ret, throw.

(** X10.  When streaming instantiation is not there, or fails for whatever
    reason (the body of the response has been read already, or the platform
    rejects the response), [fromResponse] does what reading the body with
    [arrayBuffer] and passing the bytes to [fromBytes] does, to the same
    result and with the same effects.  The failure of the streaming attempt
    is never thrown and leaves nothing behind. *)
Theorem fromResponse_falls_back {Exports : Type}
    (platform : Loaders.Platform Exports) (response : Loaders.Response)
    (w : Loaders.World Exports) :
  match Loaders.instantiateStreaming platform with
  | Some streaming =>
      Loaders.bodyUsed w = true ∨ ∃ reason, streaming response = inl reason
  | None => True
  end →
  Loaders.fromResponse platform (inr response) w
  = (bytes ← Loaders.arrayBuffer response;
     Loaders.lift (Factory.fromBytes (Loaders.host platform) bytes)) w.
Proof.
  unfold Loaders.fromResponse.
  destruct (Loaders.instantiateStreaming platform) as [streaming|]; [|done].
  intros [Hused|[reason Hrejects]]; run_loader.
  - by rewrite Hused.
  - destruct (Loaders.bodyUsed w) eqn:Hused; [done|].
    by rewrite Hrejects.
Qed.

Lemma fromResponse_falls_back_witness :
  let w' := final (Loaders.fromResponse SamplePlatform.page
                     (inr (SamplePlatform.served "application/octet-stream"))
                     SamplePlatform.world) in
  Loaders.bodyUsed w' = true
  ∧ length (Factory.constructed (Loaders.realm w')) = 1%nat.
Proof.
  intros w'. subst w'. rewrite fromResponse_falls_back.
  - vm_compute. by split.
  - right. exists TypeError. reflexivity.
Defined.

(** X11.  When streaming instantiation is there and succeeds on a response
    whose body has not been read, [fromResponse] returns a new handle on the
    exports of the streamed instance, with no cached view.  The streaming
    ran on a copy: the body of the response itself is still unread, and
    [fromBytes] was not called. *)
Theorem fromResponse_streams_a_copy {Exports : Type}
    (platform : Loaders.Platform Exports) (response : Loaders.Response)
    (w : Loaders.World Exports)
    (streaming : Loaders.Response → exception + Exports) (exports : Exports) :
  Loaders.instantiateStreaming platform = Some streaming →
  Loaders.bodyUsed w = false →
  streaming response = inr exports →
  ∃ handle w',
    Loaders.fromResponse platform (inr response) w = Normal handle w'
    ∧ Factory.exports handle = exports
    ∧ Factory.memoryCache handle = None
    ∧ Factory.constructed (Loaders.realm w')
      = Factory.constructed (Loaders.realm w) ++ [handle]
    ∧ Factory.reads (Loaders.realm w') = Factory.reads (Loaders.realm w)
    ∧ Loaders.fetched w' = Loaders.fetched w
    ∧ Loaders.bodyUsed w' = false.
Proof.
  intros Hstreaming Hunused Hresolves.
  unfold Loaders.fromResponse. rewrite Hstreaming. run_loader.
  rewrite Hunused, Hresolves. eexists _, _. split; [reflexivity|].
  by repeat split.
Qed.

Lemma fromResponse_streams_a_copy_witness :
  let w' := final (Loaders.fromResponse SamplePlatform.page
                     (inr (SamplePlatform.served "application/wasm"))
                     SamplePlatform.world) in
  Loaders.bodyUsed w' = false
  ∧ length (Factory.constructed (Loaders.realm w')) = 1%nat.
Proof.
  intros w'. subst w'.
  destruct (fromResponse_streams_a_copy SamplePlatform.page
              (SamplePlatform.served "application/wasm") SamplePlatform.world
              _ TestDouble.exports eq_refl eq_refl)
    as (handle & w' & Hrun & _ & _ & Hconstructed & _ & _ & Hunused);
    [reflexivity|].
  rewrite Hrun. simpl. by rewrite Hconstructed, Hunused.
Defined.

(** ** From the current directory *)

(** X12.  In a browser, [fromCurrentDirectory] fetches the binary and hands
    the response to [fromResponse], as [fromUrl] does.  With a current
    script whose [src] is a directory, a slash and a file name, the URL is
    [reed_solomon_erasure_bg.wasm] in that directory; with a current script
    whose [src] has no slash (an inline script has an empty one) it is
    [/reed_solomon_erasure_bg.wasm], at the root; with no current script
    it is [./reed_solomon_erasure_bg.wasm]. *)
Theorem fromCurrentDirectory_in_browser {Exports : Type}
    (platform : Loaders.Platform Exports) (w : Loaders.World Exports) :
  Factory.isBrowser (Loaders.host platform) = true →
  (∀ dir file,
     Loaders.currentScript platform = Some (dir +:+ "/" +:+ file) →
     "/"%char ∉ String.list_ascii_of_string file →
     Loaders.fromCurrentDirectory platform w
     = Loaders.fromUrl platform (dir +:+ "/reed_solomon_erasure_bg.wasm") w)
  ∧ (∀ name,
       Loaders.currentScript platform = Some name →
       "/"%char ∉ String.list_ascii_of_string name →
       Loaders.fromCurrentDirectory platform w
       = Loaders.fromUrl platform "/reed_solomon_erasure_bg.wasm" w)
  ∧ (Loaders.currentScript platform = None →
     Loaders.fromCurrentDirectory platform w
     = Loaders.fromUrl platform "./reed_solomon_erasure_bg.wasm" w).
Proof.
  intros Hbrowser. unfold Loaders.fromCurrentDirectory. rewrite Hbrowser.
  repeat split.
  - intros dir file -> Hfile. by rewrite directory_of_path.
  - intros name -> Hname. by rewrite directory_of_name.
  - by intros ->.
Qed.

Lemma fromCurrentDirectory_in_browser_witness :
  Loaders.fetched
    (final (Loaders.fromCurrentDirectory SamplePlatform.page
              SamplePlatform.world))
  = [SamplePlatform.wasmUrl].
Proof.
  destruct (fromCurrentDirectory_in_browser SamplePlatform.page
              SamplePlatform.world eq_refl) as (Hscript & _).
  rewrite (Hscript "https://cdn.example/pkg" "index.js" eq_refl).
  - vm_compute. reflexivity.
  - apply (proj1 (bool_decide_eq_true _)). vm_compute. reflexivity.
Defined.

(** X13.  Outside a browser, [fromCurrentDirectory] does what
    [fromCurrentDirectorySync] does: it reads
    [reed_solomon_erasure_bg.wasm] in [__dirname] and passes the bytes to
    [fromBytes], to the same handle or the same exception, and fetches
    nothing. *)
Theorem fromCurrentDirectory_as_sync {Exports : Type}
    (platform : Loaders.Platform Exports) (w : Loaders.World Exports) :
  Factory.isBrowser (Loaders.host platform) = false →
  Loaders.fromCurrentDirectory platform w
  = Loaders.lift (Factory.fromCurrentDirectorySync (Loaders.host platform)) w
  ∧ Loaders.fetched (final (Loaders.fromCurrentDirectory platform w))
    = Loaders.fetched w.
Proof.
  intros Hnode.
  unfold Loaders.fromCurrentDirectory, Factory.fromCurrentDirectorySync.
  rewrite Hnode. unfold mbind, Op_bind, Loaders.lift,
    Loaders.loadWasmBytesNode, Factory.loadWasmBytesSyncNode.
  destruct (Factory.readFileSync _ _) as [bytes|]; simpl; [|done].
  by destruct (Factory.fromBytes _ _ _).
Qed.

Lemma fromCurrentDirectory_as_sync_witness :
  let w' := final (Loaders.fromCurrentDirectory SamplePlatform.node
                     SamplePlatform.world) in
  Factory.reads (Loaders.realm w') = [Sample.installed]
  ∧ length (Factory.constructed (Loaders.realm w')) = 1%nat
  ∧ Loaders.fetched w' = [].
Proof.
  intros w'. subst w'.
  destruct (fromCurrentDirectory_as_sync SamplePlatform.node
              SamplePlatform.world eq_refl) as [Hsync Hfetched].
  rewrite Hfetched, Hsync. vm_compute. by repeat split.
Defined.

(** X14.  In a browser, the instantiation that [getInstance] starts is the
    one that [getInstance] of the browser build starts, whenever a URL is
    given, and also without one (or with an empty one) when there is no
    current script: both fetch the URL given, or
    [./reed_solomon_erasure_bg.wasm]. *)
Theorem getInstance_loads_as_browser_build {Exports : Type}
    (platform : Loaders.Platform Exports) (wasmUrl : option string)
    (w : Loaders.World Exports) :
  Factory.isBrowser (Loaders.host platform) = true →
  Loaders.currentScript platform = None ∨ Singleton.truthy wasmUrl ≠ None →
  Loaders.load platform
    (Singleton.source (Factory.isBrowser (Loaders.host platform)) wasmUrl) w
  = Loaders.load_browser_build platform wasmUrl w.
Proof.
  intros Hbrowser Hcase.
  unfold Loaders.load_browser_build, or_else, Singleton.source in *.
  rewrite Hbrowser.
  assert (Hdefault :
    Singleton.truthy wasmUrl = None →
    Loaders.fromCurrentDirectory platform w
    = Loaders.fromUrl platform "./reed_solomon_erasure_bg.wasm" w).
  { intros Hnone. destruct Hcase as [Hscript|]; [|done].
    unfold Loaders.fromCurrentDirectory. by rewrite Hbrowser, Hscript. }
  unfold Singleton.truthy in *.
  destruct wasmUrl as [url|]; [case_decide|]; simpl; auto.
Qed.

Lemma getInstance_loads_as_browser_build_witness :
  Loaders.load SamplePlatform.page
    (Singleton.source true (Some SamplePlatform.wasmUrl)) SamplePlatform.world
  = Loaders.fromUrl SamplePlatform.page SamplePlatform.wasmUrl
      SamplePlatform.world.
Proof.
  apply (getInstance_loads_as_browser_build SamplePlatform.page
           (Some SamplePlatform.wasmUrl) SamplePlatform.world eq_refl).
  right. discriminate.
Defined.

(** ** From base64 *)

Section Base64Facts.
Import Base64 Base64Encoding.

Lemma list_ind_3 {A} (P : list A → Prop) :
  P [] → (∀ a, P [a]) → (∀ a b, P [a; b]) →
  (∀ a b c rest, P rest → P (a :: b :: c :: rest)) →
  ∀ l, P l.
Proof.
  intros H0 H1 H2 H3.
  cut (∀ l, P l ∧ (∀ a, P (a :: l)) ∧ (∀ a b, P (a :: b :: l))).
  { intros H l. apply H. }
  induction l as [|c l (IH0 & IH1 & IH2)]; [done|].
  repeat split; auto.
Qed.

Lemma filter_all {A} (P : A → Prop) `{!∀ x, Decision (P x)} (l : list A) :
  Forall P l → filter P l = l.
Proof.
  induction 1 as [|x l Hx _ IH]; [done|].
  by rewrite filter_cons_True, IH.
Qed.

(** The characters that encode six bits are in the alphabet, at their
    place. *)
Lemma digit_spec sextet :
  0 ≤ sextet < 64 →
  value (digit sextet) = Some sextet
  ∧ digit sextet ≠ "="%char
  ∧ whitespace (digit sextet) = false.
Proof.
  intros Hs.
  assert (Hall : Forall (λ s, value (digit s) = Some s
                              ∧ digit s ≠ "="%char
                              ∧ whitespace (digit s) = false)
                   (Z.of_nat <$> seq 0 64)).
  { apply (proj1 (bool_decide_eq_true _)). vm_compute. reflexivity. }
  rewrite Forall_forall in Hall. apply Hall.
  apply list_elem_of_fmap. exists (Z.to_nat sextet). split; [lia|].
  apply elem_of_seq. lia.
Qed.

Lemma sextets_of_range bytes :
  Forall (λ b, 0 ≤ b < 256) bytes →
  Forall (λ s, 0 ≤ s < 64) (sextets_of bytes).
Proof.
  induction bytes as [|a|a b|a b c rest IH] using list_ind_3; simpl;
    intros H; rewrite ?Forall_cons in H; destruct_and?;
    repeat first [apply Forall_nil_2 | apply Forall_cons_2]; auto;
    Z.div_mod_to_equations; lia.
Qed.

Lemma bytes_of_sextets_of bytes :
  Forall (λ b, 0 ≤ b < 256) bytes → bytes_of (sextets_of bytes) = bytes.
Proof.
  induction bytes as [|a|a b|a b c rest IH] using list_ind_3; simpl;
    intros H; rewrite ?Forall_cons in H; destruct_and?.
  - done.
  - f_equal. Z.div_mod_to_equations; lia.
  - f_equal; [|f_equal]; Z.div_mod_to_equations; lia.
  - rewrite IH by done.
    f_equal; [|f_equal; [|f_equal]]; Z.div_mod_to_equations; lia.
Qed.

Lemma padding_step n : padding (S (S (S n))) = padding n.
Proof.
  unfold padding. replace (S (S (S n))) with (n + 1 * 3)%nat by lia.
  by rewrite Nat.Div0.mod_add.
Qed.

Lemma mod_4_step n : (S (S (S (S n))) mod 4 = n mod 4)%nat.
Proof.
  replace (S (S (S (S n)))) with (n + 1 * 4)%nat by lia.
  by rewrite Nat.Div0.mod_add.
Qed.

Lemma length_encoded (bytes : list Z) :
  (length (sextets_of bytes) mod 4 ≠ 1
   ∧ (length (sextets_of bytes) + length (padding (length bytes))) mod 4
     = 0)%nat.
Proof.
  induction bytes as [|a|a b|a b c rest IH] using list_ind_3;
    [by vm_compute..|].
  cbn [sextets_of length]. rewrite padding_step. cbn [Nat.add].
  by rewrite !mod_4_step.
Qed.

Lemma strip_padding_encoded digits n :
  Forall (λ c, c ≠ "="%char) digits →
  strip_padding (digits ++ padding n) = digits.
Proof.
  intros Hdigits. unfold strip_padding. rewrite reverse_app.
  assert (Hlast : match reverse digits with
                  | c :: _ => c ≠ "="%char
                  | [] => True
                  end).
  { destruct (reverse digits) as [|c r] eqn:Hr; [done|].
    rewrite Forall_forall in Hdigits. apply Hdigits.
    apply elem_of_reverse. rewrite Hr. by left. }
  unfold padding. destruct (n mod 3)%nat as [|[|[|k]]]; simpl.
  - rewrite app_nil_r.
    destruct (reverse digits) as [|c r]; [done|].
    destruct (decide (c = "="%char)) as [->|Hc]; [done|].
    destruct c as [[] [] [] [] [] [] [] []]; try done.
  - by rewrite reverse_involutive.
  - destruct (reverse digits) as [|c r] eqn:Hr.
    + by rewrite <- (reverse_involutive digits), Hr.
    + destruct (decide (c = "="%char)) as [->|Hc]; [done|].
      rewrite <- Hr, reverse_involutive.
      destruct c as [[] [] [] [] [] [] [] []]; try done.
  - rewrite app_nil_r.
    destruct (reverse digits) as [|c r]; [done|].
    destruct (decide (c = "="%char)) as [->|Hc]; [done|].
    destruct c as [[] [] [] [] [] [] [] []]; try done.
Qed.

Lemma mapM_value_digit sextets :
  Forall (λ s, 0 ≤ s < 64) sextets →
  mapM value (digit <$> sextets) = Some sextets.
Proof.
  induction 1 as [|s rest Hs _ IH]; [done|].
  rewrite fmap_cons. cbn [mapM]. rewrite IH.
  destruct (digit_spec s Hs) as (-> & _). done.
Qed.

Lemma code_unit_range bytes :
  Forall (λ b, 0 ≤ b < 256) (code_unit <$> bytes).
Proof.
  apply Forall_fmap, Forall_forall. intros b _. unfold code_unit. simpl.
  pose proof (Byte.to_N_bounded b). lia.
Qed.

Lemma digits_clean bytes :
  Forall (λ c, c ≠ "="%char ∧ whitespace c = false) (digits bytes).
Proof.
  apply Forall_fmap.
  eapply Forall_impl; [apply sextets_of_range, code_unit_range|].
  intros s Hs. by destruct (digit_spec s Hs) as (_ & ? & ?).
Qed.

Lemma strip_padding_digits bytes : strip_padding (digits bytes) = digits bytes.
Proof.
  rewrite <- (app_nil_r (digits bytes)) at 1.
  apply (strip_padding_encoded _ 0).
  eapply Forall_impl; [apply digits_clean|]. by intros c [? _].
Qed.

(** Decoding undoes encoding, with or without the padding. *)
Lemma forgiving_decode_kept data bytes :
  filter (λ c, ¬ whitespace c) (String.list_ascii_of_string data)
  = digits bytes ++ padding (length bytes)
  ∨ filter (λ c, ¬ whitespace c) (String.list_ascii_of_string data)
    = digits bytes →
  forgiving_decode data = Some (code_unit <$> bytes).
Proof.
  pose proof (sextets_of_range _ (code_unit_range bytes)) as Hrange.
  destruct (length_encoded (code_unit <$> bytes)) as [Hnot1 Hzero].
  rewrite length_fmap in Hzero.
  assert (Hlength : length (digits bytes)
                    = length (sextets_of (code_unit <$> bytes))).
  { apply length_fmap. }
  assert (Hstripped :
    (if decide (length (digits bytes) mod 4 = 1)%nat then None
     else bytes_of <$> mapM value (digits bytes))
    = Some (code_unit <$> bytes)).
  { rewrite decide_False by by rewrite Hlength.
    unfold digits. rewrite mapM_value_digit by done. simpl.
    f_equal. by apply bytes_of_sextets_of, code_unit_range. }
  unfold forgiving_decode. intros [-> | ->].
  - destruct (decide (length (_ ++ _) mod 4 = 0)%nat) as [_|Hno].
    2:{ by rewrite length_app, Hlength in Hno. }
    rewrite strip_padding_encoded; [done|].
    eapply Forall_impl; [apply digits_clean|]. by intros c [? _].
  - destruct (decide (length (digits bytes) mod 4 = 0)%nat) as [_|_];
      [by rewrite strip_padding_digits|done].
Qed.

(** An encoding holds no whitespace. *)
Lemma encode_kept bytes :
  filter (λ c, ¬ whitespace c) (String.list_ascii_of_string (encode bytes))
  = digits bytes ++ padding (length bytes).
Proof.
  unfold encode. rewrite String.list_ascii_of_string_of_list_ascii.
  apply filter_all, Forall_app. split.
  - eapply Forall_impl; [apply digits_clean|].
    intros c [_ ->]. by intros [].
  - unfold padding. destruct (_ mod 3)%nat as [|[|[|k]]];
      repeat constructor; by intros [].
Qed.

(** The loop of [fromBase64] stores every code unit, in order. *)
Lemma charCodeAt_loop (binaryString : list Z) :
  foldl (λ bytes i, <[i := ToUint8 (default 0 (binaryString !! i))]> bytes)
    (replicate (length binaryString) x00) (seq 0 (length binaryString))
  = ToUint8 <$> binaryString.
Proof.
  cut (∀ n, (n ≤ length binaryString)%nat →
         foldl (λ bytes i,
                  <[i := ToUint8 (default 0 (binaryString !! i))]> bytes)
           (replicate (length binaryString) x00) (seq 0 n)
         = (ToUint8 <$> take n binaryString)
           ++ replicate (length binaryString - n) x00).
  { intros H. rewrite H by done. rewrite Nat.sub_diag, firstn_all.
    apply app_nil_r. }
  induction n as [|n IH]; intros Hn.
  - by rewrite Nat.sub_0_r.
  - rewrite seq_S, foldl_app, IH by lia. simpl.
    destruct (lookup_lt_is_Some_2 binaryString n) as [code Hcode]; [lia|].
    rewrite (take_S_r _ _ _ Hcode), Hcode, fmap_app. simpl.
    replace (length binaryString - n)%nat
      with (S (length binaryString - S n)) by lia.
    rewrite <- app_assoc. simpl.
    rewrite insert_app_r_alt by (rewrite length_fmap, length_take; lia).
    rewrite length_fmap, length_take.
    by replace (n - n `min` length binaryString)%nat with 0%nat by lia.
Qed.

Lemma ToUint8_code_unit b : ToUint8 (code_unit b) = b.
Proof. by destruct b. Qed.

(** Removing the padding removes nothing else. *)
Lemma strip_padding_keeps c data :
  c ∈ data → c ≠ "="%char → c ∈ strip_padding data.
Proof.
  intros Hin Hc. unfold strip_padding.
  apply elem_of_reverse in Hin.
  destruct (reverse data) as [|x [|y rest]] eqn:Hr;
    [by apply elem_of_nil in Hin|..].
  - apply list_elem_of_singleton in Hin as ->.
    rewrite <- (reverse_involutive data), Hr.
    destruct x as [[] [] [] [] [] [] [] []]; try done; by left.
  - assert (Hdata : data = reverse (x :: y :: rest)).
    { by rewrite <- Hr, reverse_involutive. }
    destruct (decide (x = "="%char)) as [->|Hx].
    + apply elem_of_cons in Hin as [?|Hin]; [done|].
      destruct (decide (y = "="%char)) as [->|Hy].
      * apply elem_of_cons in Hin as [?|Hin]; [done|].
        by apply elem_of_reverse.
      * assert (c ∈ reverse (y :: rest)) by by apply elem_of_reverse.
        destruct y as [[] [] [] [] [] [] [] []]; done.
    + assert (c ∈ data) by (rewrite Hdata; by apply elem_of_reverse).
      destruct x as [[] [] [] [] [] [] [] []]; done.
Qed.

Lemma forgiving_decode_foreign c data :
  c ∈ String.list_ascii_of_string data →
  whitespace c = false → c ≠ "="%char → value c = None →
  forgiving_decode data = None.
Proof.
  intros Hin Hspace Hpad Hvalue. unfold forgiving_decode.
  set (kept := filter _ _).
  assert (Hkept : c ∈ kept).
  { apply list_elem_of_filter. split; [|done]. rewrite Hspace. by intros []. }
  set (stripped := if decide (length kept mod 4 = 0)%nat
                  then strip_padding kept else kept).
  assert (Hstripped : c ∈ stripped).
  { unfold stripped. case_decide; [|done]. by apply strip_padding_keeps. }
  case_decide; [done|].
  destruct (mapM value stripped) as [sextets|] eqn:Hsextets; [|done].
  assert (His : is_Some (mapM value stripped)) by eauto.
  rewrite mapM_is_Some, Forall_forall in His.
  destruct (His c Hstripped) as [s Hs]. simpl in Hs. congruence.
Qed.

End Base64Facts.

(** X15.  [fromBase64] on the base64 encoding of a binary does what
    [fromBytes] does on the binary itself, to the same handle or the same
    exception: the decoding and the loop over the characters give back
    exactly the bytes that were encoded, whatever they are and however
    many.  The same holds of the encoding with ASCII whitespace put in
    anywhere, and of it without its padding. *)
Theorem fromBase64_round_trip {Exports : Type} (host : Factory.Host Exports)
    (bytes : list byte) (r : Factory.Realm Exports) :
  Loaders.fromBase64 host (Base64Encoding.encode bytes) r
  = Factory.fromBytes host bytes r
  ∧ ∀ base64,
      let kept := filter (λ c, ¬ Base64.whitespace c)
                    (String.list_ascii_of_string base64) in
      kept = String.list_ascii_of_string (Base64Encoding.encode bytes)
      ∨ kept = Base64Encoding.digits bytes →
      Loaders.fromBase64 host base64 r = Factory.fromBytes host bytes r.
Proof.
  assert (Hdecoded : ∀ base64,
    Base64.forgiving_decode base64 = Some (Base64Encoding.code_unit <$> bytes) →
    Loaders.fromBase64 host base64 r = Factory.fromBytes host bytes r).
  { intros base64 Hdecode. unfold Loaders.fromBase64, Base64.atob.
    rewrite Hdecode. unfold Loaders.await.
    unfold mbind, Op_bind, mret, Op_ret.
    rewrite charCodeAt_loop. rewrite <- list_fmap_compose.
    f_equal. rewrite <- (list_fmap_id bytes) at 2.
    apply list_fmap_ext. intros _ b _. apply ToUint8_code_unit. }
  split.
  - apply Hdecoded, forgiving_decode_kept. left. apply encode_kept.
  - intros base64 kept Hkept. apply Hdecoded, forgiving_decode_kept.
    destruct Hkept as [Hkept|Hkept]; [left|by right].
    fold kept. rewrite Hkept. unfold Base64Encoding.encode.
    apply String.list_ascii_of_string_of_list_ascii.
Qed.

Lemma fromBase64_round_trip_witness :
  Loaders.fromBase64 Sample.node "AGFz bQEA AAA" Sample.realm
  = Factory.fromBytes Sample.node Sample.binary Sample.realm.
Proof.
  apply (fromBase64_round_trip Sample.node Sample.binary Sample.realm).
  right. vm_compute. reflexivity.
Defined.

(** X16.  [fromBase64] on a string that holds a character which is neither
    of the base64 alphabet, nor ASCII whitespace, nor [=], throws the
    InvalidCharacterError of [atob]; nothing is instantiated and no handle
    is made. *)
Theorem fromBase64_rejects_foreign_character {Exports : Type}
    (host : Factory.Host Exports) (base64 : string) (c : ascii)
    (r : Factory.Realm Exports) :
  c ∈ String.list_ascii_of_string base64 →
  Base64.whitespace c = false → c ≠ "="%char → c ∉ Base64.alphabet →
  Loaders.fromBase64 host base64 r = Throw (Error "InvalidCharacterError") r.
Proof.
  intros Hin Hspace Hpad Hforeign.
  unfold Loaders.fromBase64, Base64.atob.
  rewrite (forgiving_decode_foreign c); try done.
  unfold Base64.value.
  destruct (list_find _ _) as [[i a]|] eqn:Hfind; [|done].
  apply list_find_Some in Hfind as (Hi & -> & _).
  by apply list_elem_of_lookup_2 in Hi.
Qed.

Lemma fromBase64_rejects_foreign_character_witness :
  Loaders.fromBase64 Sample.worker "AGFz-QEAAAA=" Sample.realm
  = Throw (Error "InvalidCharacterError") Sample.realm.
Proof.
  apply (fromBase64_rejects_foreign_character _ _ "-"%char).
  - apply (proj1 (bool_decide_eq_true _)). vm_compute. reflexivity.
  - reflexivity.
  - discriminate.
  - apply (proj1 (bool_decide_eq_true _)). vm_compute. reflexivity.
Defined.

(** * Further properties of the singleton, with [clearInstance] *)

(** X17.  [clearInstance] does not cancel an instantiation in flight.  A
    call of [getInstance] made after it starts a second instantiation beside
    the first.  When the first fulfils, its handle is cached all the same and
    the marker of the second is cleared; when the second fulfils, its handle
    replaces the first in the cache. *)
Theorem clearInstance_does_not_cancel (isBrowser : bool)
    (events : list Singleton.Event) (wasmUrl : option string)
    (promise value value' : nat) :
  let r := Singleton.run isBrowser events in
  let started := length (Singleton.instantiations r) in
  let r1 := (Singleton.getInstance isBrowser wasmUrl
               (Singleton.clearInstance r)).2 in
  let r2 := Singleton.settle promise (Singleton.Fulfilled value) r1 in
  let r3 := Singleton.settle started (Singleton.Fulfilled value') r2 in
  Singleton.pending r promise →
  (Singleton.pending r1 promise ∧ Singleton.pending r1 started
   ∧ started ≠ promise)
  ∧ (Singleton.cachedInstance r2 = Some value
     ∧ Singleton.loadingPromise r2 = None
     ∧ Singleton.pending r2 started)
  ∧ Singleton.cachedInstance r3 = Some value'.
Proof.
  intros r started r1 r2 r3 Hpending.
  destruct (consistent_run isBrowser events) as [Hconsistent _].
  fold r in Hconsistent.
  destruct (Hconsistent promise Hpending) as (_ & _ & Hsuspended).
  destruct Hpending as [src Hsrc].
  assert (Hlt : (promise < started)%nat) by by apply lookup_lt_Some in Hsrc.
  assert (Hne : started ≠ promise) by lia.
  assert (Hr1 : r1 = {| Singleton.cachedInstance := None;
                        Singleton.loadingPromise := Some started;
                        Singleton.instantiations :=
                          Singleton.instantiations r
                          ++ [(Singleton.source isBrowser wasmUrl,
                               Singleton.Pending)];
                        Singleton.suspended := [promise; started] |}).
  { subst r1. unfold Singleton.getInstance, Singleton.clearInstance. simpl.
    by rewrite Hsuspended. }
  assert (Hr2 : r2 = {| Singleton.cachedInstance := Some value;
                        Singleton.loadingPromise := None;
                        Singleton.instantiations :=
                          alter (λ s, (s.1, Singleton.Fulfilled value)) promise
                            (Singleton.instantiations r
                             ++ [(Singleton.source isBrowser wasmUrl,
                                  Singleton.Pending)]);
                        Singleton.suspended := [started] |}).
  { subst r2. rewrite Hr1. unfold Singleton.settle. simpl.
    rewrite (filter_cons_True (λ q, q = promise)) by done.
    rewrite (filter_cons_False (λ q, q = promise)) by done.
    rewrite (filter_cons_False (λ q, q ≠ promise)) by (intros H; by apply H).
    rewrite (filter_cons_True (λ q, q ≠ promise)) by done.
    by rewrite !filter_nil. }
  assert (Hstarted : ∀ l : list (Singleton.Source * Singleton.Settlement),
            length l = started →
            (l ++ [(Singleton.source isBrowser wasmUrl, Singleton.Pending)])
              !! started
            = Some (Singleton.source isBrowser wasmUrl, Singleton.Pending)).
  { intros l Hl. rewrite lookup_app_r by lia. by rewrite Hl, Nat.sub_diag. }
  repeat split.
  - exists src. rewrite Hr1. simpl. by apply lookup_app_l_Some.
  - eexists. rewrite Hr1. simpl. by apply Hstarted.
  - done.
  - by rewrite Hr2.
  - by rewrite Hr2.
  - eexists. rewrite Hr2. simpl.
    rewrite list_lookup_alter_ne by done. by apply Hstarted.
  - subst r3. rewrite Hr2. unfold Singleton.settle. simpl.
    rewrite (filter_cons_True (λ q, q = started)) by done.
    by rewrite !filter_nil.
Qed.

Lemma clearInstance_does_not_cancel_witness :
  Singleton.cachedInstance
    (Singleton.settle 1%nat (Singleton.Fulfilled 8%nat)
       (Singleton.settle 0%nat (Singleton.Fulfilled 7%nat)
          (Singleton.getInstance true None
             (Singleton.clearInstance
                (Singleton.run true [Singleton.called None]))).2))
  = Some 8%nat.
Proof.
  apply (clearInstance_does_not_cancel true [Singleton.called None] None
           0%nat 7%nat 8%nat).
  by eexists.
Defined.

Lemma consistent_steps isBrowser events r :
  Singleton.consistent r →
  Singleton.consistent (foldl (Singleton.step isBrowser) r events).
Proof.
  revert r. induction events as [|ev events IH]; intros r Hr; [done|].
  simpl. apply IH. by apply consistent_step.
Qed.

Lemma consistent_clearInstance r :
  Singleton.consistent r → (∀ p, ¬ Singleton.pending r p) →
  Singleton.consistent (Singleton.clearInstance r).
Proof.
  intros [_ Hidle] Hnone. split.
  - intros p Hp. by apply Hnone in Hp.
  - intros _. simpl. by apply Hidle.
Qed.

(** X18.  [clearInstance] called while nothing is in flight leaves the
    singleton as good as new: along any sequence of calls of [getInstance]
    and settlements that follows, an instantiation in flight is again the
    only one, and every call made meanwhile starts nothing and returns its
    promise. *)
Theorem clearInstance_when_idle (isBrowser : bool)
    (events events' : list Singleton.Event) (promise : nat) :
  let r := Singleton.run isBrowser events in
  let r' := foldl (Singleton.step isBrowser) (Singleton.clearInstance r)
              events' in
  (∀ p, ¬ Singleton.pending r p) →
  Singleton.pending r' promise →
  (∀ other, Singleton.pending r' other → other = promise)
  ∧ ∀ wasmUrl,
      Singleton.getInstance isBrowser wasmUrl r'
      = (Singleton.follows promise, r').
Proof.
  intros r r' Hidle Hpending.
  assert (Hconsistent : Singleton.consistent r').
  { apply consistent_steps, consistent_clearInstance; [|done].
    apply consistent_run. }
  destruct Hconsistent as [Hconsistent _].
  destruct (Hconsistent promise Hpending) as (Hloading & Hcached & _).
  split.
  - intros other Hother.
    destruct (Hconsistent other Hother) as (Hloading' & _). congruence.
  - intros wasmUrl. by apply getInstance_loading.
Qed.

Lemma clearInstance_when_idle_witness :
  Singleton.getInstance true None
    (foldl (Singleton.step true)
       (Singleton.clearInstance
          (Singleton.run true
             [Singleton.called None;
              Singleton.settled 0%nat (Singleton.Fulfilled 7%nat)]))
       [Singleton.called (Some "/rs.wasm"%string)])
  = (Singleton.follows 1%nat,
     foldl (Singleton.step true)
       (Singleton.clearInstance
          (Singleton.run true
             [Singleton.called None;
              Singleton.settled 0%nat (Singleton.Fulfilled 7%nat)]))
       [Singleton.called (Some "/rs.wasm"%string)]).
Proof.
  apply (clearInstance_when_idle true
           [Singleton.called None;
            Singleton.settled 0%nat (Singleton.Fulfilled 7%nat)]
           [Singleton.called (Some "/rs.wasm"%string)] 1%nat).
  - intros p [s Hs]. vm_compute in Hs.
    destruct p as [|p]; [discriminate|]. by destruct p.
  - by eexists.
Defined.
